(** * Walla-Bot: the incremental harvesting engine of [walla-bot.py]

    A shallow embedding of the functions of [walla-bot.py] that decide how
    listings are expanded, extracted, de-duplicated against the seen-ads
    file and notified, followed by the properties proved about them.

    Layout:
    - [PyStr]    Python [str] values and the built-ins the bot calls on them
                 ([replace], [split], [strip], [float]);
    - [Expand]   [load_all_results];
    - [Data]     cards, records, configuration and the trace of a run;
    - [Extract]  [extract_new_ads];
    - [Registry] [load_seen_ads] and [save_seen_ad];
    - [Run]      [download_images], [send_email_alert] and [main];
    - [Samples]  the pages and sessions the examples run on;
    - [Click]    [click_load_more];
    - [Search]   the search URL and the names of the files written;
    - [Views], [Variants]  what the statements read off cards, logs and
                 sessions.

    The browser is not modelled: a card is the answers it gives to the
    WebDriver calls made on it, a page the number of cards it shows at each
    iteration, and a session the outcome of each step that can raise,
    reading and appending the seen-ads file included.  Log calls and the
    [print] of a fixed ASCII text are taken to return. *)

From Stdlib Require Import ZArith NArith QArith Lia List String Ascii Bool.
From Stdlib Require Import Floats.PrimFloat Numbers.Cyclic.Int63.Uint63.
From stdpp Require Import base gmap sets list.
Import ListNotations.

#[local] Open Scope N_scope.
#[local] Set Warnings "-inexact-float".

(** ** Python strings *)

Module PyStr.

(** A Python [str] is a sequence of Unicode code points. *)
Abbreviation pystr := (list N).

(** ASCII literals. *)
Definition py (s : string) : pystr := map N_of_ascii (list_ascii_of_string s).

Definition EURO : N := 8364.   (* U+20AC *)
Definition NBSP : N := 160.    (* U+00A0 *)

(** [str.isspace] on one code point: the characters [str.strip()] removes. *)
Definition is_space (c : N) : bool :=
  ((9 <=? c) && (c <=? 13)) || ((28 <=? c) && (c <=? 32)) ||
  (c =? 133) || (c =? 160) || (c =? 5760) ||
  ((8192 <=? c) && (c <=? 8202)) ||
  (c =? 8232) || (c =? 8233) || (c =? 8239) || (c =? 8287) || (c =? 12288).

Fixpoint lstrip (s : pystr) : pystr :=
  match s with
  | c :: s' => if is_space c then lstrip s' else s
  | [] => []
  end.

Definition rstrip (s : pystr) : pystr := rev (lstrip (rev s)).

(** [s.strip()] *)
Definition strip (s : pystr) : pystr := rstrip (lstrip s).

Fixpoint starts_with (p s : pystr) : bool :=
  match p, s with
  | [], _ => true
  | a :: p', b :: s' => (a =? b) && starts_with p' s'
  | _ :: _, [] => false
  end.

(** [s.replace(old, new)] for a non-empty [old]: occurrences are found left
    to right and do not overlap.  [skip] counts the characters of the
    occurrence just replaced that are still to be passed over. *)
Fixpoint replace_from (old new s : pystr) (skip : nat) : pystr :=
  match s with
  | [] => []
  | c :: s' =>
      match skip with
      | S k => replace_from old new s' k
      | O =>
          if starts_with old s
          then new ++ replace_from old new s' (length old - 1)
          else c :: replace_from old new s' 0
      end
  end.

Definition replace (old new s : pystr) : pystr := replace_from old new s 0.

(** [s.split(sep)] for a one-character separator: never the empty list. *)
Fixpoint split (sep : N) (s : pystr) : list pystr :=
  match s with
  | [] => [[]]
  | c :: s' =>
      if c =? sep then [] :: split sep s'
      else match split sep s' with
           | seg :: segs => (c :: seg) :: segs
           | [] => [[c]]
           end
  end.

(** *** [float(str)]

    The value [float] returns: [Finite neg m e] stands for the double
    nearest to [(-1)^neg * m * 10^e], which is finite, and a decimal too
    large for a finite double is read as an infinity. *)
Inductive pyfloat :=
| Finite (neg : bool) (m : N) (e : Z)
| Inf (neg : bool)
| NaN.

(** Zero code points of the Unicode decimal-digit blocks (category Nd); each
    block holds the ten digits in order. *)
Definition nd_zeros : list N :=
  [48; 1632; 1776; 1984; 2406; 2534; 2662; 2790; 2918; 3046; 3174; 3302;
   3430; 3558; 3664; 3792; 3872; 4160; 4240; 6112; 6160; 6470; 6608; 6784;
   6800; 6992; 7088; 7232; 7248; 42528; 43216; 43264; 43472; 43504; 43600;
   44016; 65296; 66720; 68912; 69734; 69872; 69942; 70096; 70384; 70736;
   70864; 71248; 71360; 71472; 71904; 72016; 72784; 73040; 73120; 92768;
   92864; 93008; 120782; 120792; 120802; 120812; 120822; 123200; 123632;
   125264; 130032].

Definition decimal_of (c : N) : option N :=
  match List.find (fun z => (z <=? c) && (c <? z + 10)) nd_zeros with
  | Some z => Some (c - z)
  | None => None
  end.

(** [float] first rewrites the text to ASCII: ASCII stays, any other white
    space becomes a blank, any other decimal digit its ASCII digit, and
    anything else a question mark (which no number contains). *)
Definition to_ascii (c : N) : N :=
  if c <? 127 then c
  else if is_space c then 32
  else match decimal_of c with
       | Some d => 48 + d
       | None => 63
       end.

(** The blanks [float] trims after that rewriting. *)
Definition is_c_space (c : N) : bool := ((9 <=? c) && (c <=? 13)) || (c =? 32).

Fixpoint ltrim (s : pystr) : pystr :=
  match s with
  | c :: s' => if is_c_space c then ltrim s' else s
  | [] => []
  end.

Definition trim (s : pystr) : pystr := rev (ltrim (rev (ltrim s))).

Definition is_digit (c : N) : bool := (48 <=? c) && (c <=? 57).

(** [digit (["_"] digit)*] after its first digit: the value so far, the
    number of digits read, and the text left. *)
Fixpoint more_digits (acc : N) (k : nat) (s : pystr) {struct s}
  : N * nat * pystr :=
  match s with
  | c :: s' =>
      if is_digit c then more_digits (10 * acc + (c - 48)) (S k) s'
      else if c =? 95 then
        match s' with
        | d :: s'' =>
            if is_digit d then more_digits (10 * acc + (d - 48)) (S k) s''
            else (acc, k, s)
        | [] => (acc, k, s)
        end
      else (acc, k, s)
  | [] => (acc, k, [])
  end.

Definition digitpart (acc : N) (s : pystr) : option (N * nat * pystr) :=
  match s with
  | c :: s' =>
      if is_digit c then Some (more_digits (10 * acc + (c - 48)) 1 s')
      else None
  | [] => None
  end.

(** [[digitpart] "." digitpart | digitpart ["."]]: mantissa, number of
    fraction digits, rest. *)
Definition number (s : pystr) : option (N * nat * pystr) :=
  match digitpart 0 s with
  | Some (i, _, r) =>
      match r with
      | 46 :: r' =>
          match digitpart i r' with
          | Some res => Some res
          | None => Some (i, O, r')
          end
      | _ => Some (i, O, r)
      end
  | None =>
      match s with
      | 46 :: r' => digitpart 0 r'
      | _ => None
      end
  end.

Definition sign (s : pystr) : bool * pystr :=
  match s with
  | 45 :: s' => (true, s')
  | 43 :: s' => (false, s')
  | _ => (false, s)
  end.

(** [("e" | "E") [sign] digitpart]; an exponent mark that no digit follows
    is left unread, which makes the whole text invalid. *)
Definition exponent (s : pystr) : Z * pystr :=
  match s with
  | c :: s' =>
      if (c =? 101) || (c =? 69) then
        let '(neg, s'') := sign s' in
        match digitpart 0 s'' with
        | Some (x, _, r) => ((if neg then - Z.of_N x else Z.of_N x)%Z, r)
        | None => (0%Z, s)
        end
      else (0%Z, s)
  | [] => (0%Z, [])
  end.

Definition lower (c : N) : N :=
  if (65 <=? c) && (c <=? 90) then c + 32 else c.

Definition eqb_str (a b : pystr) : bool :=
  bool_decide (a = b).

(** The decimals [m * 10^e] that round to an infinity: those from
    [2^1024 - 2^970] on, half way between the largest double and [2^1024]
    (the tie goes to the even neighbour, which is [2^1024]). *)
Definition overflows (m : N) (e : Z) : bool :=
  let limit := (2 ^ 1024 - 2 ^ 970)%Z in
  if (0 <=? e)%Z then (limit <=? Z.of_N m * 10 ^ e)%Z
  else (limit * 10 ^ (- e) <=? Z.of_N m)%Z.

(** [float(s)]: [None] stands for [ValueError]. *)
Definition float (s : pystr) : option pyfloat :=
  let t := trim (map to_ascii s) in
  let '(neg, body) := sign t in
  let low := map lower body in
  if eqb_str low (py "inf") || eqb_str low (py "infinity") then Some (Inf neg)
  else if eqb_str low (py "nan") then Some NaN
  else
    match number body with
    | Some (m, k, r) =>
        match exponent r with
        | (x, []) =>
            let e := (x - Z.of_nat k)%Z in
            Some (if overflows m e then Inf neg else Finite neg m e)
        | (_, _ :: _) => None
        end
    | None => None
    end.

(** The rational a finite result stands for. *)
Definition Qvalue (p : pyfloat) : option Q :=
  match p with
  | Finite neg m e =>
      let a := (if neg then - Z.of_N m else Z.of_N m)%Z in
      Some (if (0 <=? e)%Z then inject_Z (a * 10 ^ e)
            else Qmake a (Z.to_pos (10 ^ (- e))))
  | _ => None
  end.

(** The binary64 value, on a range where one correctly rounded operation
    on exactly representable operands gives it: a mantissa below [2^53] and
    a power of ten up to [10^18], which both fit a 63-bit integer.
    Elsewhere the rounding is left open. *)
Definition binary64 (p : pyfloat) : option PrimFloat.float :=
  match p with
  | Finite neg m e =>
      if (Z.of_N m <? 2 ^ 53)%Z && (Z.abs e <=? 18)%Z then
        let fm := PrimFloat.of_uint63 (Uint63.of_Z (Z.of_N m)) in
        let ft := PrimFloat.of_uint63 (Uint63.of_Z (10 ^ Z.abs e)) in
        let a := if (0 <=? e)%Z then PrimFloat.mul fm ft
                 else PrimFloat.div fm ft in
        Some (if neg then PrimFloat.opp a else a)
      else None
  | Inf neg =>
      Some (if neg then PrimFloat.neg_infinity else PrimFloat.infinity)
  | NaN => Some PrimFloat.nan
  end.

End PyStr.

Import PyStr.

(** ** Exceptions *)

(** The exception classes the bot tells apart; [OtherException] is any other
    subclass of [Exception]. *)
Inductive exn :=
| NoSuchElementException
| TimeoutException
| OtherException.

(** The outcome of a call that may raise. *)
Inductive res (A : Type) :=
| Ok (a : A)
| Raise (e : exn).
Arguments Ok {A} a.
Arguments Raise {A} e.

(** Sequencing: a raised exception skips what follows. *)
#[global] Instance res_bind : MBind res := fun A B k r =>
  match r with
  | Ok a => k a
  | Raise e => Raise e
  end.

(** ** [load_all_results]: growing the result page *)

Module Expand.
#[local] Open Scope nat_scope.

(** Which [break] ended the loop. *)
Inductive stop := Reached | Exhausted.

Record result := { why : stop; iterations : nat; rendered : nat }.

Section Loop.
(** [counts i] is the number of cards [find_elements] returns in the
    [i]-th iteration (from 1), after the click, the scroll and the pauses
    of that iteration. *)
Variable counts : nat -> nat.
Variable max_results : Z.

(** The [while True] loop entered at iteration [i].  [None]: the loop is
    still running after [fuel] iterations. *)
Fixpoint loop (fuel i last_count attempts_without_growth : nat)
  : option result :=
  match fuel with
  | O => None
  | S fuel' =>
      let current := counts i in
      if (max_results <=? Z.of_nat current)%Z then
        Some {| why := Reached; iterations := i; rendered := current |}
      else if current =? last_count then
        let attempts := S attempts_without_growth in
        if 2 <=? attempts then
          Some {| why := Exhausted; iterations := i; rendered := current |}
        else loop fuel' (S i) current attempts
      else loop fuel' (S i) current 0
  end.

Definition load_all_results (fuel : nat) : option result := loop fuel 1 0 0.
End Loop.

End Expand.

(** ** Cards, records and configuration *)

Module Data.

(** A rendered card ([a.ItemCardList__item]) as the extractor reads it: the
    result of each WebDriver call made on it. *)
Record card := {
  href : res (option pystr);        (* card.get_attribute("href") *)
  title_attr : res (option pystr);  (* card.get_attribute("title") *)
  title_text : res pystr;  (* card.find_element(".ItemCard__title").text *)
  price_text : res pystr;  (* card.find_element(".ItemCard__price").text *)
  img_src : res (option pystr)
                  (* card.find_element("img").get_attribute("src") *)
}.

(** The [ad_details] dictionary.  [image_url] and [image_path] are keys
    that may be absent. *)
Record ad := {
  id : pystr;
  title : pystr;
  price : pyfloat;
  link : pystr;
  extracted_at_date : pystr;
  image_url : option (option pystr);
  image_path : option pystr
}.

(** The keys of [config.json] read after start-up; [None] is a missing key. *)
Record config := {
  max_results : option Z;
  save_images : option bool;
  send_email : option bool
}.

(** What a run does that can be observed from outside, in order: log
    lines, reads and appends of the seen-ads file, exports and mail. *)
Inductive event :=
| LogSearching                      (* "Searching for: ..." *)
| LogNavigating (url : pystr)       (* "Navigating to: ..." *)
| LogCookies (accepted : bool)
| LogScreenshot
| LoadSeen                          (* load_seen_ads() has returned *)
| LogNewAd (a : ad)                 (* "NEW AD: ..." *)
| LogImageMissing (title : pystr)   (* "Image not found for item: ..." *)
| LogCardError (e : exn)        (* "Error processing a product card" *)
| LogNoNewAds
| LogFound (n : nat)
| LogCsv (ads : list ad)            (* "Results saved to ..." *)
| LogNothingToSend                  (* "No new ads found. No email ..." *)
| MailSent (ads : list ad)          (* "Alert email sent successfully." *)
| LogMailError (e : exn)            (* "Error sending email: ..." *)
| LogMailSkipped                    (* "send_email is False: ..." *)
| AppendSeen (item_id : pystr)      (* save_seen_ad(item_id) has returned *)
| LogUpdated (n : nat)
| LogTotal (n : nat)                (* "Total unique new ads ..." *)
| LogTimeout                        (* "Page took too long to load ..." *)
| LogUnexpected (e : exn)           (* "Unexpected error: ..." *)
| DiagnosticShot                    (* save_screenshot in an except clause
                                       has returned *)
| LogClosing.                       (* "Closing browser..." *)

End Data.

(** ** [extract_new_ads] *)

Module Extract.
Import Data.

(** [price_text.replace(EURO,'').replace('.','').replace(',','.').strip()
      .replace(NBSP,'')], the two named characters being U+20AC and
    U+00A0. *)
Definition normalize_price (price_text : pystr) : pystr :=
  replace [NBSP] []
    (strip (replace [44] [46] (replace [46] [] (replace [EURO] [] price_text)))).

(** [href.split('/')[-1]] *)
Definition item_id_of (href : pystr) : pystr := List.last (split 47 href) [].

(** [l[:n]] *)
Definition slice_to {A} (n : Z) (l : list A) : list A :=
  if (0 <=? n)%Z then firstn (Z.to_nat n) l
  else firstn (length l - Z.to_nat (- n)) l.

(** One card from [title = card.get_attribute("title")] to the end of the
    [try]: title, price and image of a card that passed the dedup gate.
    [Ok None] is [continue]; [Ok (Some (a, w))] reaches [new_ads.append],
    [w] telling whether the missing image was logged; [Raise e] goes to
    [except Exception]. *)
Definition resolve (cfg : config) (extracted_at : pystr) (c : card)
    (hr item_id : pystr) : res (option (ad * bool)) :=
  t ← title_attr c;
  let priced (title : pystr) : res (option (ad * bool)) :=
    pt ← price_text c;
    match float (normalize_price pt) with
    | None => Ok None
    | Some p =>
        let ad_details (img : option (option pystr)) :=
          {| id := item_id; title := title; price := p; link := hr;
             extracted_at_date := extracted_at; image_url := img;
             image_path := None |} in
        if default false (save_images cfg) then
          match img_src c with
          | Ok src => Ok (Some (ad_details (Some src), false))
          | Raise NoSuchElementException => Ok (Some (ad_details None, true))
          | Raise e => Raise e
          end
        else Ok (Some (ad_details None, false))
    end in
  match t with
  | Some (ch :: tl) => priced (ch :: tl)
  | _ =>
      match title_text c with
      | Ok txt => priced txt
      | Raise NoSuchElementException => Ok None
      | Raise e => Raise e
      end
  end.

(** The body of the [try] of one card. *)
Definition card_body (seen_ads : gset pystr) (cfg : config)
    (extracted_at : pystr) (c : card) : res (option (ad * bool)) :=
  h ← href c;
  match h with
  | None | Some [] => Ok None
  | Some hr =>
      let item_id := item_id_of hr in
      if bool_decide (item_id ∈ seen_ads) then Ok None
      else resolve cfg extracted_at c hr item_id
  end.

(** The [for] loop: the records appended and the lines logged. *)
Fixpoint extract_cards (seen_ads : gset pystr) (cfg : config)
    (extracted_at : pystr) (cards : list card) : list ad * list event :=
  match cards with
  | [] => ([], [])
  | c :: cards' =>
      let '(ads, evs) := extract_cards seen_ads cfg extracted_at cards' in
      match card_body seen_ads cfg extracted_at c with
      | Ok (Some (a, warned)) =>
          (a :: ads,
           (if warned : bool then [LogImageMissing (title a)] else [])
             ++ LogNewAd a :: evs)
      | Ok None => (ads, evs)
      | Raise e => (ads, LogCardError e :: evs)
      end
  end.

Definition extract_new_ads_logged (product_cards : list card)
    (seen_ads : gset pystr) (cfg : config) (extracted_at : pystr)
  : list ad * list event :=
  extract_cards seen_ads cfg extracted_at
    (slice_to (default 40%Z (max_results cfg)) product_cards).

Definition extract_new_ads (product_cards : list card)
    (seen_ads : gset pystr) (cfg : config) (extracted_at : pystr) : list ad :=
  fst (extract_new_ads_logged product_cards seen_ads cfg extracted_at).

(** The record a card contributes to [new_ads], if any. *)
Definition accepted (seen_ads : gset pystr) (cfg : config)
    (extracted_at : pystr) (c : card) : option ad :=
  match card_body seen_ads cfg extracted_at c with
  | Ok (Some (a, _)) => Some a
  | _ => None
  end.

(** The id a card with a link stands for: the trailing path segment. *)
Definition card_id (c : card) : option pystr :=
  match href c with
  | Ok (Some (ch :: tl)) => Some (item_id_of (ch :: tl))
  | _ => None
  end.

End Extract.

(** ** The seen-ads file *)

Module Registry.

(** Text-mode reading turns every line ending into a line feed. *)
Fixpoint universal_newlines (s : pystr) : pystr :=
  match s with
  | 13 :: 10 :: s' => 10 :: universal_newlines s'
  | 13 :: s' => 10 :: universal_newlines s'
  | c :: s' => c :: universal_newlines s'
  | [] => []
  end.

(** The lines iterating over the file yields, without their line feed. *)
Definition lines (txt : pystr) : list pystr :=
  let segs := split 10 (universal_newlines txt) in
  match List.last segs [] with
  | [] => removelast segs
  | _ :: _ => segs
  end.

(** The file [data/seen_ads.txt]: [None] when it does not exist. *)
Definition load_seen_ads (file : option pystr) : gset pystr :=
  match file with
  | None => ∅
  | Some txt => list_to_set (map strip (lines txt))
  end.

Definition save_seen_ad (item_id : pystr) (file : option pystr)
  : option pystr :=
  Some (default [] file ++ item_id ++ [10]).

(** What a call of [save_seen_ad] that raises leaves.  When [open] raised,
    the file is as it was ([reached = None]); otherwise the file exists, and
    holds what it held followed by the first [n] characters of the line. *)
Definition torn_save (item_id : pystr) (reached : option nat)
    (file : option pystr) : option pystr :=
  match reached with
  | None => file
  | Some n => Some (default [] file ++ firstn n (item_id ++ [10]))
  end.

(** The file after [save_seen_ad] was called on each id in turn. *)
Definition append_ids (ids : list pystr) (file : option pystr)
  : option pystr :=
  fold_left (fun f i => save_seen_ad i f) ids file.

(** The file after the calls of [save_seen_ad] on [ids] of which the first
    [j] returned and the next one raised. *)
Definition torn_append (ids : list pystr) (j : nat) (reached : option nat)
    (file : option pystr) : option pystr :=
  torn_save (nth j ids []) reached (append_ids (firstn j ids) file).

(** An id that reading the file gives back as written: no white space at
    either end and no line break inside. *)
Definition clean (item_id : pystr) : Prop :=
  strip item_id = item_id /\ (10 ∉ item_id) /\ (13 ∉ item_id).

(** A file that is absent, empty, or ends with a line feed, as every file
    that only [save_seen_ad] wrote does. *)
Definition well_formed (file : option pystr) : Prop :=
  match file with
  | None => True
  | Some txt => txt = [] \/ exists body, txt = body ++ [10]
  end.

End Registry.

(** ** [send_email_alert] and [main] *)

Module Run.
Import Data Extract Registry.

(** What [main] can change and what can be seen of it. *)
Record world := { seen_file : option pystr; trace : list event }.

(** A statement: from a world it returns or raises, and leaves a world.
    What was done before an exception stays done. *)
Definition M (A : Type) : Type := world -> res A * world.

#[global] Instance M_ret : MRet M := fun A a w => (Ok a, w).
#[global] Instance M_bind : MBind M := fun A B k m w =>
  match m w with
  | (Ok a, w') => k a w'
  | (Raise e, w') => (Raise e, w')
  end.

Definition lift {A} (r : res A) : M A := fun w => (r, w).

Definition emit (evs : list event) : M unit := fun w =>
  (Ok tt, {| seen_file := seen_file w; trace := trace w ++ evs |}).

(** [load_seen_ads()] on the file as it is now; [reading] is [Raise e] when
    opening or reading the file raises. *)
Definition load_seen (reading : res unit) : M (gset pystr) := fun w =>
  match reading with
  | Ok _ =>
      (Ok (load_seen_ads (seen_file w)),
       {| seen_file := seen_file w; trace := trace w ++ [LoadSeen] |})
  | Raise e => (Raise e, w)
  end.

(** How a call of [save_seen_ad] ends: it returns, or it raises with the
    file left as [torn_save] says. *)
Inductive stored :=
| Written
| Failed (e : exn) (reached : option nat).

(** [save_seen_ad(item_id)] *)
Definition save_seen (answer : stored) (item_id : pystr) : M unit := fun w =>
  match answer with
  | Written =>
      (Ok tt, {| seen_file := save_seen_ad item_id (seen_file w);
                 trace := trace w ++ [AppendSeen item_id] |})
  | Failed e reached =>
      (Raise e, {| seen_file := torn_save item_id reached (seen_file w);
                   trace := trace w |})
  end.

(** [for ad in new_ads: save_seen_ad(ad['id'])], the calls before it being
    [k] in number; [store j] is how the call number [j] ends. *)
Fixpoint save_all (store : nat -> stored) (k : nat) (new_ads : list ad)
  : M unit :=
  match new_ads with
  | [] => mret tt
  | a :: rest => save_seen (store k) (id a);; save_all store (S k) rest
  end.

(** What the browser, the network and the disk answer during the session
    of one search term, step by step. *)
Record session := {
  now : pystr;              (* time.strftime(...) in extract_new_ads *)
  url : res pystr;          (* the f-strings that build the URL, see
                               [Search.search_url]; a missing key raises *)
  navigate : res unit;      (* driver.get(url) *)
  consent : res unit;       (* WebDriverWait(...).until(...).click() *)
  expand : res unit;        (* load_all_results(driver, ...): it returns
                               nothing; its loop is [Expand.loop] *)
  capture : res unit;       (* driver.save_screenshot(...) *)
  reading : res unit;       (* opening and reading the file in
                               load_seen_ads *)
  rendered : res (list card);   (* find_elements in extract_new_ads *)
  downloads : res (list (option pystr));
      (* download_images: per record with an image_url, the path written
         or None when the request failed *)
  export : res unit;        (* the DataFrame and to_csv *)
  compose : res unit;       (* send_email_alert up to its try block *)
  smtp : res unit;          (* the SMTP dialogue inside the try block *)
  store : nat -> stored     (* the calls of save_seen_ad, counted from 0 *)
}.

(** [download_images(new_ads)]: a fetched image adds [image_path]. *)
Fixpoint download_images (new_ads : list ad) (got : list (option pystr))
  : list ad :=
  match new_ads with
  | [] => []
  | a :: rest =>
      match image_url a, got with
      | Some _, g :: got' =>
          {| id := id a; title := title a; price := price a; link := link a;
             extracted_at_date := extracted_at_date a;
             image_url := image_url a; image_path := g |}
            :: download_images rest got'
      | _, _ => a :: download_images rest got
      end
  end.

Definition send_email_alert (new_ads : list ad) (s : session) : M unit :=
  match new_ads with
  | [] => emit [LogNothingToSend]
  | _ :: _ =>
      lift (compose s);;
      match smtp s with
      | Ok _ => emit [MailSent new_ads]
      | Raise e => emit [LogMailError e]
      end
  end.

(** The body of [for search_term in search_terms] from [if not new_ads] on,
    [extract_new_ads] having returned [new_ads]; it returns [all_new_ads]
    as the iteration leaves it. *)
Definition batch_body (cfg : config) (s : session)
    (all_new_ads new_ads : list ad) : M (list ad) :=
  match new_ads with
  | [] => emit [LogNoNewAds];; mret all_new_ads
  | _ :: _ =>
      emit [LogFound (length new_ads)];;
      new_ads ← (if default false (save_images cfg)
                 then got ← lift (downloads s);
                      mret (download_images new_ads got)
                 else mret new_ads);
      lift (export s);;
      emit [LogCsv new_ads];;
      (if default true (send_email cfg) then send_email_alert new_ads s
       else emit [LogMailSkipped]);;
      save_all (store s) 0 new_ads;;
      emit [LogUpdated (length new_ads)];;
      mret (all_new_ads ++ new_ads)
  end.

(** The body of [for search_term in search_terms]. *)
Definition session_body (cfg : config) (s : session) (all_new_ads : list ad)
  : M (list ad) :=
  emit [LogSearching];;
  u ← lift (url s);
  emit [LogNavigating u];;
  lift (navigate s);;
  match consent s with
  | Ok _ => emit [LogCookies true]
  | Raise TimeoutException => emit [LogCookies false]
  | Raise e => lift (Raise e)
  end;;
  lift (expand s);;
  lift (capture s);;
  emit [LogScreenshot];;
  seen_ads ← load_seen (reading s);
  product_cards ← lift (rendered s);
  let '(new_ads, logged) :=
    extract_new_ads_logged product_cards seen_ads cfg (now s) in
  emit logged;;
  batch_body cfg s all_new_ads new_ads.

(** The [for] loop of [main]: an exception leaves it at once. *)
Fixpoint run_sessions (cfg : config) (terms : list session)
    (all_new_ads : list ad) : M (list ad) :=
  match terms with
  | [] => mret all_new_ads
  | s :: terms' =>
      all_new_ads' ← session_body cfg s all_new_ads;
      run_sessions cfg terms' all_new_ads'
  end.

(** [d[k] = v] on a dictionary kept in insertion order. *)
Fixpoint dict_set (k : pystr) (v : ad) (d : list (pystr * ad))
  : list (pystr * ad) :=
  match d with
  | [] => [(k, v)]
  | (k', v') :: d' =>
      if bool_decide (k = k') then (k, v) :: d'
      else (k', v') :: dict_set k v d'
  end.

(** [list({ad['id']: ad for ad in all_new_ads}.values())] *)
Definition unique_ads (all_new_ads : list ad) : list ad :=
  map snd (fold_left (fun d a => dict_set (id a) a d) all_new_ads []).

(** How [main] leaves its [try]. *)
Inductive outcome :=
| Completed (unique : list ad)
| TimedOut
| Unexpected (e : exn).

(** What the browser answers once the loop is left. *)
Record closing := {
  diagnostic : res unit;   (* driver.save_screenshot(...) in an except
                              clause *)
  quit : res unit          (* driver.quit() in the finally clause *)
}.

(** The [except] clause that catches [e]: its log line and the capture. *)
Definition handler (e : exn) (c : closing) : M unit :=
  emit [match e with
        | TimeoutException => LogTimeout
        | _ => LogUnexpected e
        end];;
  lift (diagnostic c);;
  emit [DiagnosticShot].

(** [main()] from the [try] on, one [session] per search term.  It returns
    how the [try] was left, or raises: an exception of an [except] clause
    passes through the [finally] clause, and one of the [finally] clause
    replaces it. *)
Definition main (cfg : config) (terms : list session) (c : closing)
  : M outcome := fun w =>
  let '(r, w1) := run_sessions cfg terms [] w in
  let '(o, w2) :=
    match r with
    | Ok all_new_ads =>
        let unique := unique_ads all_new_ads in
        (Ok (Completed unique),
         {| seen_file := seen_file w1;
            trace := trace w1 ++ [LogTotal (length unique)] |})
    | Raise e =>
        match handler e c w1 with
        | (Ok _, w') =>
            (Ok (match e with
                 | TimeoutException => TimedOut
                 | _ => Unexpected e
                 end), w')
        | (Raise e', w') => (Raise e', w')
        end
    end in
  (_ ← quit c; o,
   {| seen_file := seen_file w2; trace := trace w2 ++ [LogClosing] |}).

(** The mail line of a session that gets to the mail. *)
Definition mail_event (cfg : config) (s : session) (batch : list ad) : event :=
  if default true (send_email cfg) then
    match smtp s with
    | Ok _ => MailSent batch
    | Raise e => LogMailError e
    end
  else LogMailSkipped.

(** How many times a stretch of the trace reads the seen-ads file. *)
Fixpoint loads (evs : list event) : nat :=
  match evs with
  | [] => 0
  | LoadSeen :: evs' => S (loads evs')
  | _ :: evs' => loads evs'
  end.

(** The lines of a session up to its reading of the seen-ads file. *)
Definition opening (s : session) (u : pystr) : list event :=
  [LogSearching; LogNavigating u;
   LogCookies (match consent s with Ok _ => true | _ => false end);
   LogScreenshot; LoadSeen].

(** The lines of a batch that is delivered. *)
Definition delivery (cfg : config) (s : session) (new_ads batch : list ad)
  : list event :=
  [LogFound (length new_ads); LogCsv batch; mail_event cfg s batch]
    ++ map AppendSeen (map id new_ads) ++ [LogUpdated (length new_ads)].

End Run.

(** ** Sample pages *)

Module Samples.
Import Data Extract Registry Run.

(** A card with a link, a title attribute, a price text and no image. *)
Definition listing (link title_ price_ : pystr) : card :=
  {| href := Ok (Some link);
     title_attr := Ok (Some title_);
     title_text := Raise NoSuchElementException;
     price_text := Ok price_;
     img_src := Raise NoSuchElementException |}.

Definition stamp : pystr := py "2024-05-01 10:00:00".

Definition defaults : config :=
  {| max_results := None; save_images := None; send_email := None |}.

Definition bike : card :=
  listing (py "https://es.wallapop.com/item/bici-123") (py "Bici")
          (py "1.234,56 " ++ [EURO]).

(** Another card whose link ends in the same path segment. *)
Definition bike_again : card :=
  listing (py "https://es.wallapop.com/app/bici-123") (py "Bici de monte")
          (py "750 " ++ [EURO]).

Definition refund : card :=
  listing (py "https://es.wallapop.com/item/vale-9") (py "Vale")
          (py "-5 " ++ [EURO]).

Definition priceless : card :=
  listing (py "https://es.wallapop.com/item/joya-1") (py "Joya")
          (py "inf " ++ [EURO]).

Definition on_request : card :=
  listing (py "https://es.wallapop.com/item/casa-2") (py "Casa")
          (py "A consultar").

(** No title attribute, and a title element without text. *)
Definition untitled : card :=
  {| href := Ok (Some (py "https://es.wallapop.com/item/mesa-7"));
     title_attr := Ok None;
     title_text := Ok [];
     price_text := Ok (py "20 " ++ [EURO]);
     img_src := Raise NoSuchElementException |}.

Definition refund_ad : ad :=
  {| id := py "vale-9"; title := py "Vale"; price := Finite true 5 0;
     link := py "https://es.wallapop.com/item/vale-9";
     extracted_at_date := stamp; image_url := None; image_path := None |}.

Definition bike_ad : ad :=
  {| id := py "bici-123"; title := py "Bici";
     price := Finite false 123456 (-2);
     link := py "https://es.wallapop.com/item/bici-123";
     extracted_at_date := stamp; image_url := None; image_path := None |}.

(** The URL of the sample searches. *)
Definition address : pystr :=
  py "https://es.wallapop.com/app/search?keywords=bici&min_sale_price=10&max_sale_price=900&order_by=newest".

(** A disk on which every append succeeds. *)
Definition sound : nat -> stored := fun _ => Written.

(** A session in which every step succeeds on a page showing [cards]; no
    cookie banner appears. *)
Definition visit (cards : list card) : session :=
  {| now := stamp; url := Ok address; navigate := Ok tt;
     consent := Raise TimeoutException;
     expand := Ok tt; capture := Ok tt; reading := Ok tt;
     rendered := Ok cards;
     downloads := Ok []; export := Ok tt; compose := Ok tt; smtp := Ok tt;
     store := sound |}.

(** A session whose navigation raises. *)
Definition unreachable (cards : list card) : session :=
  {| now := stamp; url := Ok address; navigate := Raise OtherException;
     consent := Raise TimeoutException;
     expand := Ok tt; capture := Ok tt; reading := Ok tt;
     rendered := Ok cards;
     downloads := Ok []; export := Ok tt; compose := Ok tt; smtp := Ok tt;
     store := sound |}.

(** A session whose export raises after the extraction. *)
Definition unwritable (cards : list card) : session :=
  {| now := stamp; url := Ok address; navigate := Ok tt;
     consent := Raise TimeoutException;
     expand := Ok tt; capture := Ok tt; reading := Ok tt;
     rendered := Ok cards;
     downloads := Ok []; export := Raise OtherException;
     compose := Ok tt; smtp := Ok tt; store := sound |}.

(** A session whose SMTP dialogue raises. *)
Definition undelivered (cards : list card) : session :=
  {| now := stamp; url := Ok address; navigate := Ok tt;
     consent := Raise TimeoutException;
     expand := Ok tt; capture := Ok tt; reading := Ok tt;
     rendered := Ok cards;
     downloads := Ok []; export := Ok tt; compose := Ok tt;
     smtp := Raise OtherException; store := sound |}.

(** A session whose second append finds the disk full after three
    characters of the line. *)
Definition full_disk (cards : list card) : session :=
  {| now := stamp; url := Ok address; navigate := Ok tt;
     consent := Raise TimeoutException;
     expand := Ok tt; capture := Ok tt; reading := Ok tt;
     rendered := Ok cards;
     downloads := Ok []; export := Ok tt; compose := Ok tt; smtp := Ok tt;
     store := fun k => match k with
                       | 1%nat => Failed OtherException (Some 3%nat)
                       | _ => Written
                       end |}.

(** A browser that answers to the end, and one that is gone. *)
Definition alive : closing := {| diagnostic := Ok tt; quit := Ok tt |}.
Definition gone : closing :=
  {| diagnostic := Raise OtherException; quit := Raise OtherException |}.

(** A first run: no seen-ads file yet, nothing logged. *)
Definition blank : world := {| seen_file := None; trace := [] |}.

End Samples.

(** ** The state of [load_all_results] between iterations *)

Module ExpandState.

(** [last_count] once iteration [j] is over: [0] before the first. *)
Definition last_count_after (counts : nat -> nat) (j : nat) : nat :=
  match j with
  | O => 0%nat
  | S _ => counts j
  end.

End ExpandState.

(** ** [click_load_more] *)

Module Click.

(** [needle in hay] *)
Fixpoint contains (needle hay : pystr) : bool :=
  starts_with needle hay ||
  match hay with
  | [] => false
  | _ :: hay' => contains needle hay'
  end.

Definition A_ACUTE : N := 225.   (* U+00E1 *)

(** "Cargar mas", "Ver mas productos", "Ver mas", "Ver mas resultados",
    each with U+00E1 for the accented letter. *)
Definition button_texts : list pystr :=
  [py "Cargar m" ++ [A_ACUTE] ++ py "s";
   py "Ver m" ++ [A_ACUTE] ++ py "s productos";
   py "Ver m" ++ [A_ACUTE] ++ py "s";
   py "Ver m" ++ [A_ACUTE] ++ py "s resultados"].

(** A [walla-button] element of the page.  Printing the line with its
    text raises when the text cannot be encoded on the standard output. *)
Record walla_button := {
  text : res (option pystr);   (* walla_btn.get_attribute("text") *)
  press : res unit;  (* execute_script('...click()', walla_btn) *)
  announce : res unit   (* print(f"Clicked fallback walla-button: ...") *)
}.

(** What the page answers to the calls of [click_load_more]. *)
Record page := {
  find_load_more : res unit;   (* find_element("#btn-load-more") *)
  press_load_more : res unit;  (* execute_script('...click()', host) *)
  walla_buttons : res (list walla_button)
                               (* find_elements("walla-button") *)
}.

(** A click that returned. *)
Inductive clicked :=
| ById
| ByText (btn_text : pystr).

(** [btn_text and any(txt in btn_text for txt in button_texts)] *)
Definition wanted (btn_text : option pystr) : bool :=
  match btn_text with
  | Some (c :: t) => existsb (fun txt => contains txt (c :: t)) button_texts
  | _ => false
  end.

(** The [for walla_btn in walla_buttons] loop and the [return False] after
    it: the value returned and the clicks that returned.  The [print] that
    follows a click is inside the [try]: when it raises, the loop goes on
    to the next button. *)
Fixpoint scan (btns : list walla_button) : bool * list clicked :=
  match btns with
  | [] => (false, [])
  | b :: btns' =>
      match text b with
      | Ok btn_text =>
          if wanted btn_text then
            match press b with
            | Ok _ =>
                match announce b with
                | Ok _ => (true, [ByText (default [] btn_text)])
                | Raise _ =>
                    let '(found, clicks) := scan btns' in
                    (found, ByText (default [] btn_text) :: clicks)
                end
            | Raise _ => scan btns'
            end
          else scan btns'
      | Raise _ => scan btns'
      end
  end.

(** A button the loop clicks if it gets to it: its text can be read and
    is wanted, and the click returns. *)
Definition clickable (b : walla_button) : bool :=
  match text b, press b with
  | Ok btn_text, Ok _ => wanted btn_text
  | _, _ => false
  end.

(** A button at which the loop returns [True] if it gets to it: it is
    clicked and the line about it is printed. *)
Definition settles (b : walla_button) : bool :=
  clickable b && match announce b with Ok _ => true | Raise _ => false end.

(** The text of a button, where it can be read. *)
Definition label (b : walla_button) : pystr :=
  match text b with
  | Ok (Some t) => t
  | _ => []
  end.

(** The clicks the loop makes on buttons it goes through. *)
Definition clicks_on (btns : list walla_button) : list clicked :=
  map (fun b => ByText (label b)) (List.filter clickable btns).

(** [click_load_more(driver)]: the value returned and the clicks that
    returned, or the exception that leaves the function.  An exception of
    the first [try] body other than [NoSuchElementException] is caught by
    [except Exception]; one raised in the [except NoSuchElementException]
    clause, by [find_elements], is not.  The line printed after the click
    by id is a fixed ASCII text, and the line of the last clause is taken
    to print as well. *)
Definition click_load_more (p : page) : res (bool * list clicked) :=
  match (_ ← find_load_more p; press_load_more p) with
  | Ok _ => Ok (true, [ById])
  | Raise NoSuchElementException =>
      btns ← walla_buttons p; Ok (scan btns)
  | Raise _ => Ok (false, [])
  end.

End Click.

(** ** The search URL and the names of the files written *)

Module Search.
Import Data.

(** The keys of [config.json] that shape the search URL. *)
Record filters := {
  min_price : option Z;
  max_price : option Z;
  location : option pystr;
  radius_km : option Z
}.

Fixpoint digits (u : Decimal.uint) : pystr :=
  match u with
  | Decimal.Nil => []
  | Decimal.D0 u' => 48 :: digits u'
  | Decimal.D1 u' => 49 :: digits u'
  | Decimal.D2 u' => 50 :: digits u'
  | Decimal.D3 u' => 51 :: digits u'
  | Decimal.D4 u' => 52 :: digits u'
  | Decimal.D5 u' => 53 :: digits u'
  | Decimal.D6 u' => 54 :: digits u'
  | Decimal.D7 u' => 55 :: digits u'
  | Decimal.D8 u' => 56 :: digits u'
  | Decimal.D9 u' => 57 :: digits u'
  end.

(** An [int] inside an f-string. *)
Definition str_int (z : Z) : pystr :=
  match Z.to_int z with
  | Decimal.Pos u => digits u
  | Decimal.Neg u => 45 :: digits u
  end.

(** [locations.get(key)] *)
Definition locations (key : pystr) : option pystr :=
  if eqb_str key (py "madrid")
  then Some (py "latitude=40.4168&longitude=-3.7038")
  else if eqb_str key (py "barcelona")
  then Some (py "latitude=41.3851&longitude=2.1734")
  else None.

(** [locations.get(name.lower())].  The two keys are ASCII lower-case
    letters without "k", and outside ASCII [str.lower] gives an ASCII
    character only for U+0130 (an "i" followed by U+0307) and for U+212A
    (a "k"): a name matches a key exactly when it has the letters of the
    key in either case, which lowering its ASCII capitals decides. *)
Definition lookup_location (name : pystr) : option pystr :=
  locations (map lower name).

Definition with_location (f : filters) (name : option pystr) : filters :=
  {| min_price := min_price f; max_price := max_price f;
     location := name; radius_km := radius_km f |}.

(** The URL [main] navigates to for one search term ([None]: neither
    [search_terms] nor [search_term] is configured).  A missing price
    bound is a [KeyError], a missing term an [AttributeError]. *)
Definition search_url (f : filters) (search_term : option pystr)
  : res pystr :=
  match search_term with
  | None => Raise OtherException
  | Some term =>
      let search_term_url := replace [32] [43] term in
      match min_price f, max_price f with
      | Some lo, Some hi =>
          let url :=
            py "https://es.wallapop.com/app/search?keywords="
              ++ search_term_url
              ++ py "&min_sale_price=" ++ str_int lo
              ++ py "&max_sale_price=" ++ str_int hi in
          let url :=
            match location f with
            | Some (c :: name) =>
                match lookup_location (c :: name) with
                | Some loc_str =>
                    let radius_m := (default 50 (radius_km f) * 1000)%Z in
                    url ++ py "&" ++ loc_str
                        ++ py "&distance=" ++ str_int radius_m
                | None => url
                end
            | _ => url
            end in
          Ok (url ++ py "&order_by=newest")
      | _, _ => Raise OtherException
      end
  end.

(** No blank in a text. *)
Definition no_blank (l : pystr) : bool := forallb (fun c => negb (c =? 32)) l.

Definition is_ascii_alnum (c : N) : bool :=
  is_digit c || ((65 <=? c) && (c <=? 90)) || ((97 <=? c) && (c <=? 122)).

(** [re.sub(r'[^a-zA-Z0-9]+', '_', s)] from a position on; [in_run] tells
    that the character before belongs to the run being replaced. *)
Fixpoint sub_non_alnum (s : pystr) (in_run : bool) : pystr :=
  match s with
  | [] => []
  | c :: s' =>
      if is_ascii_alnum c then c :: sub_non_alnum s' false
      else if in_run then sub_non_alnum s' true
      else 95 :: sub_non_alnum s' true
  end.

(** [clean_keyword = re.sub(r'[^a-zA-Z0-9]+', '_', search_term)] *)
Definition clean_keyword (search_term : pystr) : pystr :=
  sub_non_alnum search_term false.

(** [os.path.isabs(b)] on POSIX. *)
Definition isabs (b : pystr) : bool :=
  match b with
  | c :: _ => c =? 47
  | [] => false
  end.

(** [os.path.join(a, b)] on POSIX. *)
Definition path_join (a b : pystr) : pystr :=
  if isabs b then b
  else match a with
       | [] => b
       | _ :: _ => if List.last a 0 =? 47 then a ++ b else a ++ 47 :: b
       end.

Definition SCREENSHOTS_DIR : pystr := py "data/screenshots".
Definition IMAGES_DIR : pystr := py "product_images".

(** [screenshot_path] in [main], [timestamp] being what
    [time.strftime("%Y%m%d-%H%M%S")] returned. *)
Definition screenshot_path (search_term timestamp : pystr) : pystr :=
  path_join SCREENSHOTS_DIR
    (py "wallapop_search_" ++ clean_keyword search_term ++ py "_"
       ++ timestamp ++ py "_screenshot.png").

Section ImageNames.
(** [str.isalnum] on one character, a table of the Unicode database. *)
Variable isalnum : N -> bool.

(** ["".join(c for c in title if c.isalnum() or c in (' ', '_')).rstrip()] *)
Definition safe_title (title : pystr) : pystr :=
  rstrip
    (List.filter (fun c => isalnum c || (c =? 32) || (c =? 95)) title).

(** [image_path] in [download_images]. *)
Definition image_file (a : ad) : pystr :=
  path_join IMAGES_DIR
    (id a ++ py "_" ++ firstn 30 (safe_title (title a)) ++ py ".jpg").
End ImageNames.

End Search.

(** ** Views of cards and of the log *)

Module Views.
Import Data.

(** The link of a card that has one. *)
Definition card_link (c : card) : option pystr :=
  match href c with
  | Ok (Some (ch :: tl)) => Some (ch :: tl)
  | _ => None
  end.

(** The card [c] with the image taken away: looking it up raises. *)
Definition without_image (c : card) : card :=
  {| href := href c; title_attr := title_attr c; title_text := title_text c;
     price_text := price_text c; img_src := Raise NoSuchElementException |}.

(** The record [a] without the [image_url] key. *)
Definition bare (a : ad) : ad :=
  {| id := id a; title := title a; price := price a; link := link a;
     extracted_at_date := extracted_at_date a; image_url := None;
     image_path := image_path a |}.

(** The records the "NEW AD" lines of a log speak of. *)
Definition logged_ads (evs : list event) : list ad :=
  omap (fun e => match e with LogNewAd a => Some a | _ => None end) evs.

End Views.

(** ** Sessions that differ in one answer *)

Module Variants.
Import Data Run.

Definition with_consent (s : session) (r : res unit) : session :=
  {| now := now s; url := url s; navigate := navigate s; consent := r;
     expand := expand s; capture := capture s; reading := reading s;
     rendered := rendered s; downloads := downloads s; export := export s;
     compose := compose s; smtp := smtp s; store := store s |}.

Definition with_mail (s : session) (c m : res unit) : session :=
  {| now := now s; url := url s; navigate := navigate s;
     consent := consent s; expand := expand s; capture := capture s;
     reading := reading s; rendered := rendered s; downloads := downloads s;
     export := export s; compose := c; smtp := m; store := store s |}.

Definition with_downloads (s : session) (d : res (list (option pystr)))
  : session :=
  {| now := now s; url := url s; navigate := navigate s;
     consent := consent s; expand := expand s; capture := capture s;
     reading := reading s; rendered := rendered s; downloads := d;
     export := export s; compose := compose s; smtp := smtp s;
     store := store s |}.

(** The body of the loop from [time.sleep(2)], after the cookie step, on. *)
Definition after_consent (cfg : config) (s : session) (all_new_ads : list ad)
  : M (list ad) :=
  lift (expand s);;
  lift (capture s);;
  emit [LogScreenshot];;
  seen_ads ← load_seen (reading s);
  product_cards ← lift (rendered s);
  let '(new_ads, logged) :=
    Extract.extract_new_ads_logged product_cards seen_ads cfg (now s) in
  emit logged;;
  batch_body cfg s all_new_ads new_ads.

(** A statement that only adds to the log: what it returns, what it does
    to the file and what it logs do not depend on what was logged before. *)
Definition blind {A} (m : M A) : Prop :=
  forall f t,
    m {| seen_file := f; trace := t |}
    = ((m {| seen_file := f; trace := [] |}).1,
       {| seen_file := seen_file (m {| seen_file := f; trace := [] |}).2;
          trace := t ++ trace (m {| seen_file := f; trace := [] |}).2 |}).

(** A log line with what it says about the cookie banner left out. *)
Definition hush (e : event) : event :=
  match e with
  | LogCookies _ => LogCookies true
  | _ => e
  end.

(** [v] is the last record of [l] with id [k]. *)
Definition last_with_id (l : list ad) (k : pystr) (v : ad) : Prop :=
  exists l1 l2, l = l1 ++ v :: l2 /\ id v = k /\ (k ∉ map id l2).

End Variants.

(** ** More sample pages *)

Module MoreSamples.
Import Data Extract Registry Run Samples Click Search.

(** A page without the button addressed by id, whose second
    [walla-button] carries a known label. *)
Definition fallback_page : page :=
  {| find_load_more := Raise NoSuchElementException;
     press_load_more := Ok tt;
     walla_buttons :=
       Ok [ {| text := Ok (Some (py "Filtros")); press := Ok tt;
               announce := Ok tt |};
            {| text := Ok (Some (py "Ver m" ++ [A_ACUTE] ++ py "s productos"));
               press := Ok tt; announce := Ok tt |};
            {| text := Ok (Some (py "Cargar m" ++ [A_ACUTE] ++ py "s"));
               press := Ok tt; announce := Ok tt |} ] |}.

(** The same page on a standard output that cannot encode U+00E1: every
    click is made and the call answers [False]. *)
Definition ascii_console_page : page :=
  {| find_load_more := Raise NoSuchElementException;
     press_load_more := Ok tt;
     walla_buttons :=
       Ok [ {| text := Ok (Some (py "Filtros")); press := Ok tt;
               announce := Ok tt |};
            {| text := Ok (Some (py "Ver m" ++ [A_ACUTE] ++ py "s productos"));
               press := Ok tt; announce := Raise OtherException |};
            {| text := Ok (Some (py "Cargar m" ++ [A_ACUTE] ++ py "s"));
               press := Ok tt; announce := Raise OtherException |} ] |}.

Definition madrid_bikes : filters :=
  {| min_price := Some 200%Z; max_price := Some 750%Z;
     location := Some (py "Madrid"); radius_km := None |}.

(** [isalnum] on ASCII; no other character counts. *)
Definition ascii_alnum (c : N) : bool := is_ascii_alnum c.

(** A card without price element: looking it up raises. *)
Definition unpriced : card :=
  {| href := Ok (Some (py "https://es.wallapop.com/item/silla-4"));
     title_attr := Ok (Some (py "Silla"));
     title_text := Raise NoSuchElementException;
     price_text := Raise NoSuchElementException;
     img_src := Raise NoSuchElementException |}.

(** The record of [bike_again]. *)
Definition mountain_bike_ad : ad :=
  {| id := py "bici-123"; title := py "Bici de monte";
     price := Finite false 750 0;
     link := py "https://es.wallapop.com/app/bici-123";
     extracted_at_date := stamp; image_url := None; image_path := None |}.

(** A session that finds nothing new: the page shows a card the file
    already lists. *)
Definition seen_bike : world :=
  {| seen_file := Some (py "bici-123" ++ [10]); trace := [] |}.

End MoreSamples.

(** * Properties *)

(** ** Built-ins on sample texts *)

Example float_samples :
  map (fun s => float (py s))
    ["1234.56"; "750"; " 750 "; "-5"; "+5"; "inf"; "-inf"; "Infinity";
     "iNf"; "nan"; "+nan"; "1e5"; "1E+5"; "1e_5"; "1_000"; "1__0"; "_1";
     "1_"; "1_.5"; "1._5"; ".5"; "5."; "."; "e5"; ""; "- 5"; "--5"; "+-5";
     "1.5e"; "1.e5"; ".e5"; "0x10"; "infinit"; "nane"; "1,5"; "5.5.5";
     "1_0.5_5e1_0"; "in f"; "-.5"; "+."]%string
  = [Some (Finite false 123456 (-2)); Some (Finite false 750 0);
     Some (Finite false 750 0); Some (Finite true 5 0);
     Some (Finite false 5 0); Some (Inf false); Some (Inf true);
     Some (Inf false); Some (Inf false); Some NaN; Some NaN;
     Some (Finite false 1 5); Some (Finite false 1 5); None;
     Some (Finite false 1000 0); None; None; None; None; None;
     Some (Finite false 5 (-1)); Some (Finite false 5 0); None; None; None;
     None; None; None; None; Some (Finite false 1 5); None; None; None;
     None; None; None; Some (Finite false 1055 8); None;
     Some (Finite true 5 (-1)); None].
Proof. vm_compute. reflexivity. Qed.

(** A decimal too large for a double is read as an infinity; the largest
    double is the last finite value. *)
Example float_overflow :
  map (fun s => float (py s))
    ["1e400"; "-1e400"; "1.7976931348623158e308"; "1.7976931348623159e308";
     "1e-400"]%string
  = [Some (Inf false); Some (Inf true);
     Some (Finite false 17976931348623158 292); Some (Inf false);
     Some (Finite false 1 (-400))].
Proof. vm_compute. reflexivity. Qed.

(** ** Convergence of [load_all_results] *)

Section ExpandFacts.
Import Expand.
#[local] Open Scope nat_scope.
Variable counts : nat -> nat.
Variable max_results : Z.

#[local] Abbreviation loop := (Expand.loop counts max_results).

(** The first test of an iteration is the target test. *)
Lemma loop_target fuel i last attempts :
  (max_results <= Z.of_nat (counts i))%Z ->
  loop (S fuel) i last attempts
  = Some {| why := Reached; iterations := i; rendered := counts i |}.
Proof.
  intros Hge. simpl.
  destruct (Z.leb_spec max_results (Z.of_nat (counts i))); [reflexivity | lia].
Qed.

(** Once the count is the one of the previous iteration and stays so,
    the loop ends in [2 - attempts] iterations. *)
Lemma loop_flat i c attempts fuel :
  (forall j, i <= j -> counts j = c) ->
  attempts <= 1 -> 2 - attempts <= fuel ->
  exists r, loop fuel i c attempts = Some r
            /\ iterations r <= i + (1 - attempts).
Proof.
  intros Hflat Hatt Hfuel.
  destruct fuel as [|fuel]; [lia|].
  simpl. rewrite (Hflat i) by lia.
  destruct (Z.leb_spec max_results (Z.of_nat c)).
  { eexists; split; [reflexivity | simpl; lia]. }
  rewrite Nat.eqb_refl.
  destruct attempts as [|[|a]]; [| |lia].
  - (* one stall so far after this iteration *)
    simpl. destruct fuel as [|fuel]; [lia|].
    simpl. rewrite (Hflat (S i)) by lia.
    destruct (Z.leb_spec max_results (Z.of_nat c)); [lia|].
    rewrite Nat.eqb_refl. simpl.
    eexists; split; [reflexivity | simpl; lia].
  - simpl. eexists; split; [reflexivity | simpl; lia].
Qed.

(** From any iteration [i <= n] and any state the loop can be in, it has
    ended by iteration [n + 2] when the count no longer changes from
    iteration [n] on. *)
Lemma loop_bound n :
  (forall j, n <= j -> counts j = counts n) ->
  forall d i last attempts fuel,
    attempts <= 1 -> i + d = n -> d + 3 <= fuel ->
    exists r, loop fuel i last attempts = Some r /\ iterations r <= n + 2.
Proof.
  intros Hflat. induction d as [|d IH]; intros i last attempts fuel Hatt Hi Hfuel.
  - assert (i = n) by lia. subst i.
    destruct fuel as [|fuel]; [lia|].
    simpl.
    destruct (Z.leb_spec max_results (Z.of_nat (counts n))).
    { eexists; split; [reflexivity | simpl; lia]. }
    assert (Hnext : forall j, S n <= j -> counts j = counts n)
      by (intros j Hj; apply Hflat; lia).
    destruct (Nat.eqb_spec (counts n) last).
    + destruct attempts as [|[|a]]; [| |lia]; simpl.
      * destruct (loop_flat (S n) (counts n) 1 fuel Hnext) as (r & Hr & Hle);
          [lia | lia |].
        exists r. split; [exact Hr | lia].
      * eexists; split; [reflexivity | simpl; lia].
    + destruct (loop_flat (S n) (counts n) 0 fuel Hnext) as (r & Hr & Hle);
        [lia | lia |].
      exists r. split; [exact Hr | lia].
  - destruct fuel as [|fuel]; [lia|].
    simpl.
    destruct (Z.leb_spec max_results (Z.of_nat (counts i))).
    { eexists; split; [reflexivity | simpl; lia]. }
    destruct (Nat.eqb_spec (counts i) last).
    + destruct attempts as [|[|a]]; [| |lia]; simpl.
      * apply IH; lia.
      * eexists; split; [reflexivity | simpl; lia].
    + apply IH; lia.
Qed.

(** A count that never grows again from iteration [i] on, even if it
    shrinks, cannot keep the loop running: the count can shrink only so
    often, and between two shrinks two equal counts end the loop. *)
Lemma loop_settles c :
  forall i last attempts,
    (forall j, i <= j -> counts (S j) <= counts j) ->
    counts i <= c ->
    exists fuel r, loop fuel i last attempts = Some r.
Proof.
  induction c as [c IH] using lt_wf_ind. intros i last attempts Hdec Hc.
  (* a later iteration with a smaller count falls under the induction *)
  assert (Hsmaller : forall k last' a,
            i <= k -> counts k < counts i ->
            exists fuel r, loop fuel k last' a = Some r).
  { intros k last' a Hk Hlt. apply (IH (counts k)); [lia | | lia].
    intros j Hj. apply Hdec. lia. }
  assert (Hsame2 : counts (S i) = counts i ->
            exists fuel r, loop fuel (S (S i)) (counts (S i)) 1 = Some r).
  { intros E. pose proof (Hdec (S i) ltac:(lia)) as Hle.
    destruct (Nat.eq_dec (counts (S (S i))) (counts (S i))) as [E2|N2].
    - exists 1. simpl. rewrite E2, Nat.eqb_refl.
      destruct (max_results <=? Z.of_nat (counts (S i)))%Z; eauto.
    - apply Hsmaller; lia. }
  assert (Hnext : forall a,
            exists fuel r, loop fuel (S i) (counts i) a = Some r).
  { intros a. pose proof (Hdec i ltac:(lia)) as Hle.
    destruct (Nat.eq_dec (counts (S i)) (counts i)) as [E|N].
    - destruct a as [|a].
      + destruct (Hsame2 E) as (f & r & Hr). exists (S f). simpl.
        rewrite E, Nat.eqb_refl. rewrite E in Hr.
        destruct (max_results <=? Z.of_nat (counts i))%Z; eauto.
      + exists 1. simpl. rewrite E, Nat.eqb_refl.
        destruct (max_results <=? Z.of_nat (counts i))%Z; eauto.
    - apply Hsmaller; lia. }
  destruct (Hnext 0) as (f0 & r0 & H0). destruct (Hnext 1) as (f1 & r1 & H1).
  destruct (max_results <=? Z.of_nat (counts i))%Z eqn:Ht.
  { exists 1. simpl. rewrite Ht. eauto. }
  destruct (counts i =? last) eqn:Heq.
  - destruct attempts as [|a].
    + exists (S f1). simpl. rewrite Ht, Heq. eauto.
    + exists 1. simpl. rewrite Ht, Heq. eauto.
  - exists (S f0). simpl. rewrite Ht, Heq. eauto.
Qed.

End ExpandFacts.

(** C4. When the count of rendered cards no longer changes from iteration
    [n] on, [load_all_results] returns, and does so by iteration [n + 2]:
    at most two iterations after the count stopped growing.  At any
    iteration, whatever the stall counter, a count that has reached
    [max_results] ends the loop at once on the target branch, which is
    tested before the stall branch. *)
Theorem load_all_results_converges
    (counts : nat -> nat) (max_results : Z) (n fuel : nat) :
  (1 <= n)%nat ->
  (forall j, (n <= j)%nat -> counts j = counts n) ->
  (n + 2 <= fuel)%nat ->
  (exists r, Expand.load_all_results counts max_results fuel = Some r
             /\ (Expand.iterations r <= n + 2)%nat)
  /\ (forall i last attempts f,
        (max_results <= Z.of_nat (counts i))%Z ->
        Expand.loop counts max_results (S f) i last attempts
        = Some {| Expand.why := Expand.Reached; Expand.iterations := i;
                  Expand.rendered := counts i |}).
Proof.
  intros Hn Hflat Hfuel. split.
  - unfold Expand.load_all_results.
    apply (loop_bound counts max_results n Hflat (n - 1)%nat); lia.
  - intros i last attempts f Hge. apply loop_target. exact Hge.
Qed.

(** A page that shows one more card per iteration up to three, with a
    target of forty: the loop is over by the fifth iteration. *)
Lemma load_all_results_converges_witness :
  (exists r, Expand.load_all_results (fun i => Nat.min i 3) 40 5 = Some r
             /\ (Expand.iterations r <= 3 + 2)%nat)
  /\ (forall i last attempts f,
        (40 <= Z.of_nat (Nat.min i 3))%Z ->
        Expand.loop (fun i => Nat.min i 3) 40 (S f) i last attempts
        = Some {| Expand.why := Expand.Reached; Expand.iterations := i;
                  Expand.rendered := Nat.min i 3 |}).
Proof.
  apply (load_all_results_converges (fun i => Nat.min i 3) 40 3 5).
  - lia.
  - intros j Hj. lia.
  - lia.
Defined.

(** [load_all_results] returns on every page whose count, from some
    iteration on, never grows again. *)
Lemma load_all_results_returns (counts : nat -> nat) (max_results : Z) n :
  (forall j, (n <= j)%nat -> (counts (S j) <= counts j)%nat) ->
  exists fuel r, Expand.load_all_results counts max_results fuel = Some r.
Proof.
  intros Hdec. unfold Expand.load_all_results.
  assert (H : forall d i last attempts, (i + d = Nat.max n 1)%nat ->
            exists fuel r,
              Expand.loop counts max_results fuel i last attempts = Some r).
  { induction d as [|d IH]; intros i last attempts Hi.
    - apply (loop_settles counts max_results (counts i)); [|lia].
      intros j Hj. apply Hdec. lia.
    - destruct (IH (S i) (counts i) 0%nat ltac:(lia)) as (f0 & r0 & H0).
      destruct (IH (S i) (counts i) (S attempts) ltac:(lia)) as (f1 & r1 & H1).
      destruct (max_results <=? Z.of_nat (counts i))%Z eqn:Ht.
      { exists 1%nat. simpl. rewrite Ht. eauto. }
      destruct (counts i =? last)%nat eqn:Heq.
      + destruct attempts as [|a].
        * exists (S f1). simpl. rewrite Ht, Heq. eauto.
        * exists 1%nat. simpl. rewrite Ht, Heq. eauto.
      + exists (S f0). simpl. rewrite Ht, Heq. eauto. }
  apply (H (Nat.max n 1 - 1)%nat). lia.
Qed.

Example load_all_results_stalls :
  Expand.load_all_results (fun i => Nat.min i 3) 40 5
  = Some {| Expand.why := Expand.Exhausted; Expand.iterations := 5;
            Expand.rendered := 3 |}.
Proof. reflexivity. Qed.

Example load_all_results_target_first :
  Expand.load_all_results (fun _ => 5%nat) 5 1
  = Some {| Expand.why := Expand.Reached; Expand.iterations := 1;
            Expand.rendered := 5 |}.
Proof. reflexivity. Qed.

(** ** The extraction pass *)

Section ExtractFacts.
Import Data Extract.

Lemma split_nonempty sep s : split sep s <> [].
Proof.
  destruct s as [|c s]; simpl; [discriminate|].
  destruct (c =? sep)%N; [discriminate|].
  destruct (split sep s); discriminate.
Qed.

(** The records of a pass are the accepted cards, in card order. *)
Lemma extract_cards_fst seen cfg t cards :
  (extract_cards seen cfg t cards).1 = omap (accepted seen cfg t) cards.
Proof.
  induction cards as [|c cards IH]; [reflexivity|].
  cbn [extract_cards omap list_omap]. unfold accepted at 1.
  destruct (extract_cards seen cfg t cards) as [ads evs]. simpl in IH.
  destruct (card_body seen cfg t c) as [[[a w]|]|e]; simpl; congruence.
Qed.

Lemma extract_new_ads_omap cards seen cfg t :
  extract_new_ads cards seen cfg t
  = omap (accepted seen cfg t) (slice_to (default 40%Z (max_results cfg)) cards).
Proof. apply extract_cards_fst. Qed.

Lemma slice_to_subseteq {A} n (l : list A) : slice_to n l ⊆ l.
Proof.
  unfold slice_to. destruct (0 <=? n)%Z; apply sublist_subseteq, sublist_take.
Qed.

(** What an accepted record says about its card, past the dedup gate. *)
Lemma resolve_inv cfg t c hr iid a w :
  resolve cfg t c hr iid = Ok (Some (a, w)) ->
  id a = iid /\ link a = hr /\ extracted_at_date a = t /\
  (exists pt, price_text c = Ok pt
              /\ float (normalize_price pt) = Some (price a)) /\
  ((exists ch tl, title_attr c = Ok (Some (ch :: tl)) /\ title a = ch :: tl)
   \/ ((title_attr c = Ok None \/ title_attr c = Ok (Some []))
       /\ title_text c = Ok (title a))).
Proof.
  unfold resolve, mbind, res_bind. intros H.
  repeat case_match; simplify_eq; simpl; split_and!; eauto 10.
Qed.

Lemma card_body_inv seen cfg t c a w :
  card_body seen cfg t c = Ok (Some (a, w)) ->
  exists hr, href c = Ok (Some hr) /\ hr <> []
             /\ (item_id_of hr ∉ seen)
             /\ resolve cfg t c hr (item_id_of hr) = Ok (Some (a, w)).
Proof.
  unfold card_body, mbind, res_bind. intros H.
  destruct (href c) as [[[|ch tl]|]|e]; try discriminate.
  case_bool_decide; [discriminate|].
  exists (ch :: tl). split_and!; [reflexivity | discriminate | assumption | exact H].
Qed.

(** The time stamp plays no part in whether a card is accepted. *)
Lemma resolve_time cfg t t' c hr iid a w :
  resolve cfg t c hr iid = Ok (Some (a, w)) ->
  exists a', resolve cfg t' c hr iid = Ok (Some (a', w)) /\ id a' = iid.
Proof.
  unfold resolve, mbind, res_bind. intros H.
  repeat case_match; simplify_eq; eexists; split; reflexivity.
Qed.

Lemma accepted_inv seen cfg t c a :
  accepted seen cfg t c = Some a ->
  exists w, card_body seen cfg t c = Ok (Some (a, w)).
Proof.
  unfold accepted. intros H.
  destruct (card_body seen cfg t c) as [[[a' w]|]|e]; simplify_eq. eauto.
Qed.

Lemma accepted_card_id seen cfg t c a :
  accepted seen cfg t c = Some a -> card_id c = Some (id a).
Proof.
  intros H. apply accepted_inv in H as [w H].
  apply card_body_inv in H as (hr & Hh & Hne & _ & Hr).
  apply resolve_inv in Hr as (Hid & _). unfold card_id. rewrite Hh.
  destruct hr; [done|]. by rewrite Hid.
Qed.

Lemma omap_nil_all {A B} (f : A -> option B) l :
  (forall x, x ∈ l -> f x = None) -> omap f l = [].
Proof.
  induction l as [|x l IH]; intros H; [reflexivity|].
  simpl. rewrite (H x) by left. apply IH. intros y Hy. apply H. by right.
Qed.

(** A price text that [float] rejects drops the card. *)
Lemma unpriced_resolve cfg t c hr iid pt :
  price_text c = Ok pt -> float (normalize_price pt) = None ->
  (forall r, resolve cfg t c hr iid = Ok r -> r = None)
  /\ (forall e, resolve cfg t c hr iid = Raise e ->
        title_attr c = Raise e \/ title_text c = Raise e).
Proof.
  unfold resolve, mbind, res_bind. intros Hp Hf. rewrite Hp, Hf.
  split; intros x H; repeat case_match; simplify_eq; auto.
Qed.

Lemma unpriced_card_body seen cfg t c pt :
  price_text c = Ok pt -> float (normalize_price pt) = None ->
  (forall r, card_body seen cfg t c = Ok r -> r = None)
  /\ (forall e, card_body seen cfg t c = Raise e ->
        href c = Raise e \/ title_attr c = Raise e \/ title_text c = Raise e).
Proof.
  intros Hp Hf. unfold card_body, mbind, res_bind.
  destruct (href c) as [[[|ch tl]|]|e0]; try (split; intros; simplify_eq; auto; fail).
  case_bool_decide; [split; intros; simplify_eq; auto|].
  destruct (unpriced_resolve cfg t c (ch :: tl) (item_id_of (ch :: tl)) pt Hp Hf)
    as [H1 H2].
  split; [exact H1 | intros e He; right; by apply H2].
Qed.

Lemma unpriced_not_accepted seen cfg t c pt :
  price_text c = Ok pt -> float (normalize_price pt) = None ->
  accepted seen cfg t c = None.
Proof.
  intros Hp Hf. unfold accepted.
  destruct (card_body seen cfg t c) as [[[a w]|]|e] eqn:Hb; try reflexivity.
  destruct (unpriced_card_body seen cfg t c pt Hp Hf) as [H _].
  by specialize (H _ Hb).
Qed.

(** The ids of the records are a sub-sequence of the ids of the cards. *)
Lemma ids_sublist seen cfg t cards :
  map id (omap (accepted seen cfg t) cards) `sublist_of` omap card_id cards.
Proof.
  induction cards as [|c cards IH]; [constructor|]. simpl.
  destruct (accepted seen cfg t c) as [a|] eqn:Ha.
  - rewrite (accepted_card_id _ _ _ _ _ Ha). simpl. by apply sublist_skip.
  - destruct (card_id c); [by apply sublist_cons | exact IH].
Qed.

(** Each record of a pass beside the card it was built from: the cards
    are cards of the page, in page order. *)
Lemma omap_paired {A B} (f : A -> option B) l :
  exists cs, cs `sublist_of` l /\ Forall2 (fun c a => f c = Some a) cs (omap f l).
Proof.
  induction l as [|x l (cs & Hsub & Hall)]; [by exists []|]. simpl.
  destruct (f x) as [y|] eqn:E.
  - exists (x :: cs). split; [by apply sublist_skip | by constructor].
  - exists cs. split; [by apply sublist_cons | done].
Qed.

Lemma records_of_cards cards seen cfg t :
  exists cs, cs `sublist_of` cards
    /\ Forall2 (fun c a => accepted seen cfg t c = Some a) cs
         (extract_new_ads cards seen cfg t).
Proof.
  rewrite extract_new_ads_omap.
  destruct (omap_paired (accepted seen cfg t)
              (slice_to (default 40%Z (max_results cfg)) cards))
    as (cs & Hsub & Hall).
  exists cs. split; [|done]. etrans; [exact Hsub|].
  unfold slice_to. destruct (0 <=? _)%Z; apply sublist_take.
Qed.

(** What the record of a card says of the card. *)
Lemma accepted_spec seen cfg t c a :
  accepted seen cfg t c = Some a ->
  href c = Ok (Some (link a))
  /\ id a = item_id_of (link a)
  /\ (exists pt, price_text c = Ok pt
                 /\ float (normalize_price pt) = Some (price a))
  /\ ((title_attr c = Ok (Some (title a)) /\ title a <> [])
      \/ ((title_attr c = Ok None \/ title_attr c = Ok (Some []))
          /\ title_text c = Ok (title a))).
Proof.
  intros H. apply accepted_inv in H as [w H].
  apply card_body_inv in H as (hr & Hh & _ & _ & Hr).
  apply resolve_inv in Hr as (Hid & Hl & _ & Hp & Ht). subst hr.
  split_and!; [done | done | done |].
  destruct Ht as [(ch & tl & Hattr & Heq) | Hfall]; [left | by right].
  rewrite Heq. split; [exact Hattr | discriminate].
Qed.

End ExtractFacts.

Section ExtractClaims.
Import Data Extract Samples.

(** C5. The price text "1.234,56 EUR-sign" is read as 1234.56 and
    "750 EUR-sign" as 750.0.  A card whose normalized price text [float]
    rejects yields no record: its [try] body ends in [continue], any
    exception it raises comes from a WebDriver call made before the price,
    and the pass returns the records it returns without that card. *)
Theorem price_normalization :
  (float (normalize_price (py "1.234,56 " ++ [EURO]))
     = Some (Finite false 123456 (-2))
   /\ Qvalue (Finite false 123456 (-2)) = Some (123456 # 100)%Q
   /\ binary64 (Finite false 123456 (-2)) = Some 1234.56%float)
  /\ (float (normalize_price (py "750 " ++ [EURO])) = Some (Finite false 750 0)
      /\ Qvalue (Finite false 750 0) = Some (inject_Z 750)
      /\ binary64 (Finite false 750 0) = Some 750%float)
  /\ (forall seen cfg t c pt,
        price_text c = Ok pt -> float (normalize_price pt) = None ->
        (forall r, card_body seen cfg t c = Ok r -> r = None)
        /\ (forall e, card_body seen cfg t c = Raise e ->
              href c = Raise e \/ title_attr c = Raise e
              \/ title_text c = Raise e)
        /\ (forall before after,
              (extract_cards seen cfg t (before ++ c :: after)).1
              = (extract_cards seen cfg t (before ++ after)).1)).
Proof.
  split; [|split].
  - vm_compute. auto.
  - vm_compute. auto.
  - intros seen cfg t c pt Hp Hf.
    destruct (unpriced_card_body seen cfg t c pt Hp Hf) as [H1 H2].
    split; [exact H1 | split; [exact H2 |]].
    intros before after. rewrite !extract_cards_fst, !omap_app. simpl.
    by rewrite (unpriced_not_accepted seen cfg t c pt Hp Hf).
Qed.

(** A card priced "A consultar" between two listings is dropped and the
    two listings are returned. *)
Lemma price_normalization_witness :
  (forall r, card_body ∅ defaults stamp on_request = Ok r -> r = None)
  /\ card_body ∅ defaults stamp on_request = Ok None
  /\ (extract_cards ∅ defaults stamp ([bike] ++ on_request :: [refund])).1
     = (extract_cards ∅ defaults stamp ([bike] ++ [refund])).1.
Proof.
  destruct price_normalization as (_ & _ & H).
  destruct (H ∅ defaults stamp on_request (py "A consultar")) as (H1 & _ & H3);
    [reflexivity | vm_compute; reflexivity |].
  split; [exact H1 | split; [vm_compute; reflexivity | apply H3]].
Defined.

(** C6, as the code has it.  The records of a pass stand, in order,
    beside the cards of the page they were built from, and the price of
    each record is the number [float] reads in the normalized price text of
    its own card, the card whose link the record carries, whatever its sign
    and whether finite or not; a card whose normalized price text [float]
    rejects contributes no record. *)
Theorem price_is_parsed_text cards seen cfg t :
  (exists cs, cs `sublist_of` cards
     /\ Forall2 (fun c a =>
                   accepted seen cfg t c = Some a
                   /\ href c = Ok (Some (link a))
                   /\ exists pt, price_text c = Ok pt
                        /\ float (normalize_price pt) = Some (price a))
          cs (extract_new_ads cards seen cfg t))
  /\ (forall c pt, price_text c = Ok pt ->
        float (normalize_price pt) = None -> accepted seen cfg t c = None).
Proof.
  split.
  - destruct (records_of_cards cards seen cfg t) as (cs & Hsub & Hall).
    exists cs. split; [done|].
    eapply Forall2_impl; [exact Hall|]. intros c a Hacc.
    destruct (accepted_spec _ _ _ _ _ Hacc) as (Hh & _ & Hp & _). done.
  - intros c pt. apply unpriced_not_accepted.
Qed.

(** A page showing the bike and a card priced "-5 EUR-sign". *)
Lemma price_is_parsed_text_witness :
  (exists cs, cs `sublist_of` [bike; refund]
     /\ Forall2 (fun c a =>
                   accepted ∅ defaults stamp c = Some a
                   /\ href c = Ok (Some (link a))
                   /\ exists pt, price_text c = Ok pt
                        /\ float (normalize_price pt) = Some (price a))
          cs (extract_new_ads [bike; refund] ∅ defaults stamp))
  /\ (forall c pt, price_text c = Ok pt ->
        float (normalize_price pt) = None -> accepted ∅ defaults stamp c = None).
Proof. exact (price_is_parsed_text [bike; refund] ∅ defaults stamp). Defined.

(** C6 as stated fails: a card priced "-5 EUR-sign" is returned with the
    price -5.0, and one priced "inf EUR-sign" with an infinite price. *)
Lemma price_nonnegative_counterexample :
  map price (extract_new_ads [refund; priceless] ∅ defaults stamp)
    = [Finite true 5 0; Inf false]
  /\ Qvalue (Finite true 5 0) = Some (inject_Z (-5))
  /\ binary64 (Finite true 5 0) = Some (-5)%float
  /\ PrimFloat.ltb (-5)%float 0%float = true
  /\ binary64 (Inf false) = Some PrimFloat.infinity.
Proof. vm_compute. auto 10. Qed.

(** C7. A second pass over the same cards, with the seen set extended by
    the ids of the records of the first pass, returns no record. *)
Theorem dedup_idempotent cards seen cfg t t' :
  extract_new_ads cards
    (seen ∪ list_to_set (map id (extract_new_ads cards seen cfg t))) cfg t'
  = [].
Proof.
  rewrite !extract_new_ads_omap.
  set (cs := slice_to _ cards).
  set (seen' := seen ∪ _).
  apply omap_nil_all. intros c Hc.
  destruct (accepted seen' cfg t' c) as [a'|] eqn:Hacc; [exfalso | reflexivity].
  apply accepted_inv in Hacc as [w Hb].
  apply card_body_inv in Hb as (hr & Hh & Hne & Hnot & Hr).
  apply (resolve_time cfg t' t) in Hr as (a & Hr & Hid).
  apply Hnot. subst seen'. apply elem_of_union_r, elem_of_list_to_set.
  apply list_elem_of_fmap. exists a. split; [done|].
  apply list_elem_of_omap. exists c. split; [done|].
  unfold accepted, card_body, mbind, res_bind. rewrite Hh.
  destruct hr; [done|].
  rewrite bool_decide_eq_false_2, Hr; [done|].
  intros Hin. apply Hnot. by apply elem_of_union_l.
Qed.

(** C8, as the code has it.  The ids of the records of a pass are pairwise
    distinct whenever the trailing path segments of the links of the cards
    it processes are; the pass itself compares ids with the seen set only. *)
Theorem ids_distinct_when_links_distinct cards seen cfg t :
  NoDup (omap card_id (slice_to (default 40%Z (max_results cfg)) cards)) ->
  NoDup (map id (extract_new_ads cards seen cfg t)).
Proof.
  intros Hnd. rewrite extract_new_ads_omap.
  exact (sublist_NoDup _ _ Hnd (ids_sublist seen cfg t _)).
Qed.

Lemma ids_distinct_when_links_distinct_witness :
  NoDup (map id (extract_new_ads [bike; refund] ∅ defaults stamp)).
Proof.
  apply (ids_distinct_when_links_distinct [bike; refund] ∅ defaults stamp).
  vm_compute. apply NoDup_cons. split; [|apply NoDup_singleton].
  intros H. apply list_elem_of_singleton in H. discriminate H.
Defined.

(** C8 as stated fails: two cards whose links end in the same path segment
    give two records with the same id. *)
Lemma ids_distinct_counterexample :
  map id (extract_new_ads [bike; bike_again] ∅ defaults stamp)
    = [py "bici-123"; py "bici-123"]
  /\ map link (extract_new_ads [bike; bike_again] ∅ defaults stamp)
    = [py "https://es.wallapop.com/item/bici-123";
       py "https://es.wallapop.com/app/bici-123"]
  /\ ~ NoDup (map id (extract_new_ads [bike; bike_again] ∅ defaults stamp)).
Proof.
  split; [vm_compute; reflexivity | split; [vm_compute; reflexivity |]].
  intros H.
  assert (E : map id (extract_new_ads [bike; bike_again] ∅ defaults stamp)
              = [py "bici-123"; py "bici-123"]) by (vm_compute; reflexivity).
  rewrite E in H. apply NoDup_cons in H as [H _]. apply H. left.
Qed.

(** C9, as the code has it.  The records of a pass stand, in order,
    beside the cards of the page they were built from, and the title of
    each record is the title attribute of its own card, the card whose link
    the record carries, when that attribute is a non-empty string, and
    otherwise the inner text of that card's title element, whatever that
    text; a card with neither a non-empty title attribute nor a title
    element is skipped. *)
Theorem title_resolution cards seen cfg t :
  (exists cs, cs `sublist_of` cards
     /\ Forall2 (fun c a =>
                   accepted seen cfg t c = Some a
                   /\ href c = Ok (Some (link a))
                   /\ ((title_attr c = Ok (Some (title a)) /\ title a <> [])
                       \/ ((title_attr c = Ok None
                            \/ title_attr c = Ok (Some []))
                           /\ title_text c = Ok (title a))))
          cs (extract_new_ads cards seen cfg t))
  /\ (forall c h, href c = Ok h ->
        title_attr c = Ok None \/ title_attr c = Ok (Some []) ->
        title_text c = Raise NoSuchElementException ->
        card_body seen cfg t c = Ok None).
Proof.
  split.
  - destruct (records_of_cards cards seen cfg t) as (cs & Hsub & Hall).
    exists cs. split; [done|].
    eapply Forall2_impl; [exact Hall|]. intros c a Hacc.
    destruct (accepted_spec _ _ _ _ _ Hacc) as (Hh & _ & _ & Ht). done.
  - intros c h Hh Hattr Htext.
    unfold card_body, resolve, mbind, res_bind. rewrite Hh, Htext.
    destruct h as [[|ch tl]|]; try reflexivity.
    case_bool_decide; [reflexivity|].
    destruct Hattr as [-> | ->]; reflexivity.
Qed.

(** A page showing a card with a title attribute and one whose title is
    the text of its title element. *)
Lemma title_resolution_witness :
  (exists cs, cs `sublist_of` [bike; untitled]
     /\ Forall2 (fun c a =>
                   accepted ∅ defaults stamp c = Some a
                   /\ href c = Ok (Some (link a))
                   /\ ((title_attr c = Ok (Some (title a)) /\ title a <> [])
                       \/ ((title_attr c = Ok None
                            \/ title_attr c = Ok (Some []))
                           /\ title_text c = Ok (title a))))
          cs (extract_new_ads [bike; untitled] ∅ defaults stamp))
  /\ (forall c h, href c = Ok h ->
        title_attr c = Ok None \/ title_attr c = Ok (Some []) ->
        title_text c = Raise NoSuchElementException ->
        card_body ∅ defaults stamp c = Ok None).
Proof. exact (title_resolution [bike; untitled] ∅ defaults stamp). Defined.

(** C9 as stated fails: a card without title attribute whose title element
    has no text is returned with the empty title. *)
Lemma title_nonempty_counterexample :
  map title (extract_new_ads [untitled] ∅ defaults stamp) = [[]]
  /\ map id (extract_new_ads [untitled] ∅ defaults stamp) = [py "mesa-7"].
Proof. vm_compute. auto. Qed.

End ExtractClaims.

(** ** The seen-ads file read back *)

Section RegistryFacts.
Import Registry.

Lemma split_app_sep sep a b :
  split sep (a ++ sep :: b) = split sep a ++ split sep b.
Proof.
  induction a as [|c a IH]; simpl.
  - by rewrite N.eqb_refl.
  - rewrite IH. destruct (c =? sep)%N; [reflexivity|].
    pose proof (split_nonempty sep a) as Hne.
    destruct (split sep a); [done | reflexivity].
Qed.

Lemma split_no_sep sep s : sep ∉ s -> split sep s = [s].
Proof.
  induction s as [|c s IH]; intros Hn; [reflexivity|]. simpl.
  destruct (N.eqb_spec c sep) as [->|Hne]; [exfalso; apply Hn; left|].
  rewrite IH; [reflexivity|]. intros Hin. apply Hn. by right.
Qed.

Lemma universal_newlines_id s : 13 ∉ s -> universal_newlines s = s.
Proof.
  induction s as [|c s IH]; intros Hn; [reflexivity|].
  assert (Hc : c <> 13) by (intros ->; apply Hn; left).
  assert (Hs : 13 ∉ s) by (intros Hin; apply Hn; by right).
  transitivity (c :: universal_newlines s); [|by rewrite IH].
  destruct c as [|p]; [reflexivity|].
  simpl. repeat (destruct p as [p|p|]; try reflexivity); done.
Qed.

Lemma universal_newlines_cons c s :
  c <> 13 -> universal_newlines (c :: s) = c :: universal_newlines s.
Proof.
  intros Hc. destruct c as [|p]; [reflexivity|].
  simpl. repeat (destruct p as [p|p|]; try reflexivity); done.
Qed.

Lemma universal_newlines_cr s :
  universal_newlines (13 :: s)
  = 10 :: universal_newlines (match s with 10 :: s' => s' | _ => s end).
Proof.
  destruct s as [|d s]; [reflexivity|].
  destruct d as [|p]; [reflexivity|].
  simpl. repeat (destruct p as [p|p|]; try reflexivity).
Qed.

(** A line feed ends the reading of what precedes it. *)
Lemma universal_newlines_app_lf a b :
  universal_newlines (a ++ 10 :: b)
  = universal_newlines (a ++ [10]) ++ universal_newlines b.
Proof.
  remember (length a) as n eqn:Hn. revert a Hn.
  induction n as [n IH] using lt_wf_ind. intros a Hn.
  destruct a as [|c a]; [reflexivity|].
  destruct (N.eq_dec c 13) as [->|Hc].
  - rewrite <- !app_comm_cons, !universal_newlines_cr.
    destruct a as [|d a]; simpl.
    + reflexivity.
    + destruct (N.eq_dec d 10) as [->|Hd].
      * f_equal. apply (IH (length a)); [simpl in Hn; lia | reflexivity].
      * assert (E : forall t, match d :: t with 10 :: s' => s' | _ => d :: t end
                              = d :: t).
        { intros t. destruct d as [|p]; [reflexivity|].
          repeat (destruct p as [p|p|]; try reflexivity). done. }
        rewrite !E. f_equal.
        exact (IH (length (d :: a)) ltac:(simpl in *; lia) (d :: a) eq_refl).
  - rewrite <- !app_comm_cons, !universal_newlines_cons by done.
    simpl. f_equal. apply (IH (length a)); [simpl in Hn; lia | reflexivity].
Qed.

Lemma universal_newlines_ends_lf a :
  exists b, universal_newlines (a ++ [10]) = b ++ [10].
Proof.
  remember (length a) as n eqn:Hn. revert a Hn.
  induction n as [n IH] using lt_wf_ind. intros a Hn.
  destruct a as [|c a]; [by exists []|].
  destruct (N.eq_dec c 13) as [->|Hc].
  - rewrite <- app_comm_cons, universal_newlines_cr.
    destruct a as [|d a]; simpl.
    + by exists [].
    + destruct (N.eq_dec d 10) as [->|Hd].
      * destruct (IH (length a)) with (a := a) as [b Hb];
          [simpl in Hn; lia | reflexivity |].
        exists (10 :: b). by rewrite Hb.
      * assert (E : forall t, match d :: t with 10 :: s' => s' | _ => d :: t end
                              = d :: t).
        { intros t. destruct d as [|p]; [reflexivity|].
          repeat (destruct p as [p|p|]; try reflexivity). done. }
        rewrite E.
        destruct (IH (length (d :: a))) with (a := d :: a) as [b Hb];
          [simpl in *; lia | reflexivity |].
        exists (10 :: b). change ((10 :: b) ++ [10]) with (10 :: (b ++ [10])).
        f_equal. exact Hb.
  - rewrite <- app_comm_cons, universal_newlines_cons by done.
    destruct (IH (length a)) with (a := a) as [b Hb];
      [simpl in Hn; lia | reflexivity |].
    exists (c :: b). by rewrite Hb.
Qed.

Lemma lines_of_lf a b :
  universal_newlines (a ++ [10]) = b ++ [10] ->
  lines (a ++ [10]) = split 10 b.
Proof.
  intros H. unfold lines. rewrite H, split_app_sep. simpl.
  by rewrite last_last, removelast_last.
Qed.

(** Appending a line to a file that ends its last line adds that line. *)
Lemma lines_append txt i :
  well_formed (Some txt) -> 10 ∉ i -> 13 ∉ i ->
  lines (txt ++ i ++ [10]) = lines txt ++ [i].
Proof.
  intros Hwf H10 H13.
  assert (Hi : universal_newlines (i ++ [10]) = i ++ [10]).
  { apply universal_newlines_id. intros Hin.
    apply elem_of_app in Hin as [Hin|Hin]; [done|].
    apply list_elem_of_singleton in Hin. discriminate Hin. }
  destruct Hwf as [->|[body ->]].
  - simpl. rewrite (lines_of_lf i i Hi). by rewrite split_no_sep.
  - destruct (universal_newlines_ends_lf body) as [b Hb].
    rewrite (lines_of_lf body b Hb).
    replace ((body ++ [10]) ++ i ++ [10]) with ((body ++ 10 :: i) ++ [10])
      by (by rewrite <- !app_assoc).
    rewrite (lines_of_lf (body ++ 10 :: i) (b ++ 10 :: i)).
    + by rewrite split_app_sep, (split_no_sep 10 i).
    + rewrite <- app_assoc. simpl.
      rewrite universal_newlines_app_lf, Hb, Hi. by rewrite <- !app_assoc.
Qed.

Lemma save_well_formed i file : well_formed (save_seen_ad i file).
Proof.
  right. exists (default [] file ++ i). by rewrite <- app_assoc.
Qed.

(** A clean id appended to a well-formed file is read back, next to what
    the file held. *)
Lemma load_save i file :
  well_formed file -> clean i ->
  load_seen_ads (save_seen_ad i file) = load_seen_ads file ∪ {[ i ]}.
Proof.
  intros Hwf (Hs & H10 & H13). unfold save_seen_ad, load_seen_ads.
  destruct file as [txt|]; simpl.
  - rewrite lines_append, map_app by done. simpl. rewrite Hs.
    rewrite list_to_set_app_L. simpl. by rewrite (right_id_L ∅ (∪)).
  - pose proof (lines_append [] i (or_introl eq_refl) H10 H13) as E.
    change (lines ([] ++ i ++ [10])) with (lines (i ++ [10])) in E.
    change (lines []) with (@nil pystr) in E.
    rewrite E. simpl. rewrite Hs.
    by rewrite (left_id_L ∅ (∪)), (right_id_L ∅ (∪)).
Qed.

(** An id written with a blank at its end is read back without it, which
    is why [load_save] asks for clean ids. *)
Example padded_id_read_back_stripped :
  load_seen_ads (save_seen_ad (py "mesa-7 ") None) = {[ py "mesa-7" ]}.
Proof. vm_compute. reflexivity. Qed.

Lemma append_ids_well_formed ids file :
  well_formed file -> well_formed (append_ids ids file).
Proof.
  revert file. induction ids as [|i ids IH]; intros file Hwf; [done|].
  simpl. apply IH, save_well_formed.
Qed.

Lemma load_append_ids ids file :
  well_formed file -> Forall clean ids ->
  load_seen_ads (append_ids ids file) = load_seen_ads file ∪ list_to_set ids.
Proof.
  revert file. induction ids as [|i ids IH]; intros file Hwf Hc; simpl.
  - by rewrite (right_id_L ∅ (∪)).
  - apply Forall_cons in Hc as [Hi Hc].
    rewrite IH by (done || apply save_well_formed).
    rewrite load_save by done. by rewrite (assoc_L (∪)).
Qed.

End RegistryFacts.

(** ** Sessions and runs *)

Section RunFacts.
Import Data Extract Registry Run.

(** The append loop when every call returns. *)
Lemma save_all_spec store k ads w :
  (forall j, (j < length ads)%nat -> store (k + j)%nat = Written) ->
  save_all store k ads w
  = (Ok tt, {| seen_file := append_ids (map id ads) (seen_file w);
               trace := trace w ++ map AppendSeen (map id ads) |}).
Proof.
  revert k w. induction ads as [|a ads IH]; intros k w Hw.
  - destruct w. simpl. by rewrite app_nil_r.
  - simpl. unfold mbind, M_bind, save_seen.
    rewrite <- (Nat.add_0_r k) at 1. rewrite (Hw 0%nat) by (simpl; lia).
    rewrite IH; [simpl; by rewrite <- app_assoc|].
    intros j Hj. rewrite Nat.add_succ_comm. apply Hw. simpl. lia.
Qed.

(** The append loop in general: every call returns, or the loop stops at
    the first call that raises, the ids before it appended. *)
Lemma save_all_cases store k ads w r w' :
  save_all store k ads w = (r, w') ->
  (r = Ok tt
   /\ (forall j, (j < length ads)%nat -> store (k + j)%nat = Written)
   /\ w' = {| seen_file := append_ids (map id ads) (seen_file w);
              trace := trace w ++ map AppendSeen (map id ads) |})
  \/ (exists j e reached,
        (j < length ads)%nat /\ r = Raise e
        /\ store (k + j)%nat = Failed e reached
        /\ (forall i, (i < j)%nat -> store (k + i)%nat = Written)
        /\ w' = {| seen_file :=
                     torn_append (map id ads) j reached (seen_file w);
                   trace :=
                     trace w ++ map AppendSeen (firstn j (map id ads)) |}).
Proof.
  revert k w. induction ads as [|a ads IH]; intros k w H.
  - simpl in H. unfold mret, M_ret in H. injection H as <- <-. left.
    split_and!; [done | simpl; lia |]. destruct w. simpl. by rewrite app_nil_r.
  - simpl in H. unfold mbind, M_bind, save_seen in H.
    destruct (store k) as [|e reached] eqn:Hk.
    + apply IH in H as [(-> & Hall & ->)|(j & e & reached & Hj & -> & Hf & Hb & ->)].
      * left. split_and!; [done | | simpl; by rewrite <- app_assoc].
        intros [|j] Hj; [by rewrite Nat.add_0_r|].
        rewrite <- Nat.add_succ_comm. apply Hall. simpl in Hj. lia.
      * right. exists (S j), e, reached.
        split_and!; [simpl; lia | done | by rewrite <- Nat.add_succ_comm | |].
        -- intros [|i] Hi; [by rewrite Nat.add_0_r|].
           rewrite <- Nat.add_succ_comm. apply Hb. lia.
        -- simpl. by rewrite <- app_assoc.
    + simplify_eq. right. exists 0%nat, e, reached.
      split_and!; [simpl; lia | done | by rewrite Nat.add_0_r | lia |].
      simpl. by rewrite app_nil_r.
Qed.

(** Fetching images changes neither the ids nor the number of records. *)
Lemma download_images_ids ads got :
  map id (download_images ads got) = map id ads.
Proof.
  revert got. induction ads as [|a ads IH]; intros got; [reflexivity|].
  simpl. destruct (image_url a), got; simpl; by rewrite IH.
Qed.

Lemma download_images_length ads got :
  length (download_images ads got) = length ads.
Proof.
  rewrite <- (length_map id), download_images_ids. apply length_map.
Qed.

Lemma loads_app a b : loads (a ++ b) = (loads a + loads b)%nat.
Proof.
  induction a as [|e a IH]; [reflexivity|]. simpl. rewrite IH. by destruct e.
Qed.

Lemma loads_appends ids : loads (map AppendSeen ids) = 0%nat.
Proof. induction ids as [|i ids IH]; [reflexivity | exact IH]. Qed.

Lemma loads_extract seen cfg t cards :
  loads (extract_cards seen cfg t cards).2 = 0%nat.
Proof.
  induction cards as [|c cards IH]; [reflexivity|]. simpl.
  destruct (extract_cards seen cfg t cards) as [ads evs]. simpl in IH.
  destruct (card_body seen cfg t c) as [[[a [|]]|]|e]; simpl; exact IH.
Qed.

Lemma loads_delivery cfg s new_ads batch :
  loads (delivery cfg s new_ads batch) = 0%nat.
Proof.
  unfold delivery, mail_event. rewrite !loads_app, loads_appends.
  destruct (default true (send_email cfg)); [destruct (smtp s)|]; reflexivity.
Qed.

(** The batch a session hands on: the records with their image paths when
    images are fetched. *)
Lemma batch_ids cfg new_ads got :
  map id (if default false (save_images cfg)
          then download_images new_ads got else new_ads)
  = map id new_ads.
Proof.
  destruct (default false (save_images cfg));
    [apply download_images_ids | reflexivity].
Qed.

(** A batch none of whose steps raises, from its first log line to its
    last. *)
Lemma batch_body_delivers cfg s all new_ads got w :
  new_ads <> [] ->
  (default false (save_images cfg) = true -> downloads s = Ok got) ->
  export s = Ok tt ->
  (default true (send_email cfg) = true -> compose s = Ok tt) ->
  (forall j, (j < length new_ads)%nat -> store s j = Written) ->
  let batch := if default false (save_images cfg)
               then download_images new_ads got else new_ads in
  batch_body cfg s all new_ads w
  = (Ok (all ++ batch),
     {| seen_file := append_ids (map id new_ads) (seen_file w);
        trace := trace w ++ delivery cfg s new_ads batch |}).
Proof.
  intros Hne Hdown Hcsv Hcomp Hst batch.
  assert (Hids : map id batch = map id new_ads) by apply batch_ids.
  assert (Hlen : length batch = length new_ads).
  { by rewrite <- (length_map id), Hids, length_map. }
  assert (Hbatch : batch <> []).
  { intros E. rewrite E in Hlen. by destruct new_ads. }
  assert (Hb : batch = if default false (save_images cfg)
                       then download_images new_ads got else new_ads)
    by reflexivity.
  clearbody batch.
  unfold batch_body, send_email_alert, delivery, mail_event, mbind, M_bind,
    lift, emit, mret, M_ret.
  destruct new_ads as [|a l] eqn:Hnew; [done|]. rewrite <- Hnew in *.
  destruct (default false (save_images cfg)) eqn:Hsi;
    [rewrite (Hdown eq_refl)|];
    rewrite <- Hb, Hcsv;
    (destruct batch as [|a' l'] eqn:Hbt; [done|]); rewrite <- Hbt in *;
    (destruct (default true (send_email cfg)) eqn:Hse;
       [rewrite (Hcomp eq_refl); destruct (smtp s)|]);
    (rewrite save_all_spec by (intros j Hj; apply Hst; by rewrite <- Hlen));
    rewrite Hids; cbn [seen_file trace]; rewrite Hlen;
    do 2 f_equal; rewrite <- ?app_assoc; reflexivity.
Qed.

(** However a batch ends. *)
Lemma batch_body_cases cfg s all new_ads w r w' :
  batch_body cfg s all new_ads w = (r, w') ->
  exists evs, trace w' = trace w ++ evs /\ loads evs = 0%nat /\
    ((new_ads = [] /\ r = Ok all /\ seen_file w' = seen_file w
      /\ evs = [LogNoNewAds])
     \/ (new_ads <> [] /\ exists e, r = Raise e /\ seen_file w' = seen_file w)
     \/ (new_ads <> [] /\ exists e j reached,
           r = Raise e /\ (j < length new_ads)%nat
           /\ store s j = Failed e reached
           /\ (forall i, (i < j)%nat -> store s i = Written)
           /\ seen_file w'
              = torn_append (map id new_ads) j reached (seen_file w))
     \/ (new_ads <> [] /\ exists got,
           (default false (save_images cfg) = true -> downloads s = Ok got)
           /\ export s = Ok tt
           /\ (default true (send_email cfg) = true -> compose s = Ok tt)
           /\ (forall j, (j < length new_ads)%nat -> store s j = Written)
           /\ r = Ok (all ++ if default false (save_images cfg)
                             then download_images new_ads got else new_ads)
           /\ seen_file w' = append_ids (map id new_ads) (seen_file w)
           /\ evs = delivery cfg s new_ads
                      (if default false (save_images cfg)
                       then download_images new_ads got else new_ads))).
Proof.
  intros H. destruct new_ads as [|a l] eqn:Hnew.
  { unfold batch_body, mbind, M_bind, emit, mret, M_ret in H. simplify_eq.
    eexists. split_and!; [reflexivity | reflexivity |]. left. done. }
  rewrite <- Hnew in *.
  assert (Hne : new_ads <> []) by (by rewrite Hnew).
  (* the steps before the appends *)
  assert (Hearly : forall e evs,
            r = Raise e -> w' = {| seen_file := seen_file w;
                                   trace := trace w ++ evs |} ->
            loads evs = 0%nat ->
            exists evs, trace w' = trace w ++ evs /\ loads evs = 0%nat /\
              ((new_ads = [] /\ r = Ok all /\ seen_file w' = seen_file w
                /\ evs = [LogNoNewAds])
               \/ (new_ads <> [] /\ exists e, r = Raise e
                                     /\ seen_file w' = seen_file w)
               \/ (new_ads <> [] /\ exists e j reached,
                     r = Raise e /\ (j < length new_ads)%nat
                     /\ store s j = Failed e reached
                     /\ (forall i, (i < j)%nat -> store s i = Written)
                     /\ seen_file w'
                        = torn_append (map id new_ads) j reached (seen_file w))
               \/ (new_ads <> [] /\ exists got,
                     (default false (save_images cfg) = true ->
                      downloads s = Ok got)
                     /\ export s = Ok tt
                     /\ (default true (send_email cfg) = true ->
                         compose s = Ok tt)
                     /\ (forall j, (j < length new_ads)%nat ->
                           store s j = Written)
                     /\ r = Ok (all ++ if default false (save_images cfg)
                                       then download_images new_ads got
                                       else new_ads)
                     /\ seen_file w' = append_ids (map id new_ads) (seen_file w)
                     /\ evs = delivery cfg s new_ads
                                (if default false (save_images cfg)
                                 then download_images new_ads got
                                 else new_ads)))).
  { intros e evs -> -> Hl. exists evs. split_and!; [done | done |].
    right. left. split; [done|]. by exists e. }
  assert (Hgot : exists got,
             (default false (save_images cfg) = true -> downloads s = Ok got)
             \/ exists e, default false (save_images cfg) = true
                          /\ downloads s = Raise e).
  { destruct (default false (save_images cfg)); [|exists []; by left].
    destruct (downloads s) as [got|e]; [exists got; by left|].
    exists []. right. by exists e. }
  destruct Hgot as [got [Hdown|(e & Hsi & Hdown)]]; cycle 1.
  { unfold batch_body, mbind, M_bind, lift, emit in H.
    rewrite Hnew in H. rewrite <- Hnew in H. rewrite Hsi, Hdown in H.
    simplify_eq. eapply (Hearly e [LogFound _]); done. }
  destruct (export s) as [[]|e] eqn:Hcsv; cycle 1.
  { unfold batch_body, mbind, M_bind, lift, emit, mret, M_ret in H.
    rewrite Hnew in H. rewrite <- Hnew in H. rewrite Hcsv in H.
    destruct (default false (save_images cfg));
      [rewrite (Hdown eq_refl) in H|]; simplify_eq;
      eapply (Hearly e [LogFound _]); done. }
  assert (Hmail : (default true (send_email cfg) = true -> compose s = Ok tt)
                  \/ exists e, default true (send_email cfg) = true
                               /\ compose s = Raise e).
  { destruct (default true (send_email cfg)); [|by left].
    destruct (compose s) as [[]|e]; [by left|]. right. by exists e. }
  set (batch := if default false (save_images cfg)
                then download_images new_ads got else new_ads) in *.
  assert (Hids : map id batch = map id new_ads) by apply batch_ids.
  assert (Hlen : length batch = length new_ads).
  { by rewrite <- (length_map id), Hids, length_map. }
  assert (Hbatch : batch <> []).
  { intros E. rewrite E in Hlen. by destruct new_ads. }
  assert (Hb : batch = if default false (save_images cfg)
                       then download_images new_ads got else new_ads)
    by reflexivity.
  clearbody batch.
  destruct Hmail as [Hcomp|(e & Hse & Hcomp)]; cycle 1.
  { unfold batch_body, send_email_alert, mbind, M_bind, lift, emit, mret,
      M_ret in H.
    rewrite Hnew in H. rewrite <- Hnew in H. rewrite Hcsv, Hse in H.
    destruct (default false (save_images cfg));
      [rewrite (Hdown eq_refl) in H|]; rewrite <- Hb in H;
      (destruct batch as [|a' l'] eqn:Hbt; [done|]); rewrite <- Hbt in *;
      rewrite Hcomp in H; simplify_eq;
      eapply (Hearly e [LogFound _; LogCsv _]); try done;
      cbn [seen_file trace]; by rewrite <- app_assoc. }
  (* the appends *)
  assert (Hrun : batch_body cfg s all new_ads w
                 = (let '(r0, w0) :=
                      save_all (store s) 0 batch
                        {| seen_file := seen_file w;
                           trace := trace w
                             ++ [LogFound (length new_ads); LogCsv batch;
                                 mail_event cfg s batch] |} in
                    match r0 with
                    | Ok _ =>
                        (Ok (all ++ batch),
                         {| seen_file := seen_file w0;
                            trace := trace w0 ++ [LogUpdated (length batch)] |})
                    | Raise e => (Raise e, w0)
                    end)).
  { unfold batch_body, send_email_alert, mail_event, mbind, M_bind, lift,
      emit, mret, M_ret.
    rewrite Hnew. rewrite <- Hnew. rewrite Hcsv.
    destruct (default false (save_images cfg));
      [rewrite (Hdown eq_refl)|]; rewrite <- Hb;
      (destruct batch as [|a' l'] eqn:Hbt; [done|]); rewrite <- Hbt in *;
      (destruct (default true (send_email cfg));
         [rewrite (Hcomp eq_refl); destruct (smtp s)|]);
      cbn [seen_file trace]; rewrite <- ?app_assoc; reflexivity. }
  rewrite Hrun in H. clear Hrun.
  destruct (save_all _ _ _ _) as [r0 w0] eqn:Hsave.
  apply save_all_cases in Hsave
    as [(-> & Hall & ->)|(j & e & reached & Hj & -> & Hf & Hbefore & ->)];
    injection H as <- <-; cbn [seen_file trace]; rewrite Hids.
  - exists (delivery cfg s new_ads batch).
    split_and!; [| apply loads_delivery |].
    + unfold delivery. rewrite Hlen, <- !app_assoc. reflexivity.
    + do 3 right. split; [done|]. exists got. rewrite <- Hb.
      split_and!; try done. intros j Hj. apply (Hall j). by rewrite Hlen.
  - eexists. split_and!; [by rewrite <- app_assoc | |].
    + rewrite !loads_app.
      assert (E : firstn j (map id new_ads) = map id (firstn j new_ads))
        by (by rewrite <- firstn_map).
      rewrite E, <- map_map, loads_appends. unfold mail_event.
      destruct (default true (send_email cfg)); [destruct (smtp s)|];
        reflexivity.
    + right. right. left. split; [done|]. exists e, j, reached.
      split_and!; try done. by rewrite <- Hlen.
Qed.

(** A session whose steps up to the extraction pass return: what is left
    to do is the batch. *)
Lemma session_body_reaches cfg s all w u cards :
  url s = Ok u -> navigate s = Ok tt ->
  consent s = Ok tt \/ consent s = Raise TimeoutException ->
  expand s = Ok tt -> capture s = Ok tt -> reading s = Ok tt ->
  rendered s = Ok cards ->
  session_body cfg s all w
  = batch_body cfg s all
      (extract_new_ads cards (load_seen_ads (seen_file w)) cfg (now s))
      {| seen_file := seen_file w;
         trace := trace w ++ opening s u
           ++ (extract_new_ads_logged cards (load_seen_ads (seen_file w)) cfg
                 (now s)).2 |}.
Proof.
  intros Hu Hnav Hcons Hexp Hcap Hread Hren.
  unfold session_body, opening, extract_new_ads, mbind, M_bind, lift, emit,
    load_seen, mret, M_ret.
  rewrite Hu, Hnav, Hexp, Hcap, Hread, Hren.
  destruct Hcons as [Hc|Hc]; rewrite Hc; cbn [seen_file trace];
    destruct (extract_new_ads_logged cards (load_seen_ads (seen_file w)) cfg
                (now s)) as [new_ads logged];
    cbn [fst snd seen_file trace]; rewrite <- !app_assoc; reflexivity.
Qed.

(** A session either gets to its extraction pass or stops before it, the
    file untouched; it reads the file only once its page was expanded and
    captured. *)
Lemma session_body_prefix cfg s all w r w' :
  session_body cfg s all w = (r, w') ->
  (exists u cards,
      url s = Ok u /\ navigate s = Ok tt
      /\ (consent s = Ok tt \/ consent s = Raise TimeoutException)
      /\ expand s = Ok tt /\ capture s = Ok tt /\ reading s = Ok tt
      /\ rendered s = Ok cards)
  \/ (exists e evs,
        r = Raise e /\ seen_file w' = seen_file w
        /\ trace w' = trace w ++ evs /\ (loads evs <= 1)%nat
        /\ (loads evs = 1%nat -> expand s = Ok tt /\ capture s = Ok tt)).
Proof.
  unfold session_body, mbind, M_bind, lift, emit, load_seen, mret, M_ret.
  intros H.
  destruct (url s) as [u|e] eqn:Hu; cycle 1.
  { right. simplify_eq. exists e, [LogSearching].
    split_and!; [done | done | done | simpl; lia | discriminate]. }
  destruct (navigate s) as [[]|e] eqn:Hnav; cycle 1.
  { right. cbn [seen_file trace] in H. simplify_eq.
    exists e, [LogSearching; LogNavigating u]. cbn [seen_file trace].
    split_and!; [done | done | by rewrite <- app_assoc | simpl; lia
                | discriminate]. }
  assert (Hcons : (consent s = Ok tt \/ consent s = Raise TimeoutException)
                  \/ exists e, consent s = Raise e /\ e <> TimeoutException).
  { destruct (consent s) as [[]|[]]; [by left; left | right | by left; right
                                      | right]; eexists; done. }
  destruct Hcons as [Hcons|(e & Hc & Hne)]; cycle 1.
  { right. rewrite Hc in H. cbn [seen_file trace] in H.
    exists e, [LogSearching; LogNavigating u].
    destruct e; [|done|]; simplify_eq; cbn [seen_file trace];
      (split_and!; [done | done | by rewrite <- app_assoc | simpl; lia
                   | discriminate]). }
  destruct (expand s) as [[]|e] eqn:Hexp; cycle 1.
  { right. exists e.
    exists [LogSearching; LogNavigating u;
            LogCookies (match consent s with Ok _ => true | _ => false end)].
    destruct Hcons as [Hc|Hc]; rewrite Hc in *; cbn [seen_file trace] in H;
      simplify_eq; cbn [seen_file trace];
      (split_and!; [done | done | by rewrite <- !app_assoc | simpl; lia
                   | discriminate]). }
  destruct (capture s) as [[]|e] eqn:Hcap; cycle 1.
  { right. exists e.
    exists [LogSearching; LogNavigating u;
            LogCookies (match consent s with Ok _ => true | _ => false end)].
    destruct Hcons as [Hc|Hc]; rewrite Hc in *; cbn [seen_file trace] in H;
      simplify_eq; cbn [seen_file trace];
      (split_and!; [done | done | by rewrite <- !app_assoc | simpl; lia
                   | discriminate]). }
  destruct (reading s) as [[]|e] eqn:Hread; cycle 1.
  { right. exists e.
    exists [LogSearching; LogNavigating u;
            LogCookies (match consent s with Ok _ => true | _ => false end);
            LogScreenshot].
    destruct Hcons as [Hc|Hc]; rewrite Hc in *; cbn [seen_file trace] in H;
      simplify_eq; cbn [seen_file trace];
      (split_and!; [done | done | by rewrite <- !app_assoc | simpl; lia
                   | discriminate]). }
  destruct (rendered s) as [cards|e] eqn:Hren; cycle 1.
  { right. exists e, (opening s u). unfold opening.
    destruct Hcons as [Hc|Hc]; rewrite Hc in *; cbn [seen_file trace] in H;
      simplify_eq; cbn [seen_file trace];
      (split_and!; [done | done | by rewrite <- !app_assoc | simpl; lia
                   | done]). }
  left. exists u, cards. done.
Qed.

(** What a session leaves whatever its end: the trace grows; the file is
    read at most once, and only once the page was expanded and captured; an
    exception leaves the file as it was unless it comes from the append
    loop; and a session that returns has read the file once and added the
    records its extraction pass found with that reading as the seen set. *)
Lemma session_body_frame cfg s all w r w' :
  session_body cfg s all w = (r, w') ->
  exists evs, trace w' = trace w ++ evs
    /\ (loads evs <= 1)%nat
    /\ (loads evs = 1%nat -> expand s = Ok tt /\ capture s = Ok tt)
    /\ (forall e, r = Raise e ->
          seen_file w' = seen_file w
          \/ exists cards j reached,
               rendered s = Ok cards
               /\ (j < length (extract_new_ads cards
                                 (load_seen_ads (seen_file w)) cfg (now s)))%nat
               /\ store s j = Failed e reached
               /\ (forall i, (i < j)%nat -> store s i = Written)
               /\ seen_file w'
                  = torn_append
                      (map id (extract_new_ads cards
                                 (load_seen_ads (seen_file w)) cfg (now s)))
                      j reached (seen_file w))
    /\ (forall x, r = Ok x ->
          loads evs = 1%nat
          /\ exists cards, rendered s = Ok cards
               /\ map id x
                  = map id all
                    ++ map id (extract_new_ads cards
                                 (load_seen_ads (seen_file w)) cfg (now s))).
Proof.
  intros H.
  destruct (session_body_prefix _ _ _ _ _ _ H)
    as [(u & cards & Hu & Hnav & Hcons & Hexp & Hcap & Hread & Hren)
       |(e & evs & -> & Hf & Ht & Hle & Hone)].
  2:{ exists evs. split_and!; [done | done | done | by left | discriminate]. }
  rewrite (session_body_reaches cfg s all w u cards) in H by done.
  set (new_ads := extract_new_ads cards (load_seen_ads (seen_file w)) cfg
                    (now s)) in *.
  set (logged := (extract_new_ads_logged cards (load_seen_ads (seen_file w))
                    cfg (now s)).2) in *.
  assert (Hlog : loads (opening s u ++ logged) = 1%nat).
  { rewrite loads_app. subst logged. unfold extract_new_ads_logged.
    rewrite loads_extract. unfold opening. by destruct (consent s). }
  apply batch_body_cases in H as (evs & Ht & Hl & Hcases).
  cbn [seen_file trace] in *.
  exists ((opening s u ++ logged) ++ evs).
  split_and!.
  - rewrite Ht, <- !app_assoc. reflexivity.
  - rewrite loads_app, Hlog, Hl. simpl. lia.
  - done.
  - intros e ->.
    destruct Hcases as [(_ & ? & _)|[(_ & e' & _ & Hf)
                       |[(_ & e' & j & reached & He & Hj & Hst & Hb & Hf)
                       |(_ & got & _ & _ & _ & _ & ? & _)]]];
      [done | by left | | done].
    right. simplify_eq. exists cards, j, reached. done.
  - intros x ->. split; [rewrite loads_app, Hlog, Hl; reflexivity|].
    exists cards. split; [done|].
    destruct Hcases as [(Hnil & ? & _)|[(_ & e' & ? & _)
                       |[(_ & e' & j & reached & ? & _)
                       |(_ & got & _ & _ & _ & _ & ? & _)]]];
      simplify_eq.
    + rewrite Hnil. simpl. by rewrite app_nil_r.
    + rewrite map_app. f_equal. apply batch_ids.
Qed.

(** A session none of whose steps raises, and which finds new records,
    from its first log line to its last. *)
Lemma session_body_delivers cfg s all w u cards new_ads logged got :
  url s = Ok u -> navigate s = Ok tt ->
  consent s = Ok tt \/ consent s = Raise TimeoutException ->
  expand s = Ok tt -> capture s = Ok tt -> reading s = Ok tt ->
  rendered s = Ok cards ->
  extract_new_ads_logged cards (load_seen_ads (seen_file w)) cfg (now s)
    = (new_ads, logged) ->
  new_ads <> [] ->
  (default false (save_images cfg) = true -> downloads s = Ok got) ->
  export s = Ok tt ->
  (default true (send_email cfg) = true -> compose s = Ok tt) ->
  (forall j, (j < length new_ads)%nat -> store s j = Written) ->
  let batch := if default false (save_images cfg)
               then download_images new_ads got else new_ads in
  session_body cfg s all w
  = (Ok (all ++ batch),
     {| seen_file := append_ids (map id new_ads) (seen_file w);
        trace := trace w
          ++ [LogSearching; LogNavigating u;
              LogCookies (match consent s with Ok _ => true | _ => false end);
              LogScreenshot; LoadSeen]
          ++ logged
          ++ [LogFound (length new_ads); LogCsv batch; mail_event cfg s batch]
          ++ map AppendSeen (map id new_ads)
          ++ [LogUpdated (length new_ads)] |}).
Proof.
  intros Hu Hnav Hcons Hexp Hcap Hread Hren Hext Hne Hdown Hcsv Hcomp Hst batch.
  rewrite (session_body_reaches cfg s all w u cards) by done.
  unfold extract_new_ads. rewrite Hext. cbn [fst snd].
  rewrite (batch_body_delivers cfg s all new_ads got) by done.
  cbn [seen_file trace]. unfold opening, delivery. fold batch.
  by rewrite <- !app_assoc.
Qed.

Lemma run_sessions_app cfg l1 l2 all w :
  run_sessions cfg (l1 ++ l2) all w
  = match run_sessions cfg l1 all w with
    | (Ok all', w') => run_sessions cfg l2 all' w'
    | (Raise e, w') => (Raise e, w')
    end.
Proof.
  revert all w. induction l1 as [|s l1 IH]; intros all w; [reflexivity|].
  simpl. unfold mbind, M_bind.
  destruct (session_body cfg s all w) as [[x|e] w1]; [apply IH | reflexivity].
Qed.

(** A run of the loop reads the file at most once per term, and exactly
    once per term when no session raises. *)
Lemma run_sessions_frame cfg terms all w r w' :
  run_sessions cfg terms all w = (r, w') ->
  exists evs, trace w' = trace w ++ evs
    /\ (loads evs <= length terms)%nat
    /\ (forall x, r = Ok x -> loads evs = length terms).
Proof.
  revert all w. induction terms as [|s terms IH]; intros all w H.
  - simpl in H. unfold mret, M_ret in H. simplify_eq.
    exists []. rewrite app_nil_r. split_and!; [done | simpl; lia | done].
  - simpl in H. unfold mbind, M_bind in H.
    destruct (session_body cfg s all w) as [[x|e] w1] eqn:Hs.
    + destruct (session_body_frame _ _ _ _ _ _ Hs)
        as (e1 & Ht1 & _ & _ & _ & Hok).
      destruct (Hok x eq_refl) as [Hone _].
      destruct (IH _ _ H) as (e2 & Ht2 & Hle & Heq).
      exists (e1 ++ e2). rewrite Ht2, Ht1, <- app_assoc, loads_app, Hone.
      split_and!; [done | simpl; lia |].
      intros y Hy. rewrite (Heq y Hy). reflexivity.
    + simplify_eq.
      destruct (session_body_frame _ _ _ _ _ _ Hs) as (e1 & Ht1 & Hle & _).
      exists e1. split_and!; [done | simpl; lia | done].
Qed.

(** The records of a pass are not in the seen set it was given. *)
Lemma extract_new_ads_unseen cards seen cfg t a :
  a ∈ extract_new_ads cards seen cfg t -> id a ∉ seen.
Proof.
  rewrite extract_new_ads_omap. intros Ha.
  apply list_elem_of_omap in Ha as (c & _ & Hacc).
  apply accepted_inv in Hacc as [w Hb].
  apply card_body_inv in Hb as (hr & _ & _ & Hnot & Hr).
  apply resolve_inv in Hr as (Hid & _). by rewrite Hid.
Qed.

(** What a session that returns has gone through, and what it has done to
    the list of records, to the file and to the log. *)
Lemma session_ok_spec cfg s all w x w' :
  session_body cfg s all w = (Ok x, w') ->
  exists u cards batch rest,
    (url s = Ok u /\ navigate s = Ok tt
     /\ (consent s = Ok tt \/ consent s = Raise TimeoutException)
     /\ expand s = Ok tt /\ capture s = Ok tt /\ reading s = Ok tt
     /\ rendered s = Ok cards)
    /\ x = all ++ batch
    /\ map id batch
       = map id (extract_new_ads cards (load_seen_ads (seen_file w)) cfg (now s))
    /\ seen_file w' = append_ids (map id batch) (seen_file w)
    /\ trace w' = trace w ++ opening s u ++ rest
    /\ loads rest = 0%nat.
Proof.
  intros H.
  destruct (session_body_prefix _ _ _ _ _ _ H)
    as [(u & cards & Hu & Hnav & Hcons & Hexp & Hcap & Hread & Hren)
       |(e & evs & ? & _)]; [|done].
  rewrite (session_body_reaches cfg s all w u cards) in H by done.
  set (new_ads := extract_new_ads cards (load_seen_ads (seen_file w)) cfg
                    (now s)) in *.
  set (logged := (extract_new_ads_logged cards (load_seen_ads (seen_file w))
                    cfg (now s)).2) in *.
  assert (Hlog : loads logged = 0%nat).
  { subst logged. unfold extract_new_ads_logged. apply loads_extract. }
  apply batch_body_cases in H as (evs & Ht & Hl & Hcases).
  cbn [seen_file trace] in *.
  destruct Hcases as [(Hnil & Hx & Hf & _)|[(_ & e' & ? & _)
                     |[(_ & e' & j & reached & ? & _)
                     |(_ & got & _ & _ & _ & _ & Hx & Hf & _)]]];
    [|done|done|]; injection Hx as ->.
  - exists u, cards, [], (logged ++ evs). fold new_ads.
    rewrite Hnil, app_nil_r. split_and!; try done.
    + rewrite Ht, <- !app_assoc. reflexivity.
    + by rewrite loads_app, Hlog, Hl.
  - eexists u, cards, _, (logged ++ evs). split; [done|].
    split_and!; [reflexivity | apply batch_ids | | |].
    + by rewrite batch_ids.
    + rewrite Ht, <- !app_assoc. reflexivity.
    + by rewrite loads_app, Hlog, Hl.
Qed.

Lemma append_ids_app ids1 ids2 file :
  append_ids (ids1 ++ ids2) file = append_ids ids2 (append_ids ids1 file).
Proof. apply fold_left_app. Qed.

(** The books of the loop: what a run that returns has added to the list
    of records is what it has appended to the file. *)
Lemma run_sessions_books cfg terms all w all' w' :
  run_sessions cfg terms all w = (Ok all', w') ->
  exists added,
    all' = all ++ added
    /\ seen_file w' = append_ids (map id added) (seen_file w).
Proof.
  revert all w. induction terms as [|s terms IH]; intros all w H.
  - simpl in H. unfold mret, M_ret in H. simplify_eq.
    exists []. by rewrite app_nil_r.
  - simpl in H. unfold mbind, M_bind in H.
    destruct (session_body cfg s all w) as [[x|e] w1] eqn:Hs; [|discriminate].
    destruct (session_ok_spec _ _ _ _ _ _ Hs)
      as (u & cards & batch & rest & _ & -> & _ & Hf & _).
    destruct (IH _ _ H) as (added & -> & Hf').
    exists (batch ++ added). split; [by rewrite app_assoc|].
    by rewrite Hf', Hf, map_app, append_ids_app.
Qed.

(** The loop only appends to the file, however it ends; when it raises,
    the last line appended may be torn. *)
Lemma run_sessions_appends cfg terms all w r w' :
  run_sessions cfg terms all w = (r, w') ->
  exists ids,
    (forall x, r = Ok x -> seen_file w' = append_ids ids (seen_file w))
    /\ (forall e, r = Raise e ->
          exists i reached,
            seen_file w' = torn_save i reached (append_ids ids (seen_file w))).
Proof.
  revert all w. induction terms as [|s terms IH]; intros all w H.
  - simpl in H. unfold mret, M_ret in H. simplify_eq. by exists [].
  - simpl in H. unfold mbind, M_bind in H.
    destruct (session_body cfg s all w) as [[x|e] w1] eqn:Hs.
    + destruct (session_ok_spec _ _ _ _ _ _ Hs)
        as (u & cards & batch & rest & _ & _ & _ & Hf & _).
      destruct (IH _ _ H) as (ids & Hok & Hraise).
      exists (map id batch ++ ids). rewrite append_ids_app, <- Hf. done.
    + simplify_eq.
      destruct (session_body_frame _ _ _ _ _ _ Hs)
        as (evs & _ & _ & _ & Hfile & _).
      destruct (Hfile e eq_refl)
        as [Hsame|(cards & j & reached & _ & _ & _ & _ & Htorn)].
      * exists []. split; [done|]. intros e' _. by exists [], None.
      * eexists. split; [done|]. intros e' _. eexists _, reached.
        exact Htorn.
Qed.

(** A run that returns is a run of its first terms that returns, followed
    by a run of the others. *)
Lemma run_sessions_split cfg l1 l2 all w x w' :
  run_sessions cfg (l1 ++ l2) all w = (Ok x, w') ->
  exists all0 w0,
    run_sessions cfg l1 all w = (Ok all0, w0)
    /\ run_sessions cfg l2 all0 w0 = (Ok x, w').
Proof.
  rewrite run_sessions_app.
  destruct (run_sessions cfg l1 all w) as [[all0|e] w0]; [eauto | done].
Qed.

(** [main] after a loop that returned, and after one that raised. *)
Lemma main_after_ok cfg terms c w all w1 :
  run_sessions cfg terms [] w = (Ok all, w1) ->
  main cfg terms c w
  = (_ ← quit c; Ok (Completed (unique_ads all)),
     {| seen_file := seen_file w1;
        trace := trace w1
          ++ [LogTotal (length (unique_ads all)); LogClosing] |}).
Proof.
  intros H. unfold main. rewrite H. cbn [seen_file trace].
  by rewrite <- app_assoc.
Qed.

Lemma main_after_raise cfg terms c w e w1 :
  run_sessions cfg terms [] w = (Raise e, w1) ->
  main cfg terms c w
  = (_ ← quit c; _ ← diagnostic c;
     Ok (match e with TimeoutException => TimedOut | _ => Unexpected e end),
     {| seen_file := seen_file w1;
        trace := trace w1
          ++ [match e with
              | TimeoutException => LogTimeout
              | _ => LogUnexpected e
              end]
          ++ match diagnostic c with
             | Ok _ => [DiagnosticShot]
             | Raise _ => []
             end
          ++ [LogClosing] |}).
Proof.
  intros H. unfold main, handler, mbind, M_bind, res_bind, lift, emit.
  rewrite H. cbn [seen_file trace].
  destruct (diagnostic c) as [[]|e']; cbn [seen_file trace];
    destruct (quit c) as [[]|e'']; rewrite <- ?app_assoc; reflexivity.
Qed.

End RunFacts.

Section RunClaims.
Import Data Extract Registry Run Samples.

(** C1, as the code has it.  An exception that leaves one term's session
    leaves the loop over the terms: what the sessions of the earlier terms
    did stays done, the sessions of the later terms are not run (the run
    is the one the terms up to the failing one give) and no aggregate is
    computed.  The failing session has appended no id, unless the
    exception comes from a call of [save_seen_ad] in its append loop, in
    which case the ids written by the calls before it stay in the file.
    [main] logs the error and attempts the diagnostic capture; whether or
    not the capture returns, it logs the closing line and quits the
    browser, and it returns only when both the capture and [quit] return:
    otherwise their exception leaves [main]. *)
Theorem fault_ends_the_run cfg before s after c w all w1 e w2 :
  run_sessions cfg before [] w = (Ok all, w1) ->
  session_body cfg s all w1 = (Raise e, w2) ->
  main cfg (before ++ s :: after) c w
  = (match quit c, diagnostic c with
     | Raise e', _ => Raise e'
     | Ok _, Raise e' => Raise e'
     | Ok _, Ok _ =>
         Ok (match e with TimeoutException => TimedOut | _ => Unexpected e end)
     end,
     {| seen_file := seen_file w2;
        trace := trace w2
          ++ [match e with
              | TimeoutException => LogTimeout
              | _ => LogUnexpected e
              end]
          ++ match diagnostic c with
             | Ok _ => [DiagnosticShot]
             | Raise _ => []
             end
          ++ [LogClosing] |})
  /\ main cfg (before ++ s :: after) c w = main cfg (before ++ [s]) c w
  /\ (exists evs evs', trace w1 = trace w ++ evs /\ trace w2 = trace w1 ++ evs')
  /\ (seen_file w2 = seen_file w1
      \/ exists cards j reached,
           rendered s = Ok cards
           /\ (j < length (extract_new_ads cards
                             (load_seen_ads (seen_file w1)) cfg (now s)))%nat
           /\ store s j = Failed e reached
           /\ (forall i, (i < j)%nat -> store s i = Written)
           /\ seen_file w2
              = torn_append
                  (map id (extract_new_ads cards
                             (load_seen_ads (seen_file w1)) cfg (now s)))
                  j reached (seen_file w1)).
Proof.
  intros Hb Hs.
  destruct (session_body_frame _ _ _ _ _ _ Hs)
    as (evs' & Ht' & _ & _ & Hfile & _).
  destruct (run_sessions_frame _ _ _ _ _ _ Hb) as (evs & Ht & _).
  assert (Hrun : forall rest,
            run_sessions cfg (before ++ s :: rest) [] w = (Raise e, w2)).
  { intros rest. rewrite run_sessions_app, Hb. simpl.
    unfold mbind, M_bind. by rewrite Hs. }
  split_and!.
  - rewrite (main_after_raise _ _ _ _ _ _ (Hrun after)).
    unfold mbind, res_bind. by destruct (quit c), (diagnostic c).
  - by rewrite !(main_after_raise _ _ _ _ e w2).
  - eauto.
  - exact (Hfile e eq_refl).
Qed.

(** Three terms; the navigation of the second raises. *)
Lemma fault_ends_the_run_witness :
  main defaults ([visit [bike]] ++ unreachable [untitled] :: [visit [refund]])
    alive blank
  = (Ok (Unexpected OtherException),
     {| seen_file := Some (py "bici-123" ++ [10]);
        trace :=
          [LogSearching; LogNavigating address; LogCookies false;
           LogScreenshot; LoadSeen;
           LogNewAd bike_ad; LogFound 1; LogCsv [bike_ad]; MailSent [bike_ad];
           AppendSeen (py "bici-123"); LogUpdated 1;
           LogSearching; LogNavigating address]
          ++ [LogUnexpected OtherException]
          ++ [DiagnosticShot]
          ++ [LogClosing] |}).
Proof.
  apply (fault_ends_the_run defaults [visit [bike]] (unreachable [untitled])
           [visit [refund]] alive blank [bike_ad]
           {| seen_file := Some (py "bici-123" ++ [10]);
              trace := [LogSearching; LogNavigating address;
                        LogCookies false; LogScreenshot;
                        LoadSeen; LogNewAd bike_ad; LogFound 1;
                        LogCsv [bike_ad]; MailSent [bike_ad];
                        AppendSeen (py "bici-123"); LogUpdated 1] |}
           OtherException
           {| seen_file := Some (py "bici-123" ++ [10]);
              trace := [LogSearching; LogNavigating address;
                        LogCookies false; LogScreenshot;
                        LoadSeen; LogNewAd bike_ad; LogFound 1;
                        LogCsv [bike_ad]; MailSent [bike_ad];
                        AppendSeen (py "bici-123"); LogUpdated 1;
                        LogSearching; LogNavigating address] |}).
  - vm_compute. reflexivity.
  - vm_compute. reflexivity.
Defined.

(** The same run on a browser that is gone: the capture raises, no
    capture is taken, the closing line is logged and the exception of
    [quit] leaves [main]. *)
Example fault_with_the_browser_gone :
  main defaults [visit [bike]; unreachable [untitled]; visit [refund]]
    gone blank
  = (Raise OtherException,
     {| seen_file := Some (py "bici-123" ++ [10]);
        trace :=
          [LogSearching; LogNavigating address; LogCookies false;
           LogScreenshot; LoadSeen;
           LogNewAd bike_ad; LogFound 1; LogCsv [bike_ad]; MailSent [bike_ad];
           AppendSeen (py "bici-123"); LogUpdated 1;
           LogSearching; LogNavigating address;
           LogUnexpected OtherException; LogClosing] |}).
Proof. vm_compute. reflexivity. Qed.

(** A session whose second append finds the disk full: the first id is in
    the file, followed by what reached it of the second line. *)
Example fault_in_the_append_loop :
  main defaults [full_disk [bike; refund]; visit [untitled]] alive blank
  = (Ok (Unexpected OtherException),
     {| seen_file := Some (py "bici-123" ++ [10] ++ py "val");
        trace :=
          [LogSearching; LogNavigating address; LogCookies false;
           LogScreenshot; LoadSeen;
           LogNewAd bike_ad; LogNewAd refund_ad; LogFound 2;
           LogCsv [bike_ad; refund_ad]; MailSent [bike_ad; refund_ad];
           AppendSeen (py "bici-123");
           LogUnexpected OtherException; DiagnosticShot; LogClosing] |}).
Proof. vm_compute. reflexivity. Qed.

(** C1 as stated fails: with three terms of which the second cannot be
    reached, the third session is never started, its record is neither
    notified nor registered, and the run ends without an aggregate, whereas
    the first and third terms alone give both records. *)
Lemma session_isolation_counterexample :
  main defaults [visit [bike]; unreachable [untitled]; visit [refund]]
    alive blank
  = (Ok (Unexpected OtherException),
     {| seen_file := Some (py "bici-123" ++ [10]);
        trace :=
          [LogSearching; LogNavigating address; LogCookies false;
           LogScreenshot; LoadSeen;
           LogNewAd bike_ad; LogFound 1; LogCsv [bike_ad]; MailSent [bike_ad];
           AppendSeen (py "bici-123"); LogUpdated 1;
           LogSearching; LogNavigating address;
           LogUnexpected OtherException; DiagnosticShot; LogClosing] |})
  /\ (main defaults [visit [bike]; visit [refund]] alive blank).1
     = Ok (Completed [bike_ad; refund_ad]).
Proof. split; vm_compute; reflexivity. Qed.

(** C2, as the code has it.  A session that finds new records appends
    their ids to the seen-ads file in one loop at the end of the session:
    after the extraction pass has gone through all its cards (the lines
    [logged]), after the export and after the alert, in record order, and
    before the next term is searched.  A session that raises before that
    loop leaves the file as it was; one that raises in that loop, a call
    of [save_seen_ad] raising, leaves the ids the calls before it wrote. *)
Theorem ids_appended_after_the_batch
    cfg s all w u cards new_ads logged got batch :
  url s = Ok u -> navigate s = Ok tt ->
  consent s = Ok tt \/ consent s = Raise TimeoutException ->
  expand s = Ok tt -> capture s = Ok tt -> reading s = Ok tt ->
  rendered s = Ok cards ->
  extract_new_ads_logged cards (load_seen_ads (seen_file w)) cfg (now s)
    = (new_ads, logged) ->
  new_ads <> [] ->
  (default false (save_images cfg) = true -> downloads s = Ok got) ->
  export s = Ok tt ->
  (default true (send_email cfg) = true -> compose s = Ok tt) ->
  (forall j, (j < length new_ads)%nat -> store s j = Written) ->
  batch = (if default false (save_images cfg)
           then download_images new_ads got else new_ads) ->
  session_body cfg s all w
  = (Ok (all ++ batch),
     {| seen_file := append_ids (map id new_ads) (seen_file w);
        trace := trace w
          ++ [LogSearching; LogNavigating u;
              LogCookies (match consent s with Ok _ => true | _ => false end);
              LogScreenshot; LoadSeen]
          ++ logged
          ++ [LogFound (length new_ads); LogCsv batch; mail_event cfg s batch]
          ++ map AppendSeen (map id new_ads)
          ++ [LogUpdated (length new_ads)] |})
  /\ (forall s' all' e w',
        session_body cfg s' all' w = (Raise e, w') ->
        seen_file w' = seen_file w
        \/ exists cards' j reached,
             rendered s' = Ok cards'
             /\ (j < length (extract_new_ads cards'
                               (load_seen_ads (seen_file w)) cfg (now s')))%nat
             /\ store s' j = Failed e reached
             /\ (forall i, (i < j)%nat -> store s' i = Written)
             /\ seen_file w'
                = torn_append
                    (map id (extract_new_ads cards'
                               (load_seen_ads (seen_file w)) cfg (now s')))
                    j reached (seen_file w)).
Proof.
  intros Hu Hnav Hcons Hexp Hcap Hread Hren Hext Hne Hdown Hcsv Hcomp Hst ->.
  split.
  - exact (session_body_delivers cfg s all w u cards new_ads logged got
             Hu Hnav Hcons Hexp Hcap Hread Hren Hext Hne Hdown Hcsv Hcomp Hst).
  - intros s' all' e w' Hs.
    destruct (session_body_frame _ _ _ _ _ _ Hs)
      as (evs & _ & _ & _ & Hfile & _).
    exact (Hfile e eq_refl).
Qed.

(** One session showing two new listings. *)
Lemma ids_appended_after_the_batch_witness :
  session_body defaults (visit [bike; refund]) [] blank
  = (Ok [bike_ad; refund_ad],
     {| seen_file := Some (py "bici-123" ++ [10] ++ py "vale-9" ++ [10]);
        trace :=
          [LogSearching; LogNavigating address; LogCookies false;
           LogScreenshot; LoadSeen;
           LogNewAd bike_ad; LogNewAd refund_ad;
           LogFound 2; LogCsv [bike_ad; refund_ad];
           MailSent [bike_ad; refund_ad];
           AppendSeen (py "bici-123"); AppendSeen (py "vale-9");
           LogUpdated 2] |}).
Proof.
  apply (ids_appended_after_the_batch defaults (visit [bike; refund]) [] blank
           address [bike; refund] [bike_ad; refund_ad]
           [LogNewAd bike_ad; LogNewAd refund_ad] [] [bike_ad; refund_ad]);
    first [ reflexivity
          | right; reflexivity
          | discriminate
          | vm_compute; reflexivity ].
Defined.

(** C2 as stated fails: in a session showing two new listings the id of
    the first is appended only after the second card was evaluated and
    accepted, after the export and after the alert; and when the export
    raises, both records had been accepted and no id is appended at all. *)
Lemma immediate_append_counterexample :
  main defaults [visit [bike; refund]] alive blank
  = (Ok (Completed [bike_ad; refund_ad]),
     {| seen_file := Some (py "bici-123" ++ [10] ++ py "vale-9" ++ [10]);
        trace :=
          [LogSearching; LogNavigating address; LogCookies false;
           LogScreenshot; LoadSeen;
           LogNewAd bike_ad; LogNewAd refund_ad;
           LogFound 2; LogCsv [bike_ad; refund_ad];
           MailSent [bike_ad; refund_ad];
           AppendSeen (py "bici-123"); AppendSeen (py "vale-9");
           LogUpdated 2; LogTotal 2; LogClosing] |})
  /\ main defaults [unwritable [bike; refund]] alive blank
     = (Ok (Unexpected OtherException),
        {| seen_file := None;
           trace :=
             [LogSearching; LogNavigating address; LogCookies false;
              LogScreenshot; LoadSeen;
              LogNewAd bike_ad; LogNewAd refund_ad; LogFound 2;
              LogUnexpected OtherException; DiagnosticShot; LogClosing] |}).
Proof. split; vm_compute; reflexivity. Qed.

(** C3, as the code has it.  The seen-ads file is read once per session,
    not once per run: a run that completes has read it as many times as
    there are terms.  A session reads it only once its page was expanded
    and captured: in the log of a session that returns the reading comes
    right after the line about the screenshot and nothing after it reads
    the file again, and a session whose expansion or capture raises has
    not read the file.  The file a session reads is the file of the start
    of the run followed by the ids the earlier sessions of the run
    appended; the set read then, which holds those ids when they read back
    as written, is the seen set of that session's extraction pass. *)
Theorem seen_loaded_once_per_session
    cfg before s after c w unique w' :
  main cfg (before ++ s :: after) c w = (Ok (Completed unique), w') ->
  loads (trace w')
  = (loads (trace w) + length (before ++ s :: after))%nat
  /\ (exists all0 w0 all1 w1 u cards rest,
        run_sessions cfg before [] w = (Ok all0, w0)
        /\ session_body cfg s all0 w0 = (Ok all1, w1)
        /\ expand s = Ok tt /\ capture s = Ok tt /\ rendered s = Ok cards
        /\ trace w1
           = trace w0
             ++ [LogSearching; LogNavigating u;
                 LogCookies (match consent s with Ok _ => true | _ => false end);
                 LogScreenshot; LoadSeen]
             ++ rest
        /\ loads rest = 0%nat
        /\ seen_file w0 = append_ids (map id all0) (seen_file w)
        /\ (well_formed (seen_file w) -> Forall clean (map id all0) ->
            load_seen_ads (seen_file w0)
            = load_seen_ads (seen_file w) ∪ list_to_set (map id all0))
        /\ map id all1
           = map id all0
             ++ map id (extract_new_ads cards
                          (load_seen_ads (seen_file w0)) cfg (now s)))
  /\ (forall s' all' w0 r w1,
        session_body cfg s' all' w0 = (r, w1) ->
        exists evs, trace w1 = trace w0 ++ evs
          /\ (loads evs <= 1)%nat
          /\ (loads evs = 1%nat -> expand s' = Ok tt /\ capture s' = Ok tt)).
Proof.
  intros Hmain. unfold main in Hmain.
  destruct (run_sessions cfg (before ++ s :: after) [] w) as [r wr] eqn:Hrun.
  destruct r as [all|e]; cycle 1.
  { destruct (handler e c wr) as [[[]|e'] wh]; destruct (quit c), e;
      discriminate Hmain. }
  split_and!.
  - destruct (run_sessions_frame _ _ _ _ _ _ Hrun) as (evs & Ht & _ & Heq).
    assert (E : trace w' = trace wr ++ [LogTotal (length (unique_ads all));
                                        LogClosing]).
    { destruct (quit c); simplify_eq; cbn [seen_file trace];
        by rewrite <- app_assoc. }
    rewrite E, Ht, !loads_app, (Heq all eq_refl). simpl. lia.
  - destruct (run_sessions_split _ _ _ _ _ _ _ Hrun)
      as (all0 & w0 & Hbefore & Hrest).
    simpl in Hrest. unfold mbind, M_bind in Hrest.
    destruct (session_body cfg s all0 w0) as [[all1|e] w1] eqn:Hs; [|done].
    destruct (session_ok_spec _ _ _ _ _ _ Hs)
      as (u & cards & batch & rest
          & (Hu & Hnav & Hcons & Hexp & Hcap & Hread & Hren)
          & -> & Hids & Hf & Ht & Hl).
    destruct (run_sessions_books _ _ _ _ _ _ Hbefore) as (added & E & Hf0).
    simpl in E. subst added.
    exists all0, w0, (all0 ++ batch), w1, u, cards, rest.
    split_and!; try done.
    + intros Hwf Hclean. rewrite Hf0. by apply load_append_ids.
    + by rewrite map_app, Hids.
  - intros s' all' w0 r w1 Hs.
    destruct (session_body_frame _ _ _ _ _ _ Hs)
      as (evs & Ht & Hle & Hone & _).
    by exists evs.
Qed.

(** Two terms whose pages both show the bike. *)
Lemma seen_loaded_once_per_session_witness :
  loads [LogSearching; LogNavigating address; LogCookies false;
         LogScreenshot; LoadSeen;
         LogNewAd bike_ad; LogFound 1; LogCsv [bike_ad]; MailSent [bike_ad];
         AppendSeen (py "bici-123"); LogUpdated 1;
         LogSearching; LogNavigating address; LogCookies false;
         LogScreenshot; LoadSeen;
         LogNewAd refund_ad; LogFound 1; LogCsv [refund_ad];
         MailSent [refund_ad]; AppendSeen (py "vale-9"); LogUpdated 1;
         LogTotal 2; LogClosing]
  = (loads (trace blank) + length ([visit [bike]] ++ visit [bike; refund] :: []))%nat.
Proof.
  apply (seen_loaded_once_per_session defaults
           [visit [bike]] (visit [bike; refund]) [] alive blank
           [bike_ad; refund_ad]
           {| seen_file := Some (py "bici-123" ++ [10] ++ py "vale-9" ++ [10]);
              trace :=
                [LogSearching; LogNavigating address; LogCookies false;
                 LogScreenshot; LoadSeen;
                 LogNewAd bike_ad; LogFound 1; LogCsv [bike_ad];
                 MailSent [bike_ad]; AppendSeen (py "bici-123"); LogUpdated 1;
                 LogSearching; LogNavigating address; LogCookies false;
                 LogScreenshot; LoadSeen;
                 LogNewAd refund_ad; LogFound 1; LogCsv [refund_ad];
                 MailSent [refund_ad]; AppendSeen (py "vale-9"); LogUpdated 1;
                 LogTotal 2; LogClosing] |}).
  vm_compute. reflexivity.
Defined.

(** C3 as stated fails: a run over two terms reads the file twice, and the
    second session, whose page shows the bike again, leaves it out because
    its own reading holds the id the first session appended; with the set
    read at the start of the run it would have returned the bike too. *)
Lemma single_snapshot_counterexample :
  main defaults [visit [bike]; visit [bike; refund]] alive blank
  = (Ok (Completed [bike_ad; refund_ad]),
     {| seen_file := Some (py "bici-123" ++ [10] ++ py "vale-9" ++ [10]);
        trace :=
          [LogSearching; LogNavigating address; LogCookies false;
           LogScreenshot; LoadSeen;
           LogNewAd bike_ad; LogFound 1; LogCsv [bike_ad];
           MailSent [bike_ad]; AppendSeen (py "bici-123"); LogUpdated 1;
           LogSearching; LogNavigating address; LogCookies false;
           LogScreenshot; LoadSeen;
           LogNewAd refund_ad; LogFound 1; LogCsv [refund_ad];
           MailSent [refund_ad]; AppendSeen (py "vale-9"); LogUpdated 1;
           LogTotal 2; LogClosing] |})
  /\ loads (trace (main defaults [visit [bike]; visit [bike; refund]]
                     alive blank).2) = 2%nat
  /\ extract_new_ads [bike; refund] (load_seen_ads (seen_file blank))
       defaults stamp
     = [bike_ad; refund_ad].
Proof. split_and!; vm_compute; reflexivity. Qed.

(** C10. When the SMTP dialogue raises, [send_email_alert] logs the error
    and returns; the session goes on: it appends the id of every new record
    to the seen-ads file and adds the records to [all_new_ads].  When the
    ids read back as written (no white space at either end, no line break)
    from a file whose last line is ended, no later extraction pass whose
    seen set is read from that file, even after further appends, returns a
    record with one of those ids. *)
Theorem mail_failure_is_contained
    cfg s all w u cards new_ads logged got batch e :
  url s = Ok u -> navigate s = Ok tt ->
  consent s = Ok tt \/ consent s = Raise TimeoutException ->
  expand s = Ok tt -> capture s = Ok tt -> reading s = Ok tt ->
  rendered s = Ok cards ->
  extract_new_ads_logged cards (load_seen_ads (seen_file w)) cfg (now s)
    = (new_ads, logged) ->
  new_ads <> [] ->
  (default false (save_images cfg) = true -> downloads s = Ok got) ->
  export s = Ok tt ->
  default true (send_email cfg) = true ->
  compose s = Ok tt ->
  smtp s = Raise e ->
  (forall j, (j < length new_ads)%nat -> store s j = Written) ->
  batch = (if default false (save_images cfg)
           then download_images new_ads got else new_ads) ->
  (forall w0, send_email_alert batch s w0
              = (Ok tt, {| seen_file := seen_file w0;
                           trace := trace w0 ++ [LogMailError e] |}))
  /\ session_body cfg s all w
     = (Ok (all ++ batch),
        {| seen_file := append_ids (map id new_ads) (seen_file w);
           trace := trace w
             ++ [LogSearching; LogNavigating u;
                 LogCookies (match consent s with Ok _ => true | _ => false end);
                 LogScreenshot; LoadSeen]
             ++ logged
             ++ [LogFound (length new_ads); LogCsv batch; LogMailError e]
             ++ map AppendSeen (map id new_ads)
             ++ [LogUpdated (length new_ads)] |})
  /\ (well_formed (seen_file w) -> Forall clean (map id new_ads) ->
      forall later cards' cfg' t' a,
        Forall clean later ->
        a ∈ extract_new_ads cards'
              (load_seen_ads
                 (append_ids later
                    (append_ids (map id new_ads) (seen_file w))))
              cfg' t' ->
        id a ∉ map id new_ads).
Proof.
  intros Hu Hnav Hcons Hexp Hcap Hread Hren Hext Hne Hdown Hcsv Hse Hcomp
    Hsmtp Hst Hb.
  split_and!.
  - intros w0. unfold send_email_alert.
    assert (Hbatch : batch <> []).
    { intros E. apply Hne. apply (f_equal length) in E. rewrite Hb in E.
      destruct (default false (save_images cfg));
        [rewrite download_images_length in E|]; by destruct new_ads. }
    destruct batch as [|a l]; [done|].
    unfold mbind, M_bind, lift, emit. by rewrite Hcomp, Hsmtp.
  - pose proof (session_body_delivers cfg s all w u cards new_ads logged got
                  Hu Hnav Hcons Hexp Hcap Hread Hren Hext Hne Hdown Hcsv
                  (fun _ => Hcomp) Hst) as H.
    cbv zeta in H. rewrite <- Hb in H.
    unfold mail_event in H. rewrite Hse, Hsmtp in H. exact H.
  - intros Hwf Hclean later cards' cfg' t' a Hlater Ha Hin.
    apply extract_new_ads_unseen in Ha. apply Ha.
    rewrite !load_append_ids by (done || by apply append_ids_well_formed).
    apply elem_of_union_l, elem_of_union_r, elem_of_list_to_set. exact Hin.
Qed.

(** A session that finds the bike and cannot reach the mail server. *)
Lemma mail_failure_is_contained_witness :
  session_body defaults (undelivered [bike]) [] blank
  = (Ok [bike_ad],
     {| seen_file := Some (py "bici-123" ++ [10]);
        trace :=
          [LogSearching; LogNavigating address; LogCookies false;
           LogScreenshot; LoadSeen;
           LogNewAd bike_ad; LogFound 1; LogCsv [bike_ad];
           LogMailError OtherException;
           AppendSeen (py "bici-123"); LogUpdated 1] |}).
Proof.
  apply (mail_failure_is_contained defaults (undelivered [bike]) [] blank
           address [bike] [bike_ad] [LogNewAd bike_ad] [] [bike_ad]
           OtherException);
    first [ reflexivity
          | right; reflexivity
          | discriminate
          | vm_compute; reflexivity ].
Defined.

Example mail_failure_then_next_run :
  (main defaults [undelivered [bike]] alive blank).1
  = Ok (Completed [bike_ad])
  /\ extract_new_ads [bike; refund]
       (load_seen_ads
          (main defaults [undelivered [bike]] alive blank).2.(seen_file))
       defaults stamp
     = [refund_ad].
Proof. split; vm_compute; reflexivity. Qed.

End RunClaims.

(** * Further properties

    Properties of the functions above and of the functions around them,
    each read off [walla-bot.py]. *)

(** ** [load_all_results], lines 158-186 *)

Section ExpandMore.
Import Expand ExpandState.
#[local] Open Scope nat_scope.
Variable counts : nat -> nat.
Variable max_results : Z.

(** What the state of the loop says on entering iteration [i], and what
    follows for the result. *)
Lemma loop_result fuel :
  forall i last attempts r,
    1 <= i ->
    last = last_count_after counts (i - 1) ->
    attempts <= 1 ->
    (attempts = 1 ->
     2 <= i /\ last_count_after counts (i - 1)
               = last_count_after counts (i - 2)) ->
    (forall j, 1 <= j < i -> (Z.of_nat (counts j) < max_results)%Z) ->
    Expand.loop counts max_results fuel i last attempts = Some r ->
    i <= iterations r
    /\ rendered r = counts (iterations r)
    /\ (forall j, 1 <= j < iterations r ->
          (Z.of_nat (counts j) < max_results)%Z)
    /\ match why r with
       | Reached => (max_results <= Z.of_nat (rendered r))%Z
       | Exhausted =>
           2 <= iterations r
           /\ (Z.of_nat (rendered r) < max_results)%Z
           /\ counts (iterations r)
              = last_count_after counts (iterations r - 1)
           /\ last_count_after counts (iterations r - 1)
              = last_count_after counts (iterations r - 2)
       end.
Proof.
  induction fuel as [|fuel IH]; intros i last attempts r Hi Hlast Hatt Hone Hlow H;
    [discriminate|].
  simpl in H.
  destruct (Z.leb_spec max_results (Z.of_nat (counts i))) as [Hge|Hlt].
  { simplify_eq. simpl. split_and!; [lia | done | done | done]. }
  assert (Hlow' : forall j, 1 <= j < S i ->
            (Z.of_nat (counts j) < max_results)%Z).
  { intros j Hj. destruct (Nat.eq_dec j i) as [->|]; [done | apply Hlow; lia]. }
  assert (Hcur : counts i = last_count_after counts (S i - 1)).
  { replace (S i - 1) with i by lia. by destruct i; [lia|]. }
  destruct (Nat.eqb_spec (counts i) last) as [Heq|Hne].
  - destruct attempts as [|[|a]]; [| |lia]; simpl in H.
    + destruct (IH (S i) (counts i) 1 r) as (H1 & H2 & H3 & H4);
        [lia | done | lia | | done | done | ].
      * intros _. split; [lia|]. rewrite <- Hcur.
        replace (S i - 2) with (i - 1) by lia. by rewrite <- Hlast.
      * split_and!; [lia | done | done | done].
    + simplify_eq. simpl. destruct (Hone eq_refl) as [H2 Hprev].
      split_and!; [lia | done | done | lia | lia | done | done].
  - destruct (IH (S i) (counts i) 0 r) as (H1 & H2 & H3 & H4);
      [lia | done | lia | lia | done | done | ].
    split_and!; [lia | done | done | done].
Qed.

End ExpandMore.

(** X1. [load_all_results] reports an exhausted feed only at an iteration,
    the second at the earliest, where the count is below [max_results] and
    is the one the two iterations before left ([0] before the first
    iteration): never after a single unchanged count. *)
Theorem exhausted_after_two_stalls
    (counts : nat -> nat) (max_results : Z) (fuel : nat) r :
  Expand.load_all_results counts max_results fuel = Some r ->
  Expand.why r = Expand.Exhausted ->
  (2 <= Expand.iterations r)%nat
  /\ (Z.of_nat (Expand.rendered r) < max_results)%Z
  /\ Expand.rendered r = counts (Expand.iterations r)
  /\ counts (Expand.iterations r)
     = ExpandState.last_count_after counts (Expand.iterations r - 1)
  /\ ExpandState.last_count_after counts (Expand.iterations r - 1)
     = ExpandState.last_count_after counts (Expand.iterations r - 2).
Proof.
  intros H Hwhy. unfold Expand.load_all_results in H.
  destruct (loop_result counts max_results fuel 1 0 0 r) as (_ & Hr & _ & Hw);
    [lia | reflexivity | lia | lia | lia | exact H |].
  rewrite Hwhy in Hw. destruct Hw as (H2 & Hlt & Hc & Hp). by split_and!.
Qed.

Lemma exhausted_after_two_stalls_witness :
  (2 <= 5)%nat
  /\ (Z.of_nat 3 < 40)%Z
  /\ 3%nat = Nat.min 5 3
  /\ Nat.min 5 3 = ExpandState.last_count_after (fun i => Nat.min i 3) (5 - 1)
  /\ ExpandState.last_count_after (fun i => Nat.min i 3) (5 - 1)
     = ExpandState.last_count_after (fun i => Nat.min i 3) (5 - 2).
Proof.
  apply (exhausted_after_two_stalls (fun i => Nat.min i 3) 40 5
           {| Expand.why := Expand.Exhausted; Expand.iterations := 5;
              Expand.rendered := 3 |}); reflexivity.
Defined.

(** X2. When [load_all_results] stops because the target is reached, it
    does so at the first iteration whose count is at least [max_results]:
    the count it stops on reaches the target and no earlier one did. *)
Theorem reached_at_first_sufficient_count
    (counts : nat -> nat) (max_results : Z) (fuel : nat) r :
  Expand.load_all_results counts max_results fuel = Some r ->
  Expand.why r = Expand.Reached ->
  (1 <= Expand.iterations r)%nat
  /\ Expand.rendered r = counts (Expand.iterations r)
  /\ (max_results <= Z.of_nat (counts (Expand.iterations r)))%Z
  /\ (forall j, (1 <= j < Expand.iterations r)%nat ->
        (Z.of_nat (counts j) < max_results)%Z).
Proof.
  intros H Hwhy. unfold Expand.load_all_results in H.
  destruct (loop_result counts max_results fuel 1 0 0 r) as (Hi & Hr & Hlow & Hw);
    [lia | reflexivity | lia | lia | lia | exact H |].
  rewrite Hwhy in Hw. rewrite Hr in Hw. by split_and!.
Qed.

Lemma reached_at_first_sufficient_count_witness :
  (1 <= 3)%nat
  /\ 6%nat = (2 * 3)%nat
  /\ (5 <= Z.of_nat (2 * 3))%Z
  /\ (forall j, (1 <= j < 3)%nat -> (Z.of_nat (2 * j) < 5)%Z).
Proof.
  apply (reached_at_first_sufficient_count (fun i => (2 * i)%nat) 5 3
           {| Expand.why := Expand.Reached; Expand.iterations := 3;
              Expand.rendered := 6 |}); reflexivity.
Defined.

(** X3. A page whose count never changes and stays below [max_results]
    costs two iterations when it shows no card at all, the first count
    being the initial [last_count], and three otherwise. *)
Theorem constant_page_iterations
    (counts : nat -> nat) (max_results : Z) (c fuel : nat) :
  (forall j, counts j = c) ->
  (Z.of_nat c < max_results)%Z ->
  (3 <= fuel)%nat ->
  Expand.load_all_results counts max_results fuel
  = Some {| Expand.why := Expand.Exhausted;
            Expand.iterations := if (c =? 0)%nat then 2%nat else 3%nat;
            Expand.rendered := c |}.
Proof.
  intros Hc Hlt Hfuel.
  destruct fuel as [|[|[|fuel]]]; try lia.
  unfold Expand.load_all_results. simpl. rewrite !Hc.
  destruct (Z.leb_spec max_results (Z.of_nat c)); [lia|].
  destruct c as [|c]; simpl.
  - reflexivity.
  - by rewrite Nat.eqb_refl.
Qed.

Lemma constant_page_iterations_witness :
  Expand.load_all_results (fun _ => 7%nat) 40 3
  = Some {| Expand.why := Expand.Exhausted; Expand.iterations := 3;
            Expand.rendered := 7 |}.
Proof.
  apply (constant_page_iterations (fun _ => 7%nat) 40 7 3); [done | lia | lia].
Defined.

(** ** [click_load_more], lines 134-156 *)

Section ClickFacts.
Import Click.

(** A button at which the loop does not return leaves the rest of the
    loop to decide, its click made if it is clickable. *)
Lemma scan_passes b btns :
  settles b = false ->
  scan (b :: btns)
  = ((scan btns).1, clicks_on [b] ++ (scan btns).2).
Proof.
  intros Hs. unfold clicks_on. cbn [scan List.filter map app].
  unfold settles, clickable in *.
  destruct (scan btns) as [found clicks]. cbn [fst snd].
  destruct (text b) as [bt|e] eqn:Ht; [|reflexivity].
  destruct (wanted bt) eqn:Hw; [|destruct (press b); reflexivity].
  destruct (press b) as [[]|e]; [|reflexivity].
  destruct (announce b) as [[]|e]; [discriminate|].
  simpl. unfold label. rewrite Ht. by destruct bt as [[|ch t]|].
Qed.

Lemma scan_settles b btns :
  settles b = true -> scan (b :: btns) = (true, clicks_on [b]).
Proof.
  intros Hs. unfold clicks_on. cbn [scan List.filter map app].
  unfold settles, clickable in *.
  destruct (text b) as [bt|e] eqn:Ht; [|discriminate].
  destruct (wanted bt) eqn:Hw; [|destruct (press b); discriminate].
  destruct (press b) as [[]|e]; [|discriminate].
  destruct (announce b) as [[]|e]; [|discriminate].
  simpl. unfold label. rewrite Ht. by destruct bt as [[|ch t]|].
Qed.

Lemma clicks_on_app l1 l2 : clicks_on (l1 ++ l2) = clicks_on l1 ++ clicks_on l2.
Proof. unfold clicks_on. by rewrite List.filter_app, map_app. Qed.

(** The loop goes through the buttons at which it does not return, clicking
    those that are clickable, and returns at the first one that settles. *)
Lemma scan_none btns :
  Forall (fun b => settles b = false) btns ->
  scan btns = (false, clicks_on btns).
Proof.
  induction 1 as [|b btns Hb _ IH]; [reflexivity|].
  rewrite (scan_passes b btns Hb), IH. cbn [fst snd].
  by rewrite <- clicks_on_app.
Qed.

Lemma scan_first before b after :
  Forall (fun b' => settles b' = false) before ->
  settles b = true ->
  scan (before ++ b :: after) = (true, clicks_on (before ++ [b])).
Proof.
  induction 1 as [|b' before Hb' _ IH]; intros Hb.
  - apply scan_settles, Hb.
  - simpl app. rewrite (scan_passes b' _ Hb'), (IH Hb). cbn [fst snd].
    by rewrite <- clicks_on_app.
Qed.

Lemma scan_false btns clicks :
  scan btns = (false, clicks) -> Forall (fun b => settles b = false) btns.
Proof.
  revert clicks. induction btns as [|b btns IH]; intros clicks H; [constructor|].
  destruct (settles b) eqn:Hb.
  - rewrite (scan_settles b btns Hb) in H. discriminate H.
  - rewrite (scan_passes b btns Hb) in H. constructor; [done|].
    destruct (scan btns) as [found cl]. simpl in H. simplify_eq. by eapply IH.
Qed.

Lemma scan_true btns clicks : scan btns = (true, clicks) -> clicks <> [].
Proof.
  revert clicks. induction btns as [|b btns IH]; intros clicks H; [done|].
  destruct (settles b) eqn:Hb.
  - rewrite (scan_settles b btns Hb) in H. simplify_eq.
    unfold settles in Hb. apply andb_true_iff in Hb as [Hb _].
    unfold clicks_on. simpl. rewrite Hb. discriminate.
  - rewrite (scan_passes b btns Hb) in H.
    destruct (scan btns) as [found cl]. simpl in H. simplify_eq.
    intros E. apply app_eq_nil in E as [_ E]. by eapply IH.
Qed.

(** When every line prints, a button settles as soon as it is clickable. *)
Lemma scan_announced btns :
  Forall (fun b => announce b = Ok tt) btns ->
  scan btns = (false, []) \/ exists t, scan btns = (true, [ByText t]).
Proof.
  induction 1 as [|b btns Hb _ IH]; [by left|]. simpl.
  destruct (text b) as [bt|e]; [|exact IH].
  destruct (wanted bt); [|exact IH].
  destruct (press b); [|exact IH]. rewrite Hb. right. eauto.
Qed.

Lemma starts_with_app_l a b s :
  starts_with (a ++ b) s = true -> starts_with a s = true.
Proof.
  revert s. induction a as [|x a IH]; intros s H; [reflexivity|].
  destruct s as [|y s]; [discriminate|]. simpl in *.
  apply andb_true_iff in H as [-> H]. simpl. by apply IH.
Qed.

(** A text that holds a label holds every beginning of that label. *)
Lemma contains_app_l a b hay :
  contains (a ++ b) hay = true -> contains a hay = true.
Proof.
  induction hay as [|c hay IH]; simpl; intros H.
  - apply orb_true_iff in H as [H|H]; [|discriminate].
    by rewrite (starts_with_app_l a b [] H).
  - apply orb_true_iff in H as [H|H].
    + by rewrite (starts_with_app_l _ _ _ H).
    + rewrite (IH H). apply orb_true_r.
Qed.

End ClickFacts.

(** X4. A call of [click_load_more] that returns [True] has made at
    least one click that returned.  It can click more than one button and
    it can answer [False] after clicking: the line printed after a click on
    a [walla-button] is inside the [try], and when printing it raises the
    loop goes on to the next button.  When each of those lines prints, a
    call that returns has made at most one click, and returns [True]
    exactly when it made one. *)
Theorem click_load_more_clicks_once (p : Click.page) b clicks :
  Click.click_load_more p = Ok (b, clicks) ->
  (b = true -> clicks <> [])
  /\ ((forall btns, Click.walla_buttons p = Ok btns ->
         Forall (fun x => Click.announce x = Ok tt) btns) ->
      (b = true /\ exists target, clicks = [target])
      \/ (b = false /\ clicks = [])).
Proof.
  unfold Click.click_load_more, mbind, res_bind. intros H.
  destruct (Click.find_load_more p) as [[]|[]];
    [destruct (Click.press_load_more p) as [[]|[]]| | |];
    simplify_eq; try (split; [done | eauto]).
  all: destruct (Click.walla_buttons p) as [btns|e]; simplify_eq.
  all: split; [intros ->; by eapply scan_true|].
  all: intros Hall; destruct (scan_announced btns (Hall btns eq_refl))
         as [E|[t E]]; rewrite E in H; simplify_eq; eauto.
Qed.

Lemma click_load_more_clicks_once_witness :
  (true = true ->
   [Click.ByText (py "Ver m" ++ [Click.A_ACUTE] ++ py "s productos")] <> [])
  /\ ((forall btns, Click.walla_buttons MoreSamples.fallback_page = Ok btns ->
         Forall (fun x => Click.announce x = Ok tt) btns) ->
      (true = true
       /\ exists target,
            [Click.ByText (py "Ver m" ++ [Click.A_ACUTE] ++ py "s productos")]
            = [target])
      \/ (true = false
          /\ [Click.ByText (py "Ver m" ++ [Click.A_ACUTE] ++ py "s productos")]
             = [])).
Proof.
  apply (click_load_more_clicks_once MoreSamples.fallback_page).
  vm_compute. reflexivity.
Defined.

(** On a standard output that cannot encode the accented letter both
    matching buttons are clicked and the call answers [False]. *)
Example clicks_without_a_line :
  Click.click_load_more MoreSamples.ascii_console_page
  = Ok (false,
        [Click.ByText (py "Ver m" ++ [Click.A_ACUTE] ++ py "s productos");
         Click.ByText (py "Cargar m" ++ [Click.A_ACUTE] ++ py "s")]).
Proof. vm_compute. reflexivity. Qed.

(** X5. [click_load_more] lets an exception out only when the button
    addressed by id is reported missing and listing the [walla-button]
    elements then raises; whenever that listing succeeds, the call
    returns. *)
Theorem click_load_more_raises_only_from_listing (p : Click.page) e :
  Click.click_load_more p = Raise e ->
  Click.walla_buttons p = Raise e
  /\ (Click.find_load_more p = Raise NoSuchElementException
      \/ (Click.find_load_more p = Ok tt
          /\ Click.press_load_more p = Raise NoSuchElementException)).
Proof.
  unfold Click.click_load_more, mbind, res_bind. intros H.
  destruct (Click.find_load_more p) as [[]|[]];
    [destruct (Click.press_load_more p) as [[]|[]]| | |];
    simplify_eq.
  all: destruct (Click.walla_buttons p) as [btns|e']; simplify_eq; auto.
Qed.

Lemma click_load_more_raises_only_from_listing_witness :
  Click.walla_buttons
    {| Click.find_load_more := Raise NoSuchElementException;
       Click.press_load_more := Ok tt;
       Click.walla_buttons := Raise OtherException |}
  = Raise OtherException
  /\ (Click.find_load_more
        {| Click.find_load_more := Raise NoSuchElementException;
           Click.press_load_more := Ok tt;
           Click.walla_buttons := Raise OtherException |}
      = Raise NoSuchElementException
      \/ (Click.find_load_more
            {| Click.find_load_more := Raise NoSuchElementException;
               Click.press_load_more := Ok tt;
               Click.walla_buttons := Raise OtherException |}
          = Ok tt
          /\ Click.press_load_more
               {| Click.find_load_more := Raise NoSuchElementException;
                  Click.press_load_more := Ok tt;
                  Click.walla_buttons := Raise OtherException |}
             = Raise NoSuchElementException)).
Proof.
  apply (click_load_more_raises_only_from_listing
           {| Click.find_load_more := Raise NoSuchElementException;
              Click.press_load_more := Ok tt;
              Click.walla_buttons := Raise OtherException |} OtherException).
  reflexivity.
Defined.

(** X6. Of the four labels of [button_texts] two decide: a button text is
    wanted exactly when it holds "Cargar mas" or "Ver mas" (with U+00E1),
    the labels "Ver mas productos" and "Ver mas resultados" adding nothing;
    the match is case sensitive. *)
Theorem two_labels_decide (btn_text : pystr) :
  Click.wanted (Some btn_text)
  = Click.contains (py "Cargar m" ++ [Click.A_ACUTE] ++ py "s") btn_text
    || Click.contains (py "Ver m" ++ [Click.A_ACUTE] ++ py "s") btn_text.
Proof.
  assert (Hsub : forall tail,
            Click.contains ((py "Ver m" ++ [Click.A_ACUTE] ++ py "s") ++ tail)
              btn_text = true ->
            Click.contains (py "Ver m" ++ [Click.A_ACUTE] ++ py "s") btn_text
            = true)
    by (intros tail; apply contains_app_l).
  pose proof (Hsub (py " productos")) as H2.
  pose proof (Hsub (py " resultados")) as H4.
  assert (E : Click.wanted (Some btn_text)
              = existsb (fun txt => Click.contains txt btn_text)
                  Click.button_texts).
  { destruct btn_text as [|c t]; [|reflexivity]. reflexivity. }
  rewrite E. unfold Click.button_texts. cbn [existsb].
  change (py "Ver m" ++ [Click.A_ACUTE] ++ py "s productos")
    with ((py "Ver m" ++ [Click.A_ACUTE] ++ py "s") ++ py " productos").
  change (py "Ver m" ++ [Click.A_ACUTE] ++ py "s resultados")
    with ((py "Ver m" ++ [Click.A_ACUTE] ++ py "s") ++ py " resultados").
  destruct (Click.contains (py "Cargar m" ++ [Click.A_ACUTE] ++ py "s") btn_text);
    [reflexivity|].
  destruct (Click.contains (py "Ver m" ++ [Click.A_ACUTE] ++ py "s") btn_text);
    [by rewrite !orb_true_r|].
  cbn [orb].
  destruct (Click.contains _ btn_text); [by discriminate H2|].
  destruct (Click.contains _ btn_text); [by discriminate H4|].
  reflexivity.
Qed.

Example labels_are_case_sensitive :
  Click.wanted (Some (py "ver m" ++ [Click.A_ACUTE] ++ py "s")) = false
  /\ Click.wanted (Some (py "Ver mas")) = false
  /\ Click.wanted (Some (py "... Ver m" ++ [Click.A_ACUTE] ++ py "s ...")) = true.
Proof. vm_compute. auto. Qed.

(** X7. When the button addressed by id is reported missing, the call
    goes through the [walla-button] elements in page order and returns
    [True] at the first one whose text can be read and is wanted, whose
    click returns and whose line prints.  The buttons before it are passed
    over, those of them whose text is wanted and whose click returns
    having been clicked (their line did not print); [False] is returned
    exactly when no button qualifies, the clickable ones all clicked. *)
Theorem fallback_clicks_first_match (p : Click.page) btns :
  Click.find_load_more p = Raise NoSuchElementException ->
  Click.walla_buttons p = Ok btns ->
  (forall before b after,
     btns = before ++ b :: after ->
     Forall (fun b' => Click.settles b' = false) before ->
     Click.settles b = true ->
     Click.click_load_more p
     = Ok (true, Click.clicks_on before ++ [Click.ByText (Click.label b)]))
  /\ (Forall (fun b => Click.settles b = false) btns ->
      Click.click_load_more p = Ok (false, Click.clicks_on btns))
  /\ (forall clicks,
        Click.click_load_more p = Ok (false, clicks) ->
        Forall (fun b => Click.settles b = false) btns).
Proof.
  intros Hf Hb. unfold Click.click_load_more, mbind, res_bind.
  rewrite Hf, Hb. split_and!.
  - intros before b after -> Hbefore Hs.
    rewrite (scan_first before b after Hbefore Hs), clicks_on_app.
    do 3 f_equal. unfold Click.clicks_on. simpl.
    unfold Click.settles in Hs. apply andb_true_iff in Hs as [-> _]. done.
  - intros Hall. by rewrite scan_none.
  - intros clicks H. eapply scan_false. by injection H.
Qed.

Lemma fallback_clicks_first_match_witness :
  (forall before b after,
     [ {| Click.text := Ok (Some (py "Filtros")); Click.press := Ok tt;
          Click.announce := Ok tt |};
       {| Click.text :=
            Ok (Some (py "Ver m" ++ [Click.A_ACUTE] ++ py "s productos"));
          Click.press := Ok tt; Click.announce := Ok tt |};
       {| Click.text := Ok (Some (py "Cargar m" ++ [Click.A_ACUTE] ++ py "s"));
          Click.press := Ok tt; Click.announce := Ok tt |} ]
     = before ++ b :: after ->
     Forall (fun b' => Click.settles b' = false) before ->
     Click.settles b = true ->
     Click.click_load_more MoreSamples.fallback_page
     = Ok (true, Click.clicks_on before ++ [Click.ByText (Click.label b)]))
  /\ (Forall (fun b => Click.settles b = false)
        [ {| Click.text := Ok (Some (py "Filtros")); Click.press := Ok tt;
             Click.announce := Ok tt |};
          {| Click.text :=
               Ok (Some (py "Ver m" ++ [Click.A_ACUTE] ++ py "s productos"));
             Click.press := Ok tt; Click.announce := Ok tt |};
          {| Click.text :=
               Ok (Some (py "Cargar m" ++ [Click.A_ACUTE] ++ py "s"));
             Click.press := Ok tt; Click.announce := Ok tt |} ] ->
      Click.click_load_more MoreSamples.fallback_page
      = Ok (false,
            Click.clicks_on
              [ {| Click.text := Ok (Some (py "Filtros"));
                   Click.press := Ok tt; Click.announce := Ok tt |};
                {| Click.text :=
                     Ok (Some (py "Ver m" ++ [Click.A_ACUTE]
                                 ++ py "s productos"));
                   Click.press := Ok tt; Click.announce := Ok tt |};
                {| Click.text :=
                     Ok (Some (py "Cargar m" ++ [Click.A_ACUTE] ++ py "s"));
                   Click.press := Ok tt; Click.announce := Ok tt |} ]))
  /\ (forall clicks,
        Click.click_load_more MoreSamples.fallback_page = Ok (false, clicks) ->
        Forall (fun b => Click.settles b = false)
          [ {| Click.text := Ok (Some (py "Filtros")); Click.press := Ok tt;
               Click.announce := Ok tt |};
            {| Click.text :=
                 Ok (Some (py "Ver m" ++ [Click.A_ACUTE] ++ py "s productos"));
               Click.press := Ok tt; Click.announce := Ok tt |};
            {| Click.text :=
                 Ok (Some (py "Cargar m" ++ [Click.A_ACUTE] ++ py "s"));
               Click.press := Ok tt; Click.announce := Ok tt |} ]).
Proof.
  apply (fallback_clicks_first_match MoreSamples.fallback_page); reflexivity.
Defined.

(** The page of the witness: the second button settles. *)
Example fallback_page_click :
  Click.click_load_more MoreSamples.fallback_page
  = Ok (true,
        [Click.ByText (py "Ver m" ++ [Click.A_ACUTE] ++ py "s productos")]).
Proof. vm_compute. reflexivity. Qed.

(** ** The search URL and the file names, lines 240-242 and 308-333 *)

(** Closes [c ∉ l] for a list given by literals. *)
Ltac not_in_literal :=
  let H := fresh "H" in
  intros H; vm_compute in H;
  repeat (apply elem_of_cons in H as [H|H]; [discriminate H|]);
  solve [inversion H].

Section SearchFacts.
Import Search.

Lemma alnum_not_underscore c : is_ascii_alnum c = true -> c <> 95 /\ c <> 47.
Proof.
  unfold is_ascii_alnum, is_digit. intros H. split; intros ->; discriminate H.
Qed.

Lemma sub_non_alnum_chars s b :
  Forall (fun c => is_ascii_alnum c = true \/ c = 95) (sub_non_alnum s b).
Proof.
  revert b. induction s as [|c s IH]; intros b; [constructor|]. simpl.
  destruct (is_ascii_alnum c) eqn:Hc; [constructor; auto|].
  destruct b; [apply IH | constructor; auto].
Qed.

Lemma contains_pair_cons x c r :
  Click.contains [x; x] (c :: r)
  = ((x =? c) && match r with d :: _ => x =? d | [] => false end)
    || Click.contains [x; x] r.
Proof.
  cbn [Click.contains starts_with]. destruct r as [|d r]; [reflexivity|].
  by rewrite andb_true_r.
Qed.

(** No two underscores in a row, and none first after a replaced run. *)
Lemma sub_non_alnum_single s :
  forall b,
    Click.contains [95; 95] (sub_non_alnum s b) = false
    /\ (b = true -> forall r, sub_non_alnum s b <> 95 :: r).
Proof.
  induction s as [|c s IH]; intros b; [split; [reflexivity | intros; discriminate]|].
  cbn [sub_non_alnum]. destruct (is_ascii_alnum c) eqn:Hc.
  - destruct (alnum_not_underscore c Hc) as [Hne _].
    destruct (IH false) as [Hn _]. split.
    + rewrite contains_pair_cons, Hn.
      destruct (N.eqb_spec 95 c); [congruence | reflexivity].
    + intros _ r E. congruence.
  - destruct b.
    + apply IH.
    + destruct (IH true) as [Hn Hh]. split; [|discriminate].
      rewrite contains_pair_cons, Hn, N.eqb_refl.
      destruct (sub_non_alnum s true) as [|d r] eqn:E; [reflexivity|].
      destruct (N.eqb_spec 95 d) as [<-|]; [|reflexivity].
      by destruct (Hh eq_refl r).
Qed.

Lemma sub_non_alnum_again s :
  sub_non_alnum (sub_non_alnum s false) false = sub_non_alnum s false
  /\ sub_non_alnum (sub_non_alnum s true) false = sub_non_alnum s true
  /\ sub_non_alnum (sub_non_alnum s true) true = sub_non_alnum s true.
Proof.
  induction s as [|c s (IH1 & IH2 & IH3)]; [done|]. simpl.
  destruct (is_ascii_alnum c) eqn:Hc; simpl; rewrite ?Hc.
  - by rewrite IH1.
  - split_and!; [|done|done]. change (is_ascii_alnum 95) with false.
    cbn iota. by rewrite IH3.
Qed.

Lemma sub_non_alnum_keeps s b :
  List.filter is_ascii_alnum (sub_non_alnum s b) = List.filter is_ascii_alnum s.
Proof.
  revert b. induction s as [|c s IH]; intros b; [reflexivity|]. simpl.
  destruct (is_ascii_alnum c) eqn:Hc; simpl; rewrite ?Hc.
  - by rewrite IH.
  - destruct b; simpl; apply IH.
Qed.

(** A relative name joined to a directory path stays right below it. *)
Lemma path_join_inside dir name :
  dir <> [] -> List.last dir 0 <> 47 -> isabs name = false ->
  path_join dir name = dir ++ 47 :: name.
Proof.
  intros Hd Hl Hn. unfold path_join. rewrite Hn.
  destruct dir as [|d dir]; [done|].
  by destruct (N.eqb_spec (List.last (d :: dir) 0) 47).
Qed.

Lemma rstrip_subseteq s : rstrip s ⊆ s.
Proof.
  assert (H : forall l, lstrip l ⊆ l).
  { induction l as [|c l IH]; [done|]. simpl.
    destruct (is_space c); [|done]. intros x Hx. right. by apply IH. }
  unfold rstrip. intros x Hx.
  apply list_elem_of_In, in_rev, list_elem_of_In, H in Hx.
  by apply list_elem_of_In, in_rev, list_elem_of_In in Hx.
Qed.

Lemma replace_char o n s :
  replace [o] n s = flat_map (fun c => if o =? c then n else [c]) s.
Proof.
  unfold replace. induction s as [|c s IH]; [reflexivity|].
  cbn [replace_from starts_with flat_map length]. rewrite andb_true_r.
  change (1 - 1)%nat with 0%nat. rewrite IH.
  by destruct (o =? c).
Qed.

Lemma replace_char_gone o n s : o ∉ n -> o ∉ replace [o] n s.
Proof.
  intros Hn. rewrite replace_char. induction s as [|c s IH]; simpl.
  - apply not_elem_of_nil.
  - intros H. apply elem_of_app in H as [H|H]; [|done].
    destruct (N.eqb_spec o c) as [->|Hne]; [done|].
    apply list_elem_of_singleton in H. done.
Qed.

Lemma Ok_inj {A} (a b : A) : Ok a = Ok b -> a = b.
Proof. congruence. Qed.

Lemma no_blank_spec l : no_blank l = true <-> 32 ∉ l.
Proof.
  unfold no_blank. rewrite forallb_forall. split.
  - intros H Hin. apply list_elem_of_In, H in Hin. discriminate Hin.
  - intros H c Hc. destruct (N.eqb_spec c 32) as [->|]; [|reflexivity].
    by apply list_elem_of_In in Hc.
Qed.

Lemma no_blank_app a b : no_blank (a ++ b) = no_blank a && no_blank b.
Proof. apply forallb_app. Qed.

Lemma digits_range u c : c ∈ digits u -> 48 <= c <= 57.
Proof.
  induction u; simpl; intros H;
    try (apply elem_of_cons in H as [->|H]; [lia | auto]).
  by apply elem_of_nil in H.
Qed.

Lemma str_int_chars z c : c ∈ str_int z -> c = 45 \/ 48 <= c <= 57.
Proof.
  unfold str_int. destruct (Z.to_int z); intros H.
  - right. by eapply digits_range.
  - apply elem_of_cons in H as [->|H]; [by left | right; by eapply digits_range].
Qed.

End SearchFacts.

(** X8. The keyword put in the screenshot name holds only ASCII letters,
    digits and underscores, never two underscores in a row; it keeps the
    letters and digits of the search term in order, and cleaning it again
    changes nothing. *)
Theorem clean_keyword_shape (search_term : pystr) :
  Forall (fun c => Search.is_ascii_alnum c = true \/ c = 95)
    (Search.clean_keyword search_term)
  /\ Click.contains (py "__") (Search.clean_keyword search_term) = false
  /\ List.filter Search.is_ascii_alnum (Search.clean_keyword search_term)
     = List.filter Search.is_ascii_alnum search_term
  /\ Search.clean_keyword (Search.clean_keyword search_term)
     = Search.clean_keyword search_term.
Proof.
  unfold Search.clean_keyword. split_and!.
  - apply sub_non_alnum_chars.
  - apply (sub_non_alnum_single search_term false).
  - apply sub_non_alnum_keeps.
  - apply (sub_non_alnum_again search_term).
Qed.

Example clean_keyword_samples :
  map (fun s => Search.clean_keyword (py s))
    ["mountain bike"; "a__b"; "  x  "; "-bike_2"; ""; "___"; "a b_c"]%string
  = map py ["mountain_bike"; "a_b"; "_x_"; "_bike_2"; ""; "_"; "a_b_c"]%string.
Proof. vm_compute. reflexivity. Qed.

(** X9. Whatever the search term, the screenshot is written right inside
    [data/screenshots]: the name built from the term and the time stamp
    holds no path separator, the time stamp holding none. *)
Theorem screenshot_stays_in_directory (search_term timestamp : pystr) :
  47 ∉ timestamp ->
  exists name,
    Search.screenshot_path search_term timestamp
    = py "data/screenshots/" ++ name
    /\ (47 ∉ name)
    /\ name = py "wallapop_search_" ++ Search.clean_keyword search_term
                ++ py "_" ++ timestamp ++ py "_screenshot.png".
Proof.
  intros Hts. eexists. split_and!; [| |reflexivity].
  - unfold Search.screenshot_path. rewrite path_join_inside.
    + change Search.SCREENSHOTS_DIR with (py "data/screenshots").
      change (py "data/screenshots/") with (py "data/screenshots" ++ [47]).
      by rewrite <- app_assoc.
    + discriminate.
    + vm_compute. discriminate.
    + reflexivity.
  - rewrite !not_elem_of_app. split_and!; try not_in_literal; [|done].
    intros H. pose proof (sub_non_alnum_chars search_term false) as Hall.
    rewrite Forall_forall in Hall.
    destruct (Hall 47 H) as [Ha|Ha]; discriminate Ha.
Qed.

Lemma screenshot_stays_in_directory_witness :
  exists name,
    Search.screenshot_path (py "mountain bike/e-bike") (py "20240501-100000")
    = py "data/screenshots/" ++ name
    /\ (47 ∉ name)
    /\ name = py "wallapop_search_"
                ++ Search.clean_keyword (py "mountain bike/e-bike")
                ++ py "_" ++ py "20240501-100000" ++ py "_screenshot.png".
Proof.
  apply (screenshot_stays_in_directory (py "mountain bike/e-bike")
           (py "20240501-100000")).
  not_in_literal.
Defined.

(** X10. The search URL never holds a blank: the blanks of the search
    term are turned into "+" and nothing else that is put in the URL holds
    one.  (No other character of the term is escaped.) *)
Theorem search_url_has_no_blank (f : Search.filters) (search_term : pystr) url :
  Search.search_url f (Some search_term) = Ok url ->
  (32 ∉ url)
  /\ exists tail,
       url = py "https://es.wallapop.com/app/search?keywords="
               ++ replace [32] [43] search_term ++ tail.
Proof.
  unfold Search.search_url. intros H.
  destruct (Search.min_price f) as [lo|]; [|discriminate].
  destruct (Search.max_price f) as [hi|]; [|discriminate].
  assert (Hint : forall z, Search.no_blank (Search.str_int z) = true).
  { intros z. apply no_blank_spec. intros Hz.
    apply str_int_chars in Hz as [Hz|Hz]; [discriminate | lia]. }
  assert (Hterm : Search.no_blank (replace [32] [43] search_term) = true).
  { apply no_blank_spec, replace_char_gone. not_in_literal. }
  assert (Hloc : forall key v,
            Search.lookup_location key = Some v -> Search.no_blank v = true).
  { intros key v Hk. unfold Search.lookup_location, Search.locations in Hk.
    destruct (eqb_str _ _); [by simplify_eq|].
    destruct (eqb_str _ _); [by simplify_eq | discriminate]. }
  cbv zeta in H. apply Ok_inj in H. subst url. split.
  - apply no_blank_spec.
    destruct (Search.location f) as [[|c name]|];
      [| destruct (Search.lookup_location (c :: name)) as [v|] eqn:Hv |];
      rewrite ?no_blank_app, ?Hint, ?Hterm, ?(Hloc _ _ Hv);
      vm_compute; reflexivity.
  - destruct (Search.location f) as [[|c name]|];
      [| destruct (Search.lookup_location (c :: name)) as [v|] |];
      rewrite <- ?app_assoc; eexists; reflexivity.
Qed.

Lemma search_url_has_no_blank_witness :
  (32 ∉ py "https://es.wallapop.com/app/search?keywords=mountain+bike&min_sale_price=200&max_sale_price=750&latitude=40.4168&longitude=-3.7038&distance=50000&order_by=newest")
  /\ exists tail,
       py "https://es.wallapop.com/app/search?keywords=mountain+bike&min_sale_price=200&max_sale_price=750&latitude=40.4168&longitude=-3.7038&distance=50000&order_by=newest"
       = py "https://es.wallapop.com/app/search?keywords="
           ++ replace [32] [43] (py "mountain bike") ++ tail.
Proof.
  apply (search_url_has_no_blank MoreSamples.madrid_bikes (py "mountain bike")).
  vm_compute. reflexivity.
Defined.

(** X11. Only "madrid" and "barcelona", in any mix of upper and lower
    case, restrict the search to a place: any other configured location is
    ignored without a word and gives the URL of a configuration with no
    location at all; and two spellings of a name that differ in case only
    give the same URL. *)
Theorem unknown_location_is_ignored
    (f : Search.filters) (name : pystr) (search_term : option pystr) :
  (Search.lookup_location name = None ->
   Search.search_url (Search.with_location f (Some name)) search_term
   = Search.search_url (Search.with_location f None) search_term)
  /\ (forall name',
        name <> [] -> name' <> [] -> map lower name = map lower name' ->
        Search.search_url (Search.with_location f (Some name)) search_term
        = Search.search_url (Search.with_location f (Some name')) search_term)
  /\ (Search.lookup_location name <> None <->
      map lower name = py "madrid" \/ map lower name = py "barcelona").
Proof.
  split_and!.
  - intros Hn. unfold Search.search_url, Search.with_location. simpl.
    destruct name as [|c name]; [reflexivity|]. by rewrite Hn.
  - intros name' Hne Hne' Heq. unfold Search.search_url, Search.with_location.
    simpl. destruct name as [|c name]; [done|].
    destruct name' as [|c' name']; [done|].
    unfold Search.lookup_location. by rewrite Heq.
  - unfold Search.lookup_location, Search.locations, eqb_str.
    repeat case_bool_decide; split; intros Hx; try done; tauto.
Qed.

Example location_samples :
  Search.search_url MoreSamples.madrid_bikes (Some (py "mountain bike"))
  = Ok (py "https://es.wallapop.com/app/search?keywords=mountain+bike&min_sale_price=200&max_sale_price=750&latitude=40.4168&longitude=-3.7038&distance=50000&order_by=newest")
  /\ Search.search_url
       (Search.with_location MoreSamples.madrid_bikes (Some (py "Sevilla")))
       (Some (py "bici"))
     = Ok (py "https://es.wallapop.com/app/search?keywords=bici&min_sale_price=200&max_sale_price=750&order_by=newest")
  /\ Search.search_url
       {| Search.min_price := None; Search.max_price := Some 750%Z;
          Search.location := None; Search.radius_km := None |}
       (Some (py "bici"))
     = Raise OtherException.
Proof. vm_compute. auto. Qed.

(** ** [extract_new_ads], lines 188-226 *)

Section ExtractMore.
Import Data Extract Views.

Lemma split_no_sep_inside sep s : Forall (fun seg => sep ∉ seg) (split sep s).
Proof.
  induction s as [|c s IH]; simpl.
  - constructor; [apply not_elem_of_nil | constructor].
  - destruct (N.eqb_spec c sep) as [->|Hne].
    + constructor; [apply not_elem_of_nil | exact IH].
    + pose proof (split_nonempty sep s) as Hn.
      destruct (split sep s) as [|seg segs]; [done|].
      apply Forall_cons in IH as [H1 H2]. constructor; [|exact H2].
      intros Hin. apply elem_of_cons in Hin as [->|Hin]; done.
Qed.

(** A text either holds no separator or ends, after its last separator,
    with a text that holds none. *)
Lemma last_separator sep (s : pystr) :
  sep ∉ s \/ exists a b, s = a ++ sep :: b /\ sep ∉ b.
Proof.
  induction s as [|c s IH]; [left; apply not_elem_of_nil|].
  destruct IH as [Hn|(a & b & -> & Hb)].
  - destruct (N.eq_dec c sep) as [->|Hne].
    + right. by exists [], s.
    + left. intros Hin. apply elem_of_cons in Hin as [->|Hin]; done.
  - right. by exists (c :: a), b.
Qed.

Lemma item_id_of_spec h :
  (47 ∉ item_id_of h)
  /\ (h = item_id_of h \/ exists p, h = p ++ 47 :: item_id_of h).
Proof.
  unfold item_id_of. destruct (last_separator 47 h) as [Hn|(a & b & -> & Hb)].
  - rewrite (split_no_sep 47 h Hn). simpl. auto.
  - rewrite split_app_sep, (split_no_sep 47 b Hb), last_last. eauto.
Qed.

Lemma resolve_blank_path cfg t c hr iid a w :
  resolve cfg t c hr iid = Ok (Some (a, w)) ->
  image_path a = None
  /\ (image_url a <> None -> default false (save_images cfg) = true).
Proof.
  unfold resolve, mbind, res_bind. intros H.
  repeat case_match; simplify_eq; simpl; split; done.
Qed.

Lemma accepted_link seen cfg t c a :
  accepted seen cfg t c = Some a -> card_link c = Some (link a).
Proof.
  intros H. apply accepted_inv in H as [w H].
  apply card_body_inv in H as (hr & Hh & Hne & _ & Hr).
  apply resolve_inv in Hr as (_ & Hl & _). unfold card_link. rewrite Hh.
  destruct hr; [done|]. by rewrite Hl.
Qed.

Lemma links_sublist seen cfg t cards :
  map link (omap (accepted seen cfg t) cards) `sublist_of` omap card_link cards.
Proof.
  induction cards as [|c cards IH]; [constructor|]. simpl.
  destruct (accepted seen cfg t c) as [a|] eqn:Ha.
  - rewrite (accepted_link _ _ _ _ _ Ha). simpl. by apply sublist_skip.
  - destruct (card_link c); [by apply sublist_cons | exact IH].
Qed.

Lemma slice_to_prefix {A} n (l : list A) : exists rest, l = slice_to n l ++ rest.
Proof.
  unfold slice_to. destruct (0 <=? n)%Z; eexists; symmetry; apply take_drop.
Qed.

Lemma omap_length_le {A B} (f : A -> option B) l :
  (length (omap f l) <= length l)%nat.
Proof.
  induction l as [|x l IH]; [done|]. simpl.
  destruct (f x); simpl; [apply le_n_S, IH | apply Nat.le_le_succ_r, IH].
Qed.

(** The seen set only filters: a card is accepted with a larger seen set
    exactly when it is accepted with the smaller one and its id is not among
    the ids added. *)
Lemma accepted_union seen more cfg t c :
  accepted (seen ∪ more) cfg t c
  = match accepted seen cfg t c with
    | Some a => if bool_decide (id a ∈ more) then None else Some a
    | None => None
    end.
Proof.
  unfold accepted, card_body, mbind, res_bind.
  destruct (href c) as [[[|ch tl]|]|e]; try reflexivity.
  set (hr := ch :: tl).
  destruct (bool_decide (item_id_of hr ∈ seen)) eqn:Hs.
  - apply bool_decide_eq_true in Hs.
    rewrite bool_decide_eq_true_2 by (by apply elem_of_union_l). reflexivity.
  - apply bool_decide_eq_false in Hs.
    destruct (resolve cfg t c hr (item_id_of hr)) as [[[a w]|]|e] eqn:Hr.
    + apply resolve_inv in Hr as (Hid & _). rewrite Hid.
      destruct (bool_decide (item_id_of hr ∈ more)) eqn:Hm.
      * apply bool_decide_eq_true in Hm.
        rewrite bool_decide_eq_true_2 by (by apply elem_of_union_r). reflexivity.
      * apply bool_decide_eq_false in Hm.
        rewrite bool_decide_eq_false_2; [reflexivity|].
        intros Hin. apply elem_of_union in Hin as [?|?]; done.
    + by destruct (bool_decide (item_id_of hr ∈ seen ∪ more)).
    + by destruct (bool_decide (item_id_of hr ∈ seen ∪ more)).
Qed.

Lemma logged_ads_extract seen cfg t cards :
  logged_ads (extract_cards seen cfg t cards).2
  = (extract_cards seen cfg t cards).1.
Proof.
  induction cards as [|c cards IH]; [reflexivity|]. simpl.
  destruct (extract_cards seen cfg t cards) as [ads evs]. simpl in IH.
  destruct (card_body seen cfg t c) as [[[a [|]]|]|e]; simpl;
    unfold logged_ads in *; simpl; by rewrite ?IH.
Qed.

Lemma extract_cards_app seen cfg t l1 l2 :
  extract_cards seen cfg t (l1 ++ l2)
  = ((extract_cards seen cfg t l1).1 ++ (extract_cards seen cfg t l2).1,
     (extract_cards seen cfg t l1).2 ++ (extract_cards seen cfg t l2).2).
Proof.
  induction l1 as [|c l1 IH]; simpl.
  - by destruct (extract_cards seen cfg t l2).
  - rewrite IH. destruct (extract_cards seen cfg t l1) as [ads evs].
    destruct (card_body seen cfg t c) as [[[a [|]]|]|e]; simpl;
      by rewrite <- ?app_assoc.
Qed.

Lemma extracted_id_no_slash cards seen cfg t a :
  a ∈ extract_new_ads cards seen cfg t -> 47 ∉ id a.
Proof.
  rewrite extract_new_ads_omap. intros Ha.
  apply list_elem_of_omap in Ha as (c & _ & Hacc).
  apply accepted_inv in Hacc as [w Hb].
  apply card_body_inv in Hb as (hr & _ & _ & _ & Hr).
  apply resolve_inv in Hr as (Hid & _). rewrite Hid.
  apply item_id_of_spec.
Qed.

(** How the image of an accepted card shows in its record. *)
Lemma resolve_image cfg t c hr iid a w :
  resolve cfg t c hr iid = Ok (Some (a, w)) ->
  if default false (save_images cfg)
  then (exists src, img_src c = Ok src /\ image_url a = Some src /\ w = false)
       \/ (img_src c = Raise NoSuchElementException
           /\ image_url a = None /\ w = true)
  else image_url a = None /\ w = false.
Proof.
  unfold resolve, mbind, res_bind. intros H.
  repeat case_match; simplify_eq; simpl; eauto.
Qed.

(** A card whose image cannot be found still gives its record, without
    the [image_url] key. *)
Lemma card_body_without_image seen cfg t c a w :
  card_body seen cfg t c = Ok (Some (a, w)) ->
  card_body seen cfg t (without_image c)
  = Ok (Some (bare a, default false (save_images cfg))).
Proof.
  unfold card_body, resolve, without_image, bare, mbind, res_bind.
  cbn [href title_attr title_text price_text img_src].
  intros H. repeat case_match; simplify_eq; reflexivity.
Qed.

(** A slice that takes the whole list takes the whole of a shorter one. *)
Lemma slice_to_whole {A} n (l l' : list A) :
  slice_to n l = l -> l <> [] -> (length l' <= length l)%nat ->
  slice_to n l' = l'.
Proof.
  unfold slice_to. intros H Hne Hle.
  apply (f_equal length) in H.
  destruct (Z.leb_spec 0 n); rewrite length_take in H.
  - apply firstn_all2. lia.
  - destruct l; [done|]. simpl in H. lia.
Qed.

End ExtractMore.

(** X12. A pass returns at most as many records as [max_results] allows
    (40 when the key is missing), and never more than there are cards; a
    negative [max_results] leaves out that many cards at the end of the
    page. *)
Theorem extraction_is_capped cards seen cfg t :
  (length (Extract.extract_new_ads cards seen cfg t) <= length cards)%nat
  /\ (forall m, Data.max_results cfg = Some m -> (0 <= m)%Z ->
        (length (Extract.extract_new_ads cards seen cfg t) <= Z.to_nat m)%nat)
  /\ (Data.max_results cfg = None ->
        (length (Extract.extract_new_ads cards seen cfg t) <= 40)%nat)
  /\ (forall m, Data.max_results cfg = Some m -> (m < 0)%Z ->
        (length (Extract.extract_new_ads cards seen cfg t)
         <= length cards - Z.to_nat (- m))%nat).
Proof.
  rewrite extract_new_ads_omap.
  pose proof (omap_length_le (Extract.accepted seen cfg t)
                (Extract.slice_to (default 40%Z (Data.max_results cfg)) cards))
    as Hle.
  unfold Extract.slice_to in *. split_and!.
  - destruct (0 <=? _)%Z; rewrite length_take in Hle;
      (eapply Nat.le_trans; [exact Hle | apply Nat.le_min_r]).
  - intros m Hm H0. rewrite Hm in *. simpl in *.
    destruct (Z.leb_spec 0 m); [|lia]. rewrite length_take in Hle.
    eapply Nat.le_trans; [exact Hle | apply Nat.le_min_l].
  - intros Hm. rewrite Hm in *. simpl in *. rewrite length_take in Hle.
    eapply Nat.le_trans; [exact Hle | apply Nat.le_min_l].
  - intros m Hm H0. rewrite Hm in *. simpl in *.
    destruct (Z.leb_spec 0 m); [lia|]. rewrite length_take in Hle.
    eapply Nat.le_trans; [exact Hle | apply Nat.le_min_l].
Qed.

(** X13. The records of a pass come in the order of the cards: their
    links are, in order, links of cards of the page. *)
Theorem records_follow_card_order cards seen cfg t :
  map Data.link (Extract.extract_new_ads cards seen cfg t)
    `sublist_of` omap Views.card_link cards.
Proof.
  rewrite extract_new_ads_omap.
  destruct (slice_to_prefix (default 40%Z (Data.max_results cfg)) cards)
    as [rest E].
  transitivity (omap Views.card_link
                  (Extract.slice_to (default 40%Z (Data.max_results cfg)) cards)).
  - apply links_sublist.
  - rewrite E at 2. rewrite omap_app. by apply sublist_inserts_r.
Qed.

(** X14. Every record of a pass has the link of one of the cards, a link
    that is not empty; its id is what follows the last "/" of that link and
    so holds no "/" itself; it is stamped with the time of the pass, has no
    [image_path] yet, and its id is not in the seen set. *)
Theorem record_shape cards seen cfg t a :
  a ∈ Extract.extract_new_ads cards seen cfg t ->
  Data.link a <> []
  /\ Data.id a = Extract.item_id_of (Data.link a)
  /\ (47 ∉ Data.id a)
  /\ (Data.link a = Data.id a
      \/ exists p, Data.link a = p ++ 47 :: Data.id a)
  /\ Data.extracted_at_date a = t
  /\ Data.image_path a = None
  /\ (Data.id a ∉ seen)
  /\ (exists c, c ∈ cards /\ Data.href c = Ok (Some (Data.link a))).
Proof.
  intros Ha. pose proof (extract_new_ads_unseen _ _ _ _ _ Ha) as Hseen.
  rewrite extract_new_ads_omap in Ha.
  apply list_elem_of_omap in Ha as (c & Hc & Hacc).
  apply accepted_inv in Hacc as [w Hb].
  apply card_body_inv in Hb as (hr & Hh & Hne & _ & Hr).
  destruct (resolve_blank_path _ _ _ _ _ _ _ Hr) as [Hp _].
  apply resolve_inv in Hr as (Hid & Hl & Ht & _).
  destruct (item_id_of_spec hr) as [Hno Hend]. subst hr.
  rewrite <- Hid in Hno, Hend.
  split_and!; try done.
  exists c. split; [by eapply slice_to_subseteq | done].
Qed.

Lemma record_shape_witness :
  Data.link Samples.bike_ad <> []
  /\ Data.id Samples.bike_ad = Extract.item_id_of (Data.link Samples.bike_ad)
  /\ (47 ∉ Data.id Samples.bike_ad)
  /\ (Data.link Samples.bike_ad = Data.id Samples.bike_ad
      \/ exists p, Data.link Samples.bike_ad = p ++ 47 :: Data.id Samples.bike_ad)
  /\ Data.extracted_at_date Samples.bike_ad = Samples.stamp
  /\ Data.image_path Samples.bike_ad = None
  /\ (Data.id Samples.bike_ad ∉ (∅ : gset pystr))
  /\ (exists c, c ∈ [Samples.bike; Samples.refund]
                /\ Data.href c = Ok (Some (Data.link Samples.bike_ad))).
Proof.
  apply (record_shape [Samples.bike; Samples.refund] ∅ Samples.defaults
           Samples.stamp Samples.bike_ad).
  vm_compute. left.
Defined.

(** X15. The seen set only filters: with more ids in the seen set, a pass
    over the same cards returns the records it returned before, in the same
    order, less those with one of the added ids. *)
Theorem seen_set_filters (cards : list Data.card) (seen more : gset pystr)
    (cfg : Data.config) (t : pystr) :
  Extract.extract_new_ads cards (seen ∪ more) cfg t
  = filter (fun a => Data.id a ∉ more)
      (Extract.extract_new_ads cards seen cfg t).
Proof.
  rewrite !extract_new_ads_omap.
  induction (Extract.slice_to (default 40%Z (Data.max_results cfg)) cards)
    as [|c cs IH]; [reflexivity|].
  cbn [omap list_omap]. rewrite accepted_union.
  destruct (Extract.accepted seen cfg t c) as [a|]; [|exact IH].
  case_bool_decide as Hm.
  - rewrite filter_cons_False by (intros Hn; by apply Hn). exact IH.
  - rewrite filter_cons_True by done. by rewrite <- IH.
Qed.

(** X16. The records of a pass stand, in order, beside the cards of the
    page they were built from.  A record carries an [image_url] only when
    [save_images] is on; then it is the [src] of the image of its own card,
    the card whose link the record carries.  A card whose image lookup
    raises [NoSuchElementException] still yields its record: the record the
    card gives, less the [image_url] key, with a warning logged when
    [save_images] is on. *)
Theorem image_url_on_request cards seen cfg t :
  (exists cs, cs `sublist_of` cards
     /\ Forall2 (fun c a =>
                   Extract.accepted seen cfg t c = Some a
                   /\ Data.href c = Ok (Some (Data.link a))
                   /\ if default false (Data.save_images cfg)
                      then (exists src, Data.img_src c = Ok src
                                        /\ Data.image_url a = Some src)
                           \/ (Data.img_src c = Raise NoSuchElementException
                               /\ Data.image_url a = None)
                      else Data.image_url a = None)
          cs (Extract.extract_new_ads cards seen cfg t))
  /\ (forall c a w,
        Extract.card_body seen cfg t c = Ok (Some (a, w)) ->
        Extract.card_body seen cfg t (Views.without_image c)
        = Ok (Some (Views.bare a, default false (Data.save_images cfg)))).
Proof.
  split.
  - destruct (records_of_cards cards seen cfg t) as (cs & Hsub & Hall).
    exists cs. split; [done|].
    eapply Forall2_impl; [exact Hall|]. intros c a Hacc.
    destruct (accepted_spec _ _ _ _ _ Hacc) as (Hh & _).
    split_and!; [done | done |].
    apply accepted_inv in Hacc as [w Hb].
    apply card_body_inv in Hb as (hr & _ & _ & _ & Hr).
    apply resolve_image in Hr.
    destruct (default false (Data.save_images cfg)).
    + destruct Hr as [(src & H1 & H2 & _)|(H1 & H2 & _)]; eauto.
    + tauto.
  - apply card_body_without_image.
Qed.

(** With [save_images] on, a page whose card has no image. *)
Example record_without_image :
  Extract.extract_new_ads_logged [Samples.bike] ∅
    {| Data.max_results := None; Data.save_images := Some true;
       Data.send_email := None |} Samples.stamp
  = ([Samples.bike_ad],
     [Data.LogImageMissing (py "Bici"); Data.LogNewAd Samples.bike_ad]).
Proof. vm_compute. reflexivity. Qed.

(** X17. Every record a pass returns has its "NEW AD" line in the log, in
    the same order, and the log has no such line for anything else. *)
Theorem every_record_is_logged cards seen cfg t :
  Views.logged_ads (Extract.extract_new_ads_logged cards seen cfg t).2
  = Extract.extract_new_ads cards seen cfg t.
Proof. apply logged_ads_extract. Qed.

(** X18. A card among those a pass processes (the first [max_results]
    of the page) on which a WebDriver call raises is logged as an error and
    yields no record: the pass returns the records of the other cards it
    processes.  The card still takes its place among the cards processed:
    only when the pass processes the whole page is its result the result
    of the pass over the page without that card. *)
Theorem faulty_card_is_skipped cards seen cfg t c e before after :
  Extract.slice_to (default 40%Z (Data.max_results cfg)) cards
  = before ++ c :: after ->
  Extract.card_body seen cfg t c = Raise e ->
  Extract.extract_new_ads cards seen cfg t
  = (Extract.extract_cards seen cfg t (before ++ after)).1
  /\ Data.LogCardError e
       ∈ (Extract.extract_new_ads_logged cards seen cfg t).2
  /\ (Extract.slice_to (default 40%Z (Data.max_results cfg)) cards = cards ->
      Extract.extract_new_ads cards seen cfg t
      = Extract.extract_new_ads (before ++ after) seen cfg t).
Proof.
  intros Hslice Hb.
  assert (E : Extract.extract_new_ads cards seen cfg t
              = (Extract.extract_cards seen cfg t (before ++ after)).1).
  { unfold Extract.extract_new_ads, Extract.extract_new_ads_logged.
    rewrite Hslice, !extract_cards_app. cbn [fst snd]. simpl.
    destruct (Extract.extract_cards seen cfg t after). by rewrite Hb. }
  split_and!; [exact E | |].
  - unfold Extract.extract_new_ads_logged.
    rewrite Hslice, extract_cards_app. cbn [fst snd].
    apply elem_of_app. right. simpl.
    destruct (Extract.extract_cards seen cfg t after). rewrite Hb. simpl. left.
  - intros Hall. rewrite E.
    unfold Extract.extract_new_ads, Extract.extract_new_ads_logged.
    rewrite (slice_to_whole _ cards (before ++ after) Hall); [done | |].
    + rewrite <- Hall, Hslice. by destruct before.
    + rewrite <- Hall, Hslice, !length_app. simpl. lia.
Qed.

Lemma faulty_card_is_skipped_witness :
  Extract.extract_new_ads
    [Samples.bike; MoreSamples.unpriced; Samples.refund] ∅
    Samples.defaults Samples.stamp
  = (Extract.extract_cards ∅ Samples.defaults Samples.stamp
       ([Samples.bike] ++ [Samples.refund])).1
  /\ Data.LogCardError NoSuchElementException
       ∈ (Extract.extract_new_ads_logged
            [Samples.bike; MoreSamples.unpriced; Samples.refund] ∅
            Samples.defaults Samples.stamp).2
  /\ (Extract.slice_to (default 40%Z (Data.max_results Samples.defaults))
        [Samples.bike; MoreSamples.unpriced; Samples.refund]
      = [Samples.bike; MoreSamples.unpriced; Samples.refund] ->
      Extract.extract_new_ads
        [Samples.bike; MoreSamples.unpriced; Samples.refund] ∅
        Samples.defaults Samples.stamp
      = Extract.extract_new_ads ([Samples.bike] ++ [Samples.refund]) ∅
          Samples.defaults Samples.stamp).
Proof.
  apply (faulty_card_is_skipped
           [Samples.bike; MoreSamples.unpriced; Samples.refund] ∅
           Samples.defaults Samples.stamp
           MoreSamples.unpriced NoSuchElementException
           [Samples.bike] [Samples.refund]).
  - reflexivity.
  - vm_compute. reflexivity.
Defined.

(** With room for two cards only, the faulty card takes the place of the
    third: without it the pass returns one record more. *)
Example faulty_card_takes_a_place :
  map Data.id
    (Extract.extract_new_ads
       [MoreSamples.unpriced; Samples.bike; Samples.refund] ∅
       {| Data.max_results := Some 2%Z; Data.save_images := None;
          Data.send_email := None |} Samples.stamp)
  = [py "bici-123"]
  /\ map Data.id
       (Extract.extract_new_ads [Samples.bike; Samples.refund] ∅
          {| Data.max_results := Some 2%Z; Data.save_images := None;
             Data.send_email := None |} Samples.stamp)
     = [py "bici-123"; py "vale-9"].
Proof. split; vm_compute; reflexivity. Qed.

(** X19. The image of a record is written right inside [product_images],
    whatever its title and link: the file name built from the id and the
    title holds no path separator, provided "/" is not alphanumeric. *)
Theorem image_stays_in_directory (isalnum : N -> bool) cards seen cfg t a :
  isalnum 47 = false ->
  a ∈ Extract.extract_new_ads cards seen cfg t ->
  exists name,
    Search.image_file isalnum a = py "product_images/" ++ name
    /\ (47 ∉ name)
    /\ name = Data.id a ++ py "_"
                ++ firstn 30 (Search.safe_title isalnum (Data.title a))
                ++ py ".jpg".
Proof.
  intros Hal Ha. apply extracted_id_no_slash in Ha as Hid.
  assert (Hsafe : 47 ∉ firstn 30 (Search.safe_title isalnum (Data.title a))).
  { intros Hin. apply subseteq_take, rstrip_subseteq in Hin.
    apply list_elem_of_In, filter_In in Hin as [_ Hin].
    rewrite Hal in Hin. discriminate Hin. }
  eexists. split_and!; [| |reflexivity].
  - unfold Search.image_file. rewrite path_join_inside.
    + change Search.IMAGES_DIR with (py "product_images").
      change (py "product_images/") with (py "product_images" ++ [47]).
      by rewrite <- app_assoc.
    + discriminate.
    + vm_compute. discriminate.
    + unfold Search.isabs. destruct (Data.id a) as [|c r] eqn:E; [reflexivity|].
      simpl. destruct (N.eqb_spec c 47) as [->|]; [|reflexivity].
      exfalso. apply Hid. left.
  - rewrite !not_elem_of_app. split_and!; [done | not_in_literal | done | not_in_literal].
Qed.

Lemma image_stays_in_directory_witness :
  exists name,
    Search.image_file MoreSamples.ascii_alnum Samples.bike_ad
    = py "product_images/" ++ name
    /\ (47 ∉ name)
    /\ name = Data.id Samples.bike_ad ++ py "_"
                ++ firstn 30 (Search.safe_title MoreSamples.ascii_alnum
                                (Data.title Samples.bike_ad))
                ++ py ".jpg".
Proof.
  apply (image_stays_in_directory MoreSamples.ascii_alnum [Samples.bike] ∅
           Samples.defaults Samples.stamp Samples.bike_ad).
  - reflexivity.
  - vm_compute. left.
Defined.

Example image_file_sample :
  Search.image_file MoreSamples.ascii_alnum
    {| Data.id := py "bici-123"; Data.title := py "Bici (de monte), 26''  ";
       Data.price := Finite false 750 0; Data.link := py "x/bici-123";
       Data.extracted_at_date := []; Data.image_url := Some None;
       Data.image_path := None |}
  = py "product_images/bici-123_Bici de monte 26.jpg".
Proof. vm_compute. reflexivity. Qed.

(** ** [load_seen_ads] and [save_seen_ad], lines 105-115 *)

Section RegistryMore.
Import Registry.

Lemma lstrip_subseteq s : lstrip s ⊆ s.
Proof.
  induction s as [|c s IH]; [done|]. simpl.
  destruct (is_space c); [|done]. intros x Hx. right. by apply IH.
Qed.

Lemma strip_subseteq s : strip s ⊆ s.
Proof.
  unfold strip. intros x Hx. by apply rstrip_subseteq, lstrip_subseteq in Hx.
Qed.

Lemma lstrip_head s :
  lstrip s = [] \/ exists c r, lstrip s = c :: r /\ is_space c = false.
Proof.
  induction s as [|c s IH]; [by left|]. simpl.
  destruct (is_space c) eqn:Hc; [exact IH | right; eauto].
Qed.

Lemma lstrip_again s : lstrip (lstrip s) = lstrip s.
Proof.
  destruct (lstrip_head s) as [->|(c & r & -> & Hc)]; [reflexivity|].
  simpl. by rewrite Hc.
Qed.

Lemma lstrip_snoc l h :
  is_space h = false -> exists l', lstrip (l ++ [h]) = l' ++ [h].
Proof.
  intros Hh. induction l as [|c l IH]; simpl.
  - rewrite Hh. by exists [].
  - destruct (is_space c); [exact IH | by exists (c :: l)].
Qed.

(** What [strip] returns has no white space at either end. *)
Lemma strip_again s : strip (strip s) = strip s.
Proof.
  assert (Hr : rstrip (strip s) = strip s).
  { unfold strip, rstrip at 1 2. by rewrite rev_involutive, lstrip_again. }
  assert (Hl : lstrip (strip s) = strip s).
  { unfold strip, rstrip.
    destruct (lstrip_head s) as [->|(c & r & -> & Hc)]; [reflexivity|].
    change (rev (c :: r)) with (rev r ++ [c]).
    destruct (lstrip_snoc (rev r) c Hc) as [l' E]. rewrite E, rev_unit.
    simpl. by rewrite Hc. }
  unfold strip at 1. by rewrite Hl, Hr.
Qed.

Lemma universal_newlines_no_cr s : 13 ∉ universal_newlines s.
Proof.
  remember (length s) as n eqn:Hn. revert s Hn.
  induction n as [n IH] using lt_wf_ind. intros s Hn.
  destruct s as [|c s]; [apply not_elem_of_nil|].
  destruct (N.eq_dec c 13) as [->|Hc].
  - rewrite universal_newlines_cr. intros Hin.
    apply elem_of_cons in Hin as [Hin|Hin]; [discriminate Hin|].
    revert Hin. destruct s as [|d s].
    + apply not_elem_of_nil.
    + assert (Hlt : forall t : pystr, (length t <= length (d :: s))%nat ->
                      13 ∉ universal_newlines t).
      { intros t Ht. apply (IH (length t)); [simpl in *; lia | reflexivity]. }
      destruct (N.eq_dec d 10) as [->|Hd]; [apply Hlt; simpl; lia|].
      replace (match d :: s with 10 :: s' => s' | _ => d :: s end) with (d :: s).
      * by apply Hlt.
      * destruct d as [|p]; [reflexivity|].
        repeat (destruct p as [p|p|]; try reflexivity). done.
  - rewrite universal_newlines_cons by done. intros Hin.
    apply elem_of_cons in Hin as [Hin|Hin]; [done|].
    revert Hin. apply (IH (length s)); [simpl in Hn; lia | reflexivity].
Qed.

Lemma split_subseteq sep s seg : seg ∈ split sep s -> seg ⊆ s.
Proof.
  revert seg. induction s as [|c s IH]; intros seg Hin; simpl in Hin.
  - apply list_elem_of_singleton in Hin as ->. done.
  - destruct (c =? sep).
    + apply elem_of_cons in Hin as [->|Hin].
      * intros x Hx. by apply elem_of_nil in Hx.
      * intros x Hx. right. by apply (IH seg).
    + pose proof (split_nonempty sep s) as Hne.
      destruct (split sep s) as [|seg0 segs]; [done|].
      apply elem_of_cons in Hin as [->|Hin].
      * intros x Hx. apply elem_of_cons in Hx as [->|Hx]; [left|right].
        apply (IH seg0); [left | done].
      * intros x Hx. right. apply (IH seg); [by right | done].
Qed.

Lemma removelast_subseteq {A} (l : list A) : removelast l ⊆ l.
Proof.
  induction l as [|x l IH]; [done|]. simpl.
  destruct l as [|y l]; [intros z Hz; by apply elem_of_nil in Hz|].
  intros z Hz. apply elem_of_cons in Hz as [->|Hz]; [left | right; by apply IH].
Qed.

Lemma lines_segments txt :
  lines txt ⊆ split 10 (universal_newlines txt).
Proof.
  unfold lines. destruct (List.last _ _); [apply removelast_subseteq | done].
Qed.

End RegistryMore.

(** X20. What is appended is read back: from a file whose last line is
    ended, the ids read after appending clean ids are those read before
    together with the ids appended, and the file still ends its last line.
    A missing file and an empty file both read as the empty set. *)
Theorem appended_ids_are_read_back ids file :
  Registry.well_formed file -> Forall Registry.clean ids ->
  Registry.load_seen_ads (Registry.append_ids ids file)
  = Registry.load_seen_ads file ∪ list_to_set ids
  /\ Registry.well_formed (Registry.append_ids ids file)
  /\ Registry.load_seen_ads None = ∅
  /\ Registry.load_seen_ads (Some []) = ∅.
Proof.
  intros Hwf Hc. split_and!.
  - by apply load_append_ids.
  - by apply append_ids_well_formed.
  - reflexivity.
  - reflexivity.
Qed.

Lemma appended_ids_are_read_back_witness :
  Registry.load_seen_ads
    (Registry.append_ids [py "bici-123"; py "vale-9"] None)
  = Registry.load_seen_ads None ∪ list_to_set [py "bici-123"; py "vale-9"]
  /\ Registry.well_formed
       (Registry.append_ids [py "bici-123"; py "vale-9"] None)
  /\ Registry.load_seen_ads None = ∅
  /\ Registry.load_seen_ads (Some []) = ∅.
Proof.
  apply (appended_ids_are_read_back [py "bici-123"; py "vale-9"] None).
  - exact I.
  - repeat constructor; try (vm_compute; reflexivity); not_in_literal.
Defined.

(** X21. Every id [load_seen_ads] returns is clean: it has no white
    space at either end and no line break, so that written back it would
    be read as itself. *)
Theorem loaded_ids_are_clean file i :
  i ∈ Registry.load_seen_ads file -> Registry.clean i.
Proof.
  unfold Registry.load_seen_ads. destruct file as [txt|];
    [|intros H; by apply not_elem_of_empty in H].
  intros H. apply elem_of_list_to_set, list_elem_of_In, in_map_iff in H
    as (line & <- & Hl).
  apply list_elem_of_In, lines_segments in Hl.
  pose proof (split_subseteq _ _ _ Hl) as Hsub.
  pose proof (split_no_sep_inside 10 (Registry.universal_newlines txt)) as Hno.
  rewrite Forall_forall in Hno. specialize (Hno line Hl).
  split_and!.
  - apply strip_again.
  - intros Hin. by apply strip_subseteq in Hin.
  - intros Hin. apply strip_subseteq, Hsub in Hin.
    by apply universal_newlines_no_cr in Hin.
Qed.

Lemma loaded_ids_are_clean_witness : Registry.clean (py "mesa-7").
Proof.
  apply (loaded_ids_are_clean
           (Some (py "  mesa-7 " ++ [13; 10] ++ py "vale-9" ++ [10]))).
  unfold Registry.load_seen_ads. apply elem_of_list_to_set.
  vm_compute. left.
Defined.

(** X22. [save_seen_ad] only appends: after any number of calls the file
    is what it was (nothing, if it was missing) followed by one line per id,
    in the order of the calls. *)
Theorem seen_file_is_append_only ids file :
  Registry.append_ids [] file = file
  /\ (ids <> [] ->
      Registry.append_ids ids file
      = Some (default [] file ++ concat (map (fun i => i ++ [10]) ids))).
Proof.
  split; [reflexivity|]. revert file.
  induction ids as [|i ids IH]; intros file Hne; [done|].
  simpl. destruct ids as [|j ids].
  - simpl. unfold Registry.save_seen_ad. by rewrite app_nil_r.
  - rewrite IH by done. unfold Registry.save_seen_ad. simpl.
    by rewrite <- !app_assoc.
Qed.

Lemma seen_file_is_append_only_witness :
  Registry.append_ids [py "bici-123"; py "vale-9"] (Some (py "mesa-7" ++ [10]))
  = Some (default [] (Some (py "mesa-7" ++ [10]))
            ++ concat (map (fun i => i ++ [10]) [py "bici-123"; py "vale-9"])).
Proof.
  apply (seen_file_is_append_only [py "bici-123"; py "vale-9"]
           (Some (py "mesa-7" ++ [10]))).
  discriminate.
Defined.

(** ** [main] and [send_email_alert], lines 249-375 *)

Section RunMore.
Import Data Extract Registry Run Variants Samples.

(** A session that finds nothing new, from its first log line to its
    last. *)
Lemma session_body_idle cfg s all w u cards logged :
  url s = Ok u -> navigate s = Ok tt ->
  consent s = Ok tt \/ consent s = Raise TimeoutException ->
  expand s = Ok tt -> capture s = Ok tt -> reading s = Ok tt ->
  rendered s = Ok cards ->
  extract_new_ads_logged cards (load_seen_ads (seen_file w)) cfg (now s)
    = ([], logged) ->
  session_body cfg s all w
  = (Ok all,
     {| seen_file := seen_file w;
        trace := trace w
          ++ [LogSearching; LogNavigating u;
              LogCookies (match consent s with Ok _ => true | _ => false end);
              LogScreenshot; LoadSeen]
          ++ logged ++ [LogNoNewAds] |}).
Proof.
  intros Hu Hnav Hcons Hexp Hcap Hread Hren Hext.
  rewrite (session_body_reaches cfg s all w u cards) by done.
  unfold extract_new_ads. rewrite Hext. cbn [fst snd].
  unfold batch_body, opening, mbind, M_bind, emit, mret, M_ret.
  cbn [seen_file trace]. by rewrite <- !app_assoc.
Qed.

(** *** The dictionary behind the aggregate *)

Lemma dict_set_keys k v d :
  map fst (dict_set k v d)
  = if bool_decide (k ∈ map fst d) then map fst d else map fst d ++ [k].
Proof.
  induction d as [|[k' v'] d IH]; cbn [dict_set map fst app].
  - rewrite bool_decide_eq_false_2; [done | apply not_elem_of_nil].
  - destruct (decide (k = k')) as [<-|Hk].
    + rewrite (bool_decide_eq_true_2 (k = k)) by done.
      by rewrite bool_decide_eq_true_2 by left.
    + rewrite (bool_decide_eq_false_2 (k = k')) by done.
      cbn [map fst]. rewrite IH. destruct (decide (k ∈ map fst d)) as [Hin|Hin].
      * rewrite (bool_decide_eq_true_2 (k ∈ map fst d)) by done.
        by rewrite bool_decide_eq_true_2 by (by right).
      * rewrite (bool_decide_eq_false_2 (k ∈ map fst d)) by done.
        rewrite bool_decide_eq_false_2; [done|].
        intros [?|?]%elem_of_cons; done.
Qed.

Lemma dict_set_NoDup k v d :
  NoDup (map fst d) -> NoDup (map fst (dict_set k v d)).
Proof.
  intros H. rewrite dict_set_keys. case_bool_decide as Hin; [done|].
  apply NoDup_app. split_and!; [done | | apply NoDup_singleton].
  by intros x Hx ->%list_elem_of_singleton.
Qed.

Lemma key_of_entry (k : pystr) (v : ad) d : (k, v) ∈ d -> k ∈ map fst d.
Proof.
  intros H. apply list_elem_of_In, in_map_iff. exists (k, v).
  split; [done | by apply list_elem_of_In].
Qed.

Lemma dict_set_elem k v d k' v' :
  NoDup (map fst d) ->
  (k', v') ∈ dict_set k v d
  <-> (k' = k /\ v' = v) \/ (k' <> k /\ (k', v') ∈ d).
Proof.
  induction d as [|[k0 v0] d IH]; simpl; intros Hnd.
  - rewrite list_elem_of_singleton. split.
    + intros [= -> ->]. by left.
    + intros [[-> ->]|[_ H]]; [done | by apply elem_of_nil in H].
  - apply NoDup_cons in Hnd as [Hk0 Hnd]. case_bool_decide as Hk.
    + subst k0. rewrite !elem_of_cons. split.
      * intros [[= -> ->]|H]; [by left|]. right. split; [|by right].
        intros ->. by apply Hk0, key_of_entry with v'.
      * intros [[-> ->]|[Hne [[= ? ?]|H]]]; [by left | done | by right].
    + rewrite !elem_of_cons, (IH Hnd). split.
      * intros [[= -> ->]|[[-> ->]|[Hne H]]].
        -- right. split; [done | by left].
        -- by left.
        -- right. split; [done | by right].
      * intros [[-> ->]|[Hne [[= -> ->]|H]]].
        -- right. by left.
        -- by left.
        -- right. right. by split.
Qed.

Lemma last_with_id_snoc l a k v :
  last_with_id (l ++ [a]) k v
  <-> (k = id a /\ v = a) \/ (k <> id a /\ last_with_id l k v).
Proof.
  unfold last_with_id. split.
  - intros (l1 & l2 & E & Hid & Hnot).
    destruct l2 as [|x l2 _] using rev_ind.
    + apply app_inj_tail in E as [-> ->]. by left.
    + rewrite app_comm_cons, app_assoc in E.
      apply app_inj_tail in E as [-> ->]. right.
      rewrite map_app in Hnot. apply not_elem_of_app in Hnot as [Hn1 Hn2].
      split; [|by exists l1, l2].
      intros ->. apply Hn2. simpl. by left.
  - intros [[-> ->]|[Hne (l1 & l2 & -> & Hid & Hnot)]].
    + exists l, []. split_and!; [done | done | apply not_elem_of_nil].
    + exists l1, (l2 ++ [a]). rewrite <- app_assoc. split_and!; [done | done |].
      rewrite map_app. apply not_elem_of_app. split; [done|].
      simpl. by intros ->%list_elem_of_singleton.
Qed.

(** The dictionary [main] builds holds, under each id, the last record
    with that id. *)
Lemma unique_dict l :
  NoDup (map fst (fold_left (fun d a => dict_set (id a) a d) l []))
  /\ forall k v,
       (k, v) ∈ fold_left (fun d a => dict_set (id a) a d) l []
       <-> last_with_id l k v.
Proof.
  induction l as [|a l [IHn IHe]] using rev_ind.
  - split; [apply NoDup_nil_2|]. intros k v. split.
    + by intros H%elem_of_nil.
    + intros (l1 & l2 & E & _). by destruct l1.
  - rewrite fold_left_app. simpl. split; [by apply dict_set_NoDup|].
    intros k v. rewrite dict_set_elem by done.
    rewrite last_with_id_snoc, IHe. done.
Qed.

Lemma last_with_id_exists l k :
  k ∈ map id l -> exists v, last_with_id l k v.
Proof.
  induction l as [|a l IH]; simpl; [by intros H%elem_of_nil|].
  intros H. destruct (decide (k ∈ map id l)) as [Hin|Hnot].
  - destruct (IH Hin) as (v & l1 & l2 & -> & Hid & Hn).
    exists v, (a :: l1), l2. done.
  - apply elem_of_cons in H as [->|H]; [|done].
    exists a, [], l. done.
Qed.

Lemma values_ids (d : list (pystr * ad)) :
  (forall k v, (k, v) ∈ d -> id v = k) -> map id (map snd d) = map fst d.
Proof.
  induction d as [|[k v] d IH]; intros H; [done|]. simpl.
  rewrite (H k v) by left. f_equal. apply IH. intros k' v' Hin.
  apply H. by right.
Qed.

Lemma unique_ads_elem l a :
  a ∈ unique_ads l <-> last_with_id l (id a) a.
Proof.
  unfold unique_ads. destruct (unique_dict l) as [_ He]. split.
  - intros H. apply list_elem_of_In, in_map_iff in H as ([k v] & E & Hin).
    simpl in E. subst v. apply list_elem_of_In, He in Hin.
    destruct Hin as (l1 & l2 & E & Hid & Hn). subst k. by exists l1, l2.
  - intros H. apply He in H. apply list_elem_of_In, in_map_iff.
    exists (id a, a). split; [done | by apply list_elem_of_In].
Qed.

(** With a feature switched off, what its steps would answer plays no
    part in a session. *)
Lemma session_body_mail_off cfg s c m all w :
  default true (send_email cfg) = false ->
  session_body cfg (with_mail s c m) all w = session_body cfg s all w.
Proof.
  intros Hoff. unfold session_body, batch_body, with_mail.
  cbn [now url navigate consent expand capture reading rendered downloads
       export compose smtp store].
  by rewrite Hoff.
Qed.

Lemma session_body_images_off cfg s d all w :
  default false (save_images cfg) = false ->
  session_body cfg (with_downloads s d) all w = session_body cfg s all w.
Proof.
  intros Hoff. unfold session_body, batch_body, with_downloads.
  cbn [now url navigate consent expand capture reading rendered downloads
       export compose smtp store].
  by rewrite Hoff.
Qed.

Lemma run_sessions_ext cfg (f : session -> session) terms :
  (forall s all w, session_body cfg (f s) all w = session_body cfg s all w) ->
  forall all w,
    run_sessions cfg (map f terms) all w = run_sessions cfg terms all w.
Proof.
  intros Hf. induction terms as [|s terms IH]; intros all w; [reflexivity|].
  simpl. unfold mbind, M_bind. rewrite Hf.
  destruct (session_body cfg s all w) as [[x|e] w1]; [apply IH | reflexivity].
Qed.

(** The statements of a session only add to the log. *)
Lemma blind_ret {A} (a : A) : blind (mret a : M A).
Proof. intros f t. unfold mret, M_ret. simpl. by rewrite app_nil_r. Qed.

Lemma blind_emit evs : blind (emit evs).
Proof. intros f t. reflexivity. Qed.

Lemma blind_lift {A} (r : res A) : blind (lift r).
Proof. intros f t. unfold lift. simpl. by rewrite app_nil_r. Qed.

Lemma blind_load_seen r : blind (load_seen r).
Proof.
  intros f t. unfold load_seen. destruct r; simpl; [done|].
  by rewrite app_nil_r.
Qed.

Lemma blind_save_seen answer i : blind (save_seen answer i).
Proof.
  intros f t. unfold save_seen. destruct answer; simpl; [done|].
  by rewrite app_nil_r.
Qed.

Lemma blind_bind {A B} (m : M A) (k : A -> M B) :
  blind m -> (forall a, blind (k a)) -> blind (x ← m; k x).
Proof.
  intros Hm Hk f t. unfold mbind, M_bind. rewrite (Hm f t).
  destruct (m {| seen_file := f; trace := [] |}) as [[a|e] [f0 t0]];
    cbn [fst snd seen_file trace]; [|done].
  rewrite (Hk a f0 (t ++ t0)), (Hk a f0 t0).
  cbn [fst snd seen_file trace]. by rewrite app_assoc.
Qed.

Lemma blind_save_all store k ads : blind (save_all store k ads).
Proof.
  revert k. induction ads as [|a ads IH]; intros k; simpl.
  - apply blind_ret.
  - apply blind_bind; [apply blind_save_seen | intros _; apply IH].
Qed.

Lemma blind_send_email_alert ads s : blind (send_email_alert ads s).
Proof.
  unfold send_email_alert. destruct ads; [apply blind_emit|].
  apply blind_bind; [apply blind_lift|]. intros _.
  destruct (smtp s); apply blind_emit.
Qed.

Lemma blind_batch_body cfg s all new_ads : blind (batch_body cfg s all new_ads).
Proof.
  unfold batch_body. destruct new_ads as [|a l].
  { apply blind_bind; [apply blind_emit | intros _; apply blind_ret]. }
  apply blind_bind; [apply blind_emit | intros _].
  apply blind_bind.
  { destruct (default false (save_images cfg)); [|apply blind_ret].
    apply blind_bind; [apply blind_lift | intros got; apply blind_ret]. }
  intros batch.
  apply blind_bind; [apply blind_lift | intros _].
  apply blind_bind; [apply blind_emit | intros _].
  apply blind_bind.
  { destruct (default true (send_email cfg));
      [apply blind_send_email_alert | apply blind_emit]. }
  intros _.
  apply blind_bind; [apply blind_save_all | intros _].
  apply blind_bind; [apply blind_emit | intros _; apply blind_ret].
Qed.

Lemma blind_after_consent cfg s all : blind (after_consent cfg s all).
Proof.
  unfold after_consent.
  apply blind_bind; [apply blind_lift | intros _].
  apply blind_bind; [apply blind_lift | intros _].
  apply blind_bind; [apply blind_emit | intros _].
  apply blind_bind; [apply blind_load_seen | intros seen].
  apply blind_bind; [apply blind_lift | intros cards].
  destruct (extract_new_ads_logged cards seen cfg (now s)) as [new_ads logged].
  apply blind_bind; [apply blind_emit | intros _; apply blind_batch_body].
Qed.

(** The body of the loop: its steps up to the cookie step, then the
    rest. *)
Lemma session_body_unfold cfg s all :
  session_body cfg s all
  = (emit [LogSearching];;
     u ← lift (url s);
     emit [LogNavigating u];;
     lift (navigate s);;
     match consent s with
     | Ok _ => emit [LogCookies true]
     | Raise TimeoutException => emit [LogCookies false]
     | Raise e => lift (Raise e)
     end;;
     after_consent cfg s all).
Proof. reflexivity. Qed.

(** A session whose page is reached, at the cookie step. *)
Lemma session_body_to_consent cfg s all w u :
  url s = Ok u -> navigate s = Ok tt ->
  session_body cfg s all w
  = match consent s with
    | Ok _ =>
        after_consent cfg s all
          {| seen_file := seen_file w;
             trace := trace w
               ++ [LogSearching; LogNavigating u; LogCookies true] |}
    | Raise TimeoutException =>
        after_consent cfg s all
          {| seen_file := seen_file w;
             trace := trace w
               ++ [LogSearching; LogNavigating u; LogCookies false] |}
    | Raise e =>
        (Raise e, {| seen_file := seen_file w;
                     trace := trace w ++ [LogSearching; LogNavigating u] |})
    end.
Proof.
  intros Hu Hnav. rewrite session_body_unfold.
  unfold mbind, M_bind, lift, emit. rewrite Hu, Hnav.
  destruct (consent s) as [[]|[]]; cbn [seen_file trace];
    rewrite <- !app_assoc; reflexivity.
Qed.

(** X23. A session whose extraction pass returns no record changes
    nothing but the log: it returns [all_new_ads] as it got it, leaves the
    seen-ads file as it was, and logs only its opening lines, the lines of
    the pass, none of which announces a record, and the "no new ads" line.
    No image is fetched, nothing is exported, no mail is sent and no id is
    appended, whatever those steps would answer. *)
Theorem empty_result_is_a_no_op cfg s all w u cards :
  url s = Ok u -> navigate s = Ok tt ->
  consent s = Ok tt \/ consent s = Raise TimeoutException ->
  expand s = Ok tt -> capture s = Ok tt -> reading s = Ok tt ->
  rendered s = Ok cards ->
  extract_new_ads cards (load_seen_ads (seen_file w)) cfg (now s) = [] ->
  let logged :=
    (extract_new_ads_logged cards (load_seen_ads (seen_file w)) cfg
       (now s)).2 in
  session_body cfg s all w
  = (Ok all,
     {| seen_file := seen_file w;
        trace := trace w
          ++ [LogSearching; LogNavigating u;
              LogCookies (match consent s with Ok _ => true | _ => false end);
              LogScreenshot; LoadSeen]
          ++ logged ++ [LogNoNewAds] |})
  /\ Views.logged_ads logged = [].
Proof.
  intros Hu Hnav Hcons Hexp Hcap Hread Hren Hnone logged. split.
  - apply session_body_idle with cards; try done.
    unfold extract_new_ads in Hnone. subst logged.
    destruct (extract_new_ads_logged cards (load_seen_ads (seen_file w)) cfg
                (now s)) as [ads evs].
    simpl in *. by subst ads.
  - subst logged. unfold extract_new_ads_logged.
    rewrite logged_ads_extract. exact Hnone.
Qed.

(** The page shows a card the file already lists. *)
Lemma empty_result_is_a_no_op_witness :
  session_body defaults (visit [bike]) [refund_ad] MoreSamples.seen_bike
  = (Ok [refund_ad],
     {| seen_file := Some (py "bici-123" ++ [10]);
        trace := [LogSearching; LogNavigating address; LogCookies false;
                  LogScreenshot; LoadSeen; LogNoNewAds] |})
  /\ Views.logged_ads [] = [].
Proof.
  apply (empty_result_is_a_no_op defaults (visit [bike]) [refund_ad]
           MoreSamples.seen_bike address [bike]).
  - reflexivity.
  - reflexivity.
  - right. reflexivity.
  - reflexivity.
  - reflexivity.
  - reflexivity.
  - reflexivity.
  - vm_compute. reflexivity.
Defined.

(** X24. However [main] ends, the last line of its log is the "closing
    browser" line of the [finally] block, what was logged before the run
    is still there, and the seen-ads file is the file of before with ids
    appended, the last line possibly torn when a call of [save_seen_ad]
    raised: nothing is removed from the file or rewritten.  When [main]
    returns with a completed run, no line is torn. *)
Theorem main_closes_and_only_appends cfg terms c w :
  exists evs ids,
    trace (main cfg terms c w).2 = trace w ++ evs ++ [LogClosing]
    /\ (exists i reached,
          seen_file (main cfg terms c w).2
          = torn_save i reached (append_ids ids (seen_file w)))
    /\ (forall unique,
          (main cfg terms c w).1 = Ok (Completed unique) ->
          seen_file (main cfg terms c w).2 = append_ids ids (seen_file w)).
Proof.
  destruct (run_sessions cfg terms [] w) as [r w1] eqn:Hrun.
  destruct (run_sessions_appends _ _ _ _ _ _ Hrun) as (ids & Hok & Hraise).
  destruct (run_sessions_frame _ _ _ _ _ _ Hrun) as (evs & Ht & _).
  destruct r as [all|e].
  - rewrite (main_after_ok _ _ _ _ _ _ Hrun). cbn [fst snd seen_file trace].
    exists (evs ++ [LogTotal (length (unique_ads all))]), ids.
    rewrite (Hok all eq_refl), Ht. split_and!.
    + by rewrite <- !app_assoc.
    + by exists [], None.
    + done.
  - rewrite (main_after_raise _ _ _ _ _ _ Hrun). cbn [fst snd seen_file trace].
    destruct (Hraise e eq_refl) as (i & reached & Hf).
    exists (evs
            ++ [match e with
                | TimeoutException => LogTimeout
                | _ => LogUnexpected e
                end]
            ++ match diagnostic c with
               | Ok _ => [DiagnosticShot]
               | Raise _ => []
               end), ids.
    rewrite Hf, Ht. split_and!.
    + by rewrite <- !app_assoc.
    + by exists i, reached.
    + intros unique H. unfold mbind, res_bind in H.
      destruct (quit c), (diagnostic c), e; discriminate H.
Qed.

(** X25. The aggregate of a run keeps, for every id, exactly the last
    record with that id: no two records of the aggregate share an id, a
    record is in the aggregate when and only when it is the last of
    [all_new_ads] with its id, and the ids of the aggregate are the ids of
    [all_new_ads]. *)
Theorem aggregate_keeps_last_record_per_id (all_new_ads : list ad) :
  NoDup (map id (unique_ads all_new_ads))
  /\ (forall a, a ∈ unique_ads all_new_ads
                <-> last_with_id all_new_ads (id a) a)
  /\ (forall k, k ∈ map id (unique_ads all_new_ads)
                <-> k ∈ map id all_new_ads).
Proof.
  split_and!.
  - unfold unique_ads. destruct (unique_dict all_new_ads) as [Hn He].
    rewrite values_ids; [done|]. intros k v Hin.
    apply He in Hin as (l1 & l2 & _ & Hid & _). done.
  - apply unique_ads_elem.
  - intros k. split.
    + intros H. apply list_elem_of_In, in_map_iff in H as (a & <- & Ha).
      apply list_elem_of_In, unique_ads_elem in Ha as (l1 & l2 & E & _).
      rewrite E, map_app. apply elem_of_app. right. by left.
    + intros H. destruct (last_with_id_exists _ _ H) as (v & Hv).
      pose proof Hv as (l1 & l2 & _ & Hid & _). subst k.
      apply unique_ads_elem in Hv.
      apply list_elem_of_In, in_map, list_elem_of_In. done.
Qed.

(** X26. With [send_email] off, a run is the same whatever composing the
    mail and the SMTP dialogue would answer in any of its sessions. *)
Theorem mail_is_not_touched_when_off cfg terms c w
    (cm m : session -> res unit) :
  default true (send_email cfg) = false ->
  main cfg (map (fun s => with_mail s (cm s) (m s)) terms) c w
  = main cfg terms c w.
Proof.
  intros Hoff. unfold main.
  rewrite (run_sessions_ext cfg (fun s => with_mail s (cm s) (m s))); [done|].
  intros s all w0. by apply session_body_mail_off.
Qed.

Lemma mail_is_not_touched_when_off_witness :
  main {| max_results := None; save_images := None; send_email := Some false |}
    (map (fun s => with_mail s (Raise OtherException) (Raise OtherException))
       [visit [bike]; visit [refund]]) alive blank
  = main {| max_results := None; save_images := None;
            send_email := Some false |}
      [visit [bike]; visit [refund]] alive blank.
Proof.
  apply (mail_is_not_touched_when_off
           {| max_results := None; save_images := None;
              send_email := Some false |}
           [visit [bike]; visit [refund]] alive blank
           (fun _ => Raise OtherException) (fun _ => Raise OtherException)).
  reflexivity.
Defined.

(** X27. With [save_images] off or unset, a run is the same whatever the
    image requests would answer in any of its sessions. *)
Theorem images_are_not_fetched_when_off cfg terms c w
    (d : session -> res (list (option pystr))) :
  default false (save_images cfg) = false ->
  main cfg (map (fun s => with_downloads s (d s)) terms) c w
  = main cfg terms c w.
Proof.
  intros Hoff. unfold main.
  rewrite (run_sessions_ext cfg (fun s => with_downloads s (d s))); [done|].
  intros s all w0. by apply session_body_images_off.
Qed.

Lemma images_are_not_fetched_when_off_witness :
  main defaults
    (map (fun s => with_downloads s (Raise OtherException))
       [visit [bike]; visit [refund]]) alive blank
  = main defaults [visit [bike]; visit [refund]] alive blank.
Proof.
  apply (images_are_not_fetched_when_off defaults
           [visit [bike]; visit [refund]] alive blank
           (fun _ => Raise OtherException)).
  reflexivity.
Defined.

(** X28. The books of a run that completes: the aggregate is the
    de-duplication of the records its sessions returned, one after the
    other; the ids of all those records, repeated ones included, are what
    the run appended to the seen-ads file, in that order; and the log ends
    with the total and the closing line. *)
Theorem completed_run_books cfg terms c w unique w' :
  main cfg terms c w = (Ok (Completed unique), w') ->
  exists all_new_ads evs,
    unique = unique_ads all_new_ads
    /\ seen_file w' = append_ids (map id all_new_ads) (seen_file w)
    /\ trace w'
       = trace w ++ evs ++ [LogTotal (length unique); LogClosing].
Proof.
  intros H.
  destruct (run_sessions cfg terms [] w) as [r w1] eqn:Hrun.
  destruct (run_sessions_frame _ _ _ _ _ _ Hrun) as (evs & Ht & _).
  destruct r as [all|e].
  - rewrite (main_after_ok _ _ _ _ _ _ Hrun) in H.
    unfold mbind, res_bind in H. destruct (quit c); [|discriminate H].
    injection H as <- <-.
    destruct (run_sessions_books _ _ _ _ _ _ Hrun) as (added & E & Hf).
    simpl in E. subst added. exists all, evs. cbn [seen_file trace].
    split_and!; [done | done | by rewrite Ht, <- app_assoc].
  - rewrite (main_after_raise _ _ _ _ _ _ Hrun) in H.
    unfold mbind, res_bind in H.
    destruct (quit c), (diagnostic c), e; discriminate H.
Qed.

(** One term whose page shows two cards with the same id. *)
Lemma completed_run_books_witness :
  exists all_new_ads evs,
    [MoreSamples.mountain_bike_ad] = unique_ads all_new_ads
    /\ Some (py "bici-123" ++ [10] ++ py "bici-123" ++ [10])
       = append_ids (map id all_new_ads) (seen_file blank)
    /\ [LogSearching; LogNavigating address; LogCookies false;
        LogScreenshot; LoadSeen;
        LogNewAd bike_ad; LogNewAd MoreSamples.mountain_bike_ad; LogFound 2;
        LogCsv [bike_ad; MoreSamples.mountain_bike_ad];
        MailSent [bike_ad; MoreSamples.mountain_bike_ad];
        AppendSeen (py "bici-123"); AppendSeen (py "bici-123"); LogUpdated 2;
        LogTotal 1; LogClosing]
       = trace blank ++ evs ++ [LogTotal 1; LogClosing].
Proof.
  apply (completed_run_books defaults [visit [bike; bike_again]] alive blank
           [MoreSamples.mountain_bike_ad]
           {| seen_file := Some (py "bici-123" ++ [10] ++ py "bici-123" ++ [10]);
              trace :=
                [LogSearching; LogNavigating address; LogCookies false;
                 LogScreenshot; LoadSeen;
                 LogNewAd bike_ad; LogNewAd MoreSamples.mountain_bike_ad;
                 LogFound 2; LogCsv [bike_ad; MoreSamples.mountain_bike_ad];
                 MailSent [bike_ad; MoreSamples.mountain_bike_ad];
                 AppendSeen (py "bici-123"); AppendSeen (py "bici-123");
                 LogUpdated 2; LogTotal 1; LogClosing] |}).
  vm_compute. reflexivity.
Defined.

(** X29. De-duplication across the sessions of one run goes through the
    file: when the file the run started from ends its last line and the
    ids of the records returned so far are clean, no record a later
    session returns has the id of a record returned by an earlier session
    of the run, nor an id the file listed when the run started. *)
Theorem later_session_skips_earlier_ids cfg before s all w all1 w1 all2 w2 :
  run_sessions cfg before all w = (Ok all1, w1) ->
  session_body cfg s all1 w1 = (Ok all2, w2) ->
  well_formed (seen_file w) ->
  exists earlier later,
    all1 = all ++ earlier /\ all2 = all1 ++ later
    /\ (Forall clean (map id earlier) ->
        forall a, a ∈ later ->
          (id a ∉ map id earlier) /\ (id a ∉ load_seen_ads (seen_file w))).
Proof.
  intros Hrun Hs Hwf.
  destruct (run_sessions_books _ _ _ _ _ _ Hrun) as (earlier & -> & Hf1).
  destruct (session_ok_spec _ _ _ _ _ _ Hs)
    as (u & cards & later & rest & _ & -> & Hids & _).
  exists earlier, later. split_and!; [done | done |].
  intros Hclean a Ha.
  assert (Hin : id a ∈ map id later)
    by (by apply list_elem_of_In, in_map, list_elem_of_In).
  rewrite Hids in Hin.
  apply list_elem_of_In, in_map_iff in Hin as (a' & E & Ha').
  apply list_elem_of_In, extract_new_ads_unseen in Ha'.
  rewrite Hf1, load_append_ids, E in Ha' by done.
  apply not_elem_of_union in Ha' as [H1 H2].
  split; [|done]. intros Hin. by apply H2, elem_of_list_to_set.
Qed.

(** The second page shows the bike of the first page again, beside a new
    card. *)
Lemma later_session_skips_earlier_ids_witness :
  exists earlier later,
    [bike_ad] = [] ++ earlier /\ [bike_ad; refund_ad] = [bike_ad] ++ later
    /\ (Forall clean (map id earlier) ->
        forall a, a ∈ later ->
          (id a ∉ map id earlier)
          /\ (id a ∉ load_seen_ads (seen_file blank))).
Proof.
  apply (later_session_skips_earlier_ids defaults [visit [bike]]
           (visit [refund; bike]) [] blank [bike_ad]
           {| seen_file := Some (py "bici-123" ++ [10]);
              trace := [LogSearching; LogNavigating address;
                        LogCookies false; LogScreenshot;
                        LoadSeen; LogNewAd bike_ad; LogFound 1;
                        LogCsv [bike_ad]; MailSent [bike_ad];
                        AppendSeen (py "bici-123"); LogUpdated 1] |}
           [bike_ad; refund_ad]
           {| seen_file := Some (py "bici-123" ++ [10] ++ py "vale-9" ++ [10]);
              trace := [LogSearching; LogNavigating address;
                        LogCookies false; LogScreenshot;
                        LoadSeen; LogNewAd bike_ad; LogFound 1;
                        LogCsv [bike_ad]; MailSent [bike_ad];
                        AppendSeen (py "bici-123"); LogUpdated 1;
                        LogSearching; LogNavigating address;
                        LogCookies false; LogScreenshot;
                        LoadSeen; LogNewAd refund_ad; LogFound 1;
                        LogCsv [refund_ad]; MailSent [refund_ad];
                        AppendSeen (py "vale-9"); LogUpdated 1] |}).
  - vm_compute. reflexivity.
  - vm_compute. reflexivity.
  - exact I.
Defined.

(** X30. A cookie banner that does not show up is tolerated: the session
    with the wait timing out returns what the session with the banner
    accepted returns, leaves the same file, and logs the same lines but
    for the one about the banner.  Any other exception of that step ends
    the session there: the file is as it was and the session has logged
    its two first lines, the search term and the URL, and nothing else. *)
Theorem missing_banner_is_tolerated cfg s all w :
  (let quiet := session_body cfg (with_consent s (Raise TimeoutException))
                  all w in
   let accepted := session_body cfg (with_consent s (Ok tt)) all w in
   quiet.1 = accepted.1
   /\ seen_file quiet.2 = seen_file accepted.2
   /\ map hush (trace quiet.2) = map hush (trace accepted.2))
  /\ (forall e u, e <> TimeoutException ->
        url s = Ok u -> navigate s = Ok tt ->
        session_body cfg (with_consent s (Raise e)) all w
        = (Raise e, {| seen_file := seen_file w;
                       trace := trace w
                         ++ [LogSearching; LogNavigating u] |})).
Proof.
  split.
  - cbv zeta.
    destruct (url s) as [u|e] eqn:Hu; cycle 1.
    { unfold session_body, with_consent, mbind, M_bind, lift, emit.
      cbn [url]. by rewrite Hu. }
    destruct (navigate s) as [[]|e] eqn:Hnav; cycle 1.
    { unfold session_body, with_consent, mbind, M_bind, lift, emit.
      cbn [url navigate]. by rewrite Hu, Hnav. }
    rewrite (session_body_to_consent cfg (with_consent s (Ok tt)) all w u)
      by done.
    rewrite (session_body_to_consent cfg
               (with_consent s (Raise TimeoutException)) all w u) by done.
    cbn [consent with_consent].
    change (after_consent cfg _ all) with (after_consent cfg s all).
    rewrite (blind_after_consent cfg s all (seen_file w)
               (trace w ++ [LogSearching; LogNavigating u; LogCookies false])).
    rewrite (blind_after_consent cfg s all (seen_file w)
               (trace w ++ [LogSearching; LogNavigating u; LogCookies true])).
    cbn [fst snd seen_file trace].
    split_and!; [done | done |]. by rewrite !map_app.
  - intros e u He Hu Hnav.
    rewrite (session_body_to_consent cfg (with_consent s (Raise e)) all w u)
      by done.
    cbn [consent with_consent]. by destruct e.
Qed.

End RunMore.
